(** * sfr-db-updater: entity resolution and merge of agents and instances

    A shallow embedding of [model/agent.py] and [model/instance.py], and the
    properties of the specification checked against it.

    Conventions of the embedding.
    - A Python [str] is a [list ascii]: a sequence of code points, here
      restricted to code points below 256.  Literals are written [str "..."].
    - A payload ([dict] decoded from JSON) is split, as the code itself
      does with [pop], into its child collections and its scalar part.  The
      scalar part is a [gmap string (option pystr)]: a key is a field name,
      [None] is Python's [None].
    - A persisted row (an ORM object) is the map of its attributes, because
      the code writes attributes by name with [setattr], together with its
      relationship collections.
    - The session is explicit state.  Exceptions are explicit: a function
      that may raise returns a [result], and what it wrote to the session
      before raising stays written.
    - The models the two modules import (links, dates, identifiers, and so
      on) and the [jarowinkler] function of the database are parameters; so
      are three things the libraries decide: whether [sqlalchemy.text]
      reads a bind parameter in a text, the order of a Python set, and the
      attributes a model class has beyond those its module declares.

    The file has the embedding first, then the data of the scenarios and
    the vocabulary of the statements, then the properties. *)

From Stdlib Require Import ZArith QArith Lia List Ascii String Bool.
From stdpp Require Import base option list strings gmap.

Local Open Scope string_scope.
Local Open Scope list_scope.
Local Open Scope nat_scope.

(** ** Python strings *)

Abbreviation pystr := (list ascii).

Definition str (s : string) : pystr := list_ascii_of_string s.

Definition pystr_eqb (a b : pystr) : bool := bool_decide (a = b).

(** [str.isspace] on one code point below 256: TAB..CR, FS..US, SPACE,
    NEL (0x85) and NBSP (0xA0). *)
Definition py_isspace (c : ascii) : bool :=
  let n := nat_of_ascii c in
  ((9 <=? n) && (n <=? 13)) || ((28 <=? n) && (n <=? 32))
  || (n =? 133) || (n =? 160).

Definition in_chars (chars : pystr) (c : ascii) : bool :=
  existsb (Ascii.eqb c) chars.

(** [s.lstrip] / [s.rstrip] / [s.strip] with a predicate for the stripped
    characters ([py_isspace] when [strip] is called without argument,
    [in_chars chars] for [strip(chars)]). *)
Fixpoint lstrip_by (p : ascii -> bool) (s : pystr) : pystr :=
  match s with
  | [] => []
  | c :: t => if p c then lstrip_by p t else s
  end.

Definition rstrip_by (p : ascii -> bool) (s : pystr) : pystr :=
  rev (lstrip_by p (rev s)).

Definition strip_by (p : ascii -> bool) (s : pystr) : pystr :=
  rstrip_by p (lstrip_by p s).

Definition py_strip (s : pystr) : pystr := strip_by py_isspace s.
Definition py_strip_chars (chars s : pystr) : pystr :=
  strip_by (in_chars chars) s.

(** [s.startswith(pre)] *)
Fixpoint starts_with (pre s : pystr) : bool :=
  match pre, s with
  | [], _ => true
  | _ :: _, [] => false
  | a :: pre', b :: s' => Ascii.eqb a b && starts_with pre' s'
  end.

(** [s.replace(old, new)] for a non-empty [old] (the code never passes an
    empty one): every non-overlapping occurrence of [old], scanning from the
    left.  [skip] counts the characters of the occurrence just replaced that
    are still to be passed over. *)
Fixpoint replace_from (skip : nat) (old new s : pystr) : pystr :=
  match s with
  | [] => []
  | c :: t =>
      match skip with
      | S k => replace_from k old new t
      | O => if starts_with old s
             then new ++ replace_from (length old - 1) old new t
             else c :: replace_from 0 old new t
      end
  end.

Definition py_replace (old new s : pystr) : pystr := replace_from 0 old new s.

(** The quote doubling of [_cleanName] and [Alias.insertOrSkip]:
    [replace] of one single quote by two. *)
Definition escape_quotes (s : pystr) : pystr :=
  py_replace (str "'") (str "''") s.

(** [s.lower()] on ASCII letters and the Latin-1 capitals. *)
Definition py_lower_char (c : ascii) : ascii :=
  let n := nat_of_ascii c in
  if ((65 <=? n) && (n <=? 90))
     || ((192 <=? n) && (n <=? 222) && negb (n =? 215))
  then ascii_of_nat (n + 32) else c.

Definition py_lower (s : pystr) : pystr := map py_lower_char s.

(** [s.split(sep)] for a one-character separator. *)
Fixpoint py_split (sep : ascii) (s : pystr) : list pystr :=
  match s with
  | [] => [[]]
  | c :: t =>
      if Ascii.eqb c sep then [] :: py_split sep t
      else match py_split sep t with
           | [] => [[c]]
           | w :: ws => (c :: w) :: ws
           end
  end.


(** ** Exceptions *)

Inductive exn : Type :=
  | KeyError              (* [d[k]] on a missing key *)
  | AttributeError        (* a [str] method called on [None] *)
  | TypeError             (* [None[0]]; a constructor called with a
                             keyword that is no attribute of the class *)
  | DataError             (* helpers.errorHelpers.DataError *)
  | MultipleResultsFound  (* sqlalchemy.orm.exc.MultipleResultsFound *)
  | StatementError.       (* sqlalchemy.exc.StatementError *)

Inductive result (A : Type) : Type :=
  | Ok (a : A)
  | Raise (e : exn).
Arguments Ok {A} a.
Arguments Raise {A} e.

#[global] Instance result_ret : MRet result := fun A a => Ok a.
#[global] Instance result_bind : MBind result := fun A B k r =>
  match r with
  | Ok a => k a
  | Raise e => Raise e
  end.

#[global] Instance exn_eq_dec : EqDecision exn.
Proof. solve_decision. Defined.

(** ** The regular expressions of [Agent._cleanName] *)

Definition is_digit (c : ascii) : bool :=
  let n := nat_of_ascii c in (48 <=? n) && (n <=? 57).

(** The class [[a-zA-Z; ]]. *)
Definition is_role_char (c : ascii) : bool :=
  let n := nat_of_ascii c in
  ((97 <=? n) && (n <=? 122)) || ((65 <=? n) && (n <=? 90))
  || (n =? 59) || (n =? 32).

Definition newline : ascii := "010"%char.

(** [re.match(r'^\[.+\]$', s)]: an opening bracket, one or more characters
    other than a newline, a closing bracket, and then the end of the string
    or one final newline (Python's [$]). *)
Definition bracket_body_ok (r : pystr) : bool :=
  match rev r with
  | c :: m => Ascii.eqb c "]" && negb (bool_decide (m = []))
              && forallb (fun x => negb (Ascii.eqb x newline)) m
  | [] => false
  end.

Definition match_whole_bracket (s : pystr) : bool :=
  match s with
  | c :: r =>
      Ascii.eqb c "[" &&
      (bracket_body_ok r ||
       match rev r with
       | n :: r' => Ascii.eqb n newline && bracket_body_ok (rev r')
       | [] => false
       end)
  | [] => false
  end.

(** A match of [([0-9]{4})\-(?:([0-9]{4})|)]: [group(0)], [group(1)] and
    [group(2)] ([None] when the second year did not take part). *)
Record LifeMatch : Type := mkLifeMatch {
  life_group0 : pystr;
  life_group1 : pystr;
  life_group2 : option pystr
}.

(** The regular expression anchored at the head of [s]. *)
Definition lifespan_at (s : pystr) : option LifeMatch :=
  match s with
  | d1 :: d2 :: d3 :: d4 :: h :: t =>
      if forallb is_digit [d1; d2; d3; d4] && Ascii.eqb h "-" then
        let birth := [d1; d2; d3; d4] in
        match t with
        | e1 :: e2 :: e3 :: e4 :: _ =>
            if forallb is_digit [e1; e2; e3; e4]
            then Some (mkLifeMatch (birth ++ [h] ++ [e1; e2; e3; e4])
                                   birth (Some [e1; e2; e3; e4]))
            else Some (mkLifeMatch (birth ++ [h]) birth None)
        | _ => Some (mkLifeMatch (birth ++ [h]) birth None)
        end
      else None
  | _ => None
  end.

(** [re.search]: the leftmost position at which the expression matches. *)
Fixpoint search_lifespan (s : pystr) : option LifeMatch :=
  match lifespan_at s with
  | Some m => Some m
  | None => match s with
            | [] => None
            | _ :: t => search_lifespan t
            end
  end.

(** A match of [\[([a-zA-Z; ]+)\]]: [group(0)] and [group(1)]. *)
Fixpoint take_while (p : ascii -> bool) (s : pystr) : pystr :=
  match s with
  | c :: t => if p c then c :: take_while p t else []
  | [] => []
  end.

Definition role_at (s : pystr) : option (pystr * pystr) :=
  match s with
  | c :: t =>
      if Ascii.eqb c "[" then
        let run := take_while is_role_char t in
        match run, lstrip_by is_role_char t with
        | _ :: _, c' :: _ =>
            if Ascii.eqb c' "]" then Some (c :: run ++ [c'], run) else None
        | _, _ => None
        end
      else None
  | [] => None
  end.

Fixpoint search_role (s : pystr) : option (pystr * pystr) :=
  match role_at s with
  | Some m => Some m
  | None => match s with
            | [] => None
            | _ :: t => search_role t
            end
  end.

(** ** Payloads *)

(** The scalar part of a payload, and the attributes of a persisted row. *)
Abbreviation fields := (gmap string (option pystr)).

(** A date record as [_cleanName] builds it. *)
Record DateData : Type := mkDate {
  display_date : pystr;
  date_range : pystr;
  date_type : pystr
}.

#[global] Instance DateData_eq_dec : EqDecision DateData.
Proof. solve_decision. Defined.

Definition birth_date_rec (y : pystr) : DateData := mkDate y y (str "birth_date").
Definition death_date_rec (y : pystr) : DateData := mkDate y y (str "death_date").

(** ** Agent._cleanName *)

(** The characters of the final [strip]: full stop, comma, semicolon,
    colon, bar, both square brackets, the double quote and the space. *)
Definition name_punct : pystr := str ".,;:|[]" ++ ["034"%char; " "%char].

(** Lines 227-230: quote doubling, then the brackets around a whole name. *)
Definition unwrapName (name : pystr) : pystr :=
  let tmpName := escape_quotes name in
  if match_whole_bracket tmpName
  then py_strip_chars (str "[]") tmpName
  else tmpName.

(** Lines 233-256: the lifespan dates. *)
Definition parseLifespan (tmpName : pystr) (dates : list DateData)
  : pystr * list DateData :=
  match search_lifespan tmpName with
  | Some lifeGroup =>
      let tmpName' := py_replace (life_group0 lifeGroup) [] tmpName in
      let dates1 := dates ++ [birth_date_rec (life_group1 lifeGroup)] in
      let dates2 := match life_group2 lifeGroup with
                    | Some deathDate => dates1 ++ [death_date_rec deathDate]
                    | None => dates1
                    end in
      (tmpName', dates2)
  | None => (tmpName, dates)
  end.

(** Lines 259-264: the bracketed roles. *)
Definition parseRoles (tmpName : pystr) (roles : list pystr)
  : pystr * list pystr :=
  match search_role tmpName with
  | Some (group0, group1) =>
      let tmpRoles := py_split ";" group1 in
      let cleanRoles := map (fun r => py_strip (py_lower r)) tmpRoles in
      (py_replace group0 [] tmpName, roles ++ cleanRoles)
  | None => (tmpName, roles)
  end.

(** [_cleanName(agent, roles, dates)] updates its three arguments in place;
    the embedding returns their new values.  [agent['name']] raises
    [KeyError] when the key is missing and [None.replace] raises
    [AttributeError]. *)
Definition _cleanName (agent : fields) (roles : list pystr)
    (dates : list DateData) : result (fields * list pystr * list DateData) :=
  match agent !! "name" with
  | None => Raise KeyError
  | Some None => Raise AttributeError
  | Some (Some name) =>
      let tmpName := unwrapName name in
      let '(tmpName, dates) := parseLifespan tmpName dates in
      let '(tmpName, roles) := parseRoles tmpName roles in
      let cleaned := py_strip_chars name_punct tmpName in
      Ok (<["sort_name" := Some cleaned]> (<["name" := Some cleaned]> agent),
          roles, dates)
  end.

(** ** The object graph

    The collaborator models ([model.link], [model.date],
    [model.identifiers], [model.measurement], [model.rights],
    [model.language], [model.item], [model.altTitle], the parent [Work])
    are imported by the two modules but their code is not part of them: the
    types of their rows and payloads, and the tables they own, are
    parameters of the embedding. *)

Class ExtTypes : Type := {
  Ext : Type;            (* the tables owned by the collaborators *)
  Link : Type;        LinkData : Type;
  DateField : Type;
  Identifier : Type;  IdenData : Type;
  Measurement : Type; MeasData : Type;
  Rights : Type;      RightsData : Type;
  Language : Type;
  Item : Type;        ItemData : Type;
  Work : Type;        Subject : Type
}.

Section Graph.
Context `{T : ExtTypes}.

(** An [Agent] object: its primary key ([None] until the row is written),
    its attributes, and its relationship collections. *)
Record AgentObj : Type := mkAgent {
  agent_id : option nat;
  agent_attrs : fields;
  agent_aliases : list pystr;       (* [Alias] rows, by their [alias] text *)
  agent_links : list Link;
  agent_dates : list DateField
}.

(** A reference to an agent object: a row of the table, or an object the
    session has not written yet. *)
Inductive AgentRef : Type :=
  | AgentId (n : nat)
  | NewAgent (a : AgentObj).

(** An [Instance] object.  [inst_agent_instances] is the backref collection
    of [AgentInstances] rows, each an agent and a role. *)
Record InstanceObj : Type := mkInstance {
  inst_id : option nat;
  inst_attrs : fields;
  inst_work : option Work;
  inst_agent_instances : list (AgentRef * pystr);
  inst_identifiers : list Identifier;
  inst_language : list Language;
  inst_items : list Item;
  inst_alt_titles : list pystr;     (* [AltTitle] rows, by their [title] *)
  inst_measurements : list Measurement;
  inst_dates : list DateField;
  inst_links : list Link;
  inst_rights : list Rights
}.

Inductive InstRef : Type :=
  | InstId (n : nat)
  | NewInst (i : InstanceObj).

(** Records of the log at level WARNING and above. *)
Inductive LogRecord : Type :=
  | LogMultipleAgents                       (* lookupAgent, error *)
  | LogUnableToReadAgent (name : option pystr)   (* _addAgents, warning *)
  | LogInvalidIdentifier                    (* _addIdentifiers, warning *)
  | LogUnableToParseLanguage (lang : pystr). (* _addLanguages, warning *)

(** The calls received by a parent [Work]. *)
Inductive WorkCall : Type :=
  | CallUpdateFields (w : Work) (series series_position : option pystr)
  | CallImportSubjects (w : Work) (subjects : list Subject).

(** The session: the rows of [agents] and [instances] (with their
    relationship collections), the collaborators' tables, the next primary
    key, the log and the calls made on works.  A query sees every row of
    the session (the session flushes before it queries). *)
Record Store : Type := mkStore {
  agents : list AgentObj;
  instances : list InstanceObj;
  ext : Ext;
  next_id : nat;
  log : list LogRecord;
  work_calls : list WorkCall
}.

(** A computation on the session that may raise.  What it changed before
    raising stays changed. *)
Definition M (A : Type) : Type := Store -> Store * result A.

Definition ret {A} (a : A) : M A := fun st => (st, Ok a).
Definition raise {A} (e : exn) : M A := fun st => (st, Raise e).
Definition bindM {A B} (m : M A) (k : A -> M B) : M B := fun st =>
  match m st with
  | (st', Ok a) => k a st'
  | (st', Raise e) => (st', Raise e)
  end.
Definition get_store : M Store := fun st => (st, Ok st).
Definition modify_store (f : Store -> Store) : M unit := fun st => (f st, Ok tt).
Definition lift {A} (r : result A) : M A := fun st => (st, r).

(** [try: m except DataError: h] *)
Definition except_DataError {A} (m : M A) (h : M A) : M A := fun st =>
  match m st with
  | (st', Raise DataError) => h st'
  | other => other
  end.

End Graph.

Notation "'do' x <- m ; k" := (bindM m (fun x => k))
  (at level 10, x pattern, m at level 100, k at level 200,
   format "'[v' 'do'  x  <-  m ; '/' k ']'").
Notation "m ;; k" := (bindM m (fun _ => k))
  (at level 100, k at level 200, right associativity).

(** ** The collaborators

    Each operation reads the session and may change the collaborators' own
    tables only; it may raise. *)

Inductive OwnerKind : Type := OwnerAgent | OwnerInstance.

Definition Query `{T : ExtTypes} (A : Type) : Type := Store -> Ext * result A.

Class Collaborators `{T : ExtTypes} : Type := {
  (* the [jarowinkler] function of the database *)
  jarowinkler : pystr -> pystr -> Q;
  (* [sqlalchemy.text(sql)] executed without parameters: [true] when the
     library reads a bind parameter ([:word]) in [sql], for which the
     query then has no value *)
  text_needs_value : pystr -> bool;
  (* [list(set(xs))]: the order in which Python iterates over a set is
     left to the hash seed *)
  set_order : list pystr -> list pystr;
  set_order_perm : forall xs, Permutation (set_order xs) (remove_dups xs);
  (* [hasattr(cls, k)] for the names the class does not declare in its
     module: those of [Core], [Base] and [object], and the relationships
     that models outside the two modules attach to it *)
  inherited_attribute : OwnerKind -> string -> bool;
  Link_new : LinkData -> result Link;
  Link_updateOrInsert : LinkData -> OwnerKind -> option nat -> Query (option Link);
  DateField_insert : DateData -> result DateField;
  DateField_updateOrInsert :
    DateData -> OwnerKind -> option nat -> Query (option DateField);
  Identifier_getByIdentifier : OwnerKind -> list IdenData -> Query (option nat);
  Identifier_returnOrInsert : IdenData -> Query (pystr * Identifier);
  (* [true] when a relationship row is returned, [false] for [None] *)
  Identifier_getIdentiferRelationship :
    Identifier -> OwnerKind -> option nat -> Query bool;
  Language_updateOrInsert : pystr -> Query Language;
  Language_lookupRelLang : Language -> OwnerKind -> InstRef -> Query bool;
  Item_updateOrInsert : ItemData -> Query (Item * pystr);
  (* the truth value of what [AltTitle.insertOrSkip] returns *)
  AltTitle_insertOrSkip : pystr -> OwnerKind -> option nat -> Query bool;
  Measurement_insert : MeasData -> result Measurement;
  Measurement_updateOrInsert :
    MeasData -> OwnerKind -> option nat -> Query (pystr * Measurement);
  Rights_insert : RightsData -> result Rights;
  Rights_updateOrInsert :
    RightsData -> OwnerKind -> option nat -> Query (option Rights);
  Work_updateFields : Work -> option pystr -> option pystr -> Query unit;
  Work_importSubjects : Work -> list Subject -> Query unit
}.

Section Agent.
Context `{C : Collaborators}.

Definition set_ext (e : Ext) (st : Store) : Store :=
  mkStore (agents st) (instances st) e (next_id st) (log st) (work_calls st).
Definition set_agents (l : list AgentObj) (st : Store) : Store :=
  mkStore l (instances st) (ext st) (next_id st) (log st) (work_calls st).
Definition set_instances (l : list InstanceObj) (st : Store) : Store :=
  mkStore (agents st) l (ext st) (next_id st) (log st) (work_calls st).
Definition add_log (r : LogRecord) (st : Store) : Store :=
  mkStore (agents st) (instances st) (ext st) (next_id st) (log st ++ [r])
          (work_calls st).
Definition add_work_call (c : WorkCall) (st : Store) : Store :=
  mkStore (agents st) (instances st) (ext st) (next_id st) (log st)
          (work_calls st ++ [c]).

(** A call of a collaborator. *)
Definition call {A} (q : Query A) : M A := fun st =>
  let '(e, r) := q st in (set_ext e st, r).

(** [for x in xs: body(x)] *)
Fixpoint for_each {A} (xs : list A) (body : A -> M unit) : M unit :=
  match xs with
  | [] => ret tt
  | x :: xs' => body x ;; for_each xs' body
  end.

(** [[f(x) for x in xs]] *)
Fixpoint map_M {A B} (f : A -> M B) (xs : list A) : M (list B) :=
  match xs with
  | [] => ret []
  | x :: xs' => do y <- f x; do ys <- map_M f xs'; ret (y :: ys)
  end.

(** A column of a row: a missing attribute reads as NULL. *)
Definition attr (a : fields) (k : string) : option pystr :=
  match a !! k with
  | Some v => v
  | None => None
  end.

Definition is_not_None {A} (o : option A) : bool :=
  match o with Some _ => true | None => false end.

(** [d[k]] *)
Definition getitem (d : fields) (k : string) : M (option pystr) :=
  match d !! k with
  | Some v => ret v
  | None => raise KeyError
  end.

(** [session.query(Agent).get(id)] *)
Definition has_id (n : nat) (a : AgentObj) : bool :=
  bool_decide (agent_id a = Some n).

Definition get_agent (n : nat) (st : Store) : option AgentObj :=
  find (has_id n) (agents st).

(** A write to the attributes or collections of the agent row [n]. *)
Definition update_agent (n : nat) (f : AgentObj -> AgentObj) : M unit :=
  modify_store (fun st =>
    set_agents (map (fun a => if has_id n a then f a else a) (agents st)) st).

Definition with_attrs (f : fields -> fields) (a : AgentObj) : AgentObj :=
  mkAgent (agent_id a) (f (agent_attrs a)) (agent_aliases a) (agent_links a)
          (agent_dates a).
Definition add_alias (x : pystr) (a : AgentObj) : AgentObj :=
  mkAgent (agent_id a) (agent_attrs a) (agent_aliases a ++ [x]) (agent_links a)
          (agent_dates a).
Definition add_agent_link (x : Link) (a : AgentObj) : AgentObj :=
  mkAgent (agent_id a) (agent_attrs a) (agent_aliases a) (agent_links a ++ [x])
          (agent_dates a).
Definition add_agent_date (x : DateField) (a : AgentObj) : AgentObj :=
  mkAgent (agent_id a) (agent_attrs a) (agent_aliases a) (agent_links a)
          (agent_dates a ++ [x]).

(** The scalar part of a payload once the child collections are popped:
    [aliases], [roles] and [dates] are [None] for a JSON null and a list
    otherwise (the empty list when the key is missing); [link] is a [dict],
    a [list], or anything else. *)
Inductive LinkArg : Type :=
  | LinkDict (l : LinkData)
  | LinkList (ls : list LinkData)
  | LinkOther.

Record AgentPayload : Type := mkAgentPayload {
  ap_fields : fields;
  ap_aliases : option (list pystr);
  ap_roles : option (list pystr);
  ap_link : LinkArg;
  ap_dates : option (list DateData)
}.

(** *** Agent.lookupAgent *)

(** The outcome of [Query.one()]. *)
Inductive OneResult (A : Type) : Type :=
  | NoResult
  | One (a : A)
  | Multiple.
Arguments NoResult {A}.
Arguments One {A} a.
Arguments Multiple {A}.

Definition one {A} (rows : list A) : OneResult A :=
  match rows with
  | [] => NoResult
  | [x] => One x
  | _ :: _ :: _ => Multiple
  end.

(** [or_(cls.viaf == agent['viaf'], cls.lcnaf == agent['lcnaf'])].  A
    comparison with [None] is rendered by the ORM as [IS NULL], so a column
    matches when it equals the payload value as an optional string. *)
Definition authority_match (viaf lcnaf : option pystr) (a : AgentObj) : bool :=
  bool_decide (attr (agent_attrs a) "viaf" = viaf)
  || bool_decide (attr (agent_attrs a) "lcnaf" = lcnaf).

Definition jw_threshold : Q := 95 # 100.

(** [jarowinkler(name, '<escapedName>') > 0.95]; the quoted literal with
    its quotes doubled denotes [agent['name']] itself, and a NULL name
    never satisfies the comparison. *)
Definition fuzzy_match (name : pystr) (a : AgentObj) : bool :=
  match attr (agent_attrs a) "name" with
  | Some stored => negb (Qle_bool (jarowinkler stored name) jw_threshold)
  | None => false
  end.

(** The authority step: [Some id] when it returns, [None] when it falls
    through. *)
Definition lookupByAuthority (viaf lcnaf : option pystr)
  : M (option (option nat)) :=
  if is_not_None viaf || is_not_None lcnaf then
    do st <- get_store;
    match one (List.filter (authority_match viaf lcnaf) (agents st)) with
    | One a => ret (Some (agent_id a))
    | Multiple =>
        modify_store (add_log LogMultipleAgents) ;; raise MultipleResultsFound
    | NoResult => ret None
    end
  else ret None.

(** The text of the query:
    ["jarowinkler({}, '{}') > {}".format('name', escapedName, 0.95)]. *)
Definition jaroWinklerQ (escapedName : pystr) : pystr :=
  str "jarowinkler(name, '" ++ escapedName ++ str "') > 0.95".

(** The name is pasted into the text that [sqlalchemy.text] reads: when the
    library takes a part of it for a bind parameter the query has no value
    for it and raises [StatementError], which no handler catches. *)
Definition lookupByName (agent : fields) : M (option nat) :=
  do name <- getitem agent "name";
  match name with
  | None => raise AttributeError
  | Some name =>
      let escapedName := escape_quotes name in
      if text_needs_value (jaroWinklerQ escapedName) then raise StatementError
      else
        do st <- get_store;
        match one (List.filter (fuzzy_match name) (agents st)) with
        | One a => ret (agent_id a)
        | Multiple => ret None
        | NoResult => ret None
        end
  end.

Definition lookupAgent (agent : fields) : M (option nat) :=
  do viaf <- getitem agent "viaf";
  do lcnaf <- getitem agent "lcnaf";
  do found <- lookupByAuthority viaf lcnaf;
  match found with
  | Some existingID => ret existingID
  | None => lookupByName agent
  end.

(** *** Alias.insertOrSkip *)

(** The rows of [aliases] joined with the agent [recordID] whose text is
    [alias]. *)
Definition alias_rows (alias : pystr) (recordID : option nat) (st : Store)
  : list pystr :=
  flat_map (fun a =>
      if bool_decide (agent_id a = recordID) && is_not_None recordID
      then List.filter (fun x => pystr_eqb x alias) (agent_aliases a)
      else [])
    (agents st).

(** Returns the new [Alias] ([Some], by its text) or [None] when the query
    found its row; [one()] raises when it found several. *)
Definition Alias_insertOrSkip (alias : pystr) (recordID : option nat)
  : M (option pystr) :=
  let alias := escape_quotes alias in
  do st <- get_store;
  match one (alias_rows alias recordID st) with
  | NoResult => ret (Some alias)
  | One _ => ret None
  | Multiple => raise MultipleResultsFound
  end.

(** *** Agent.update *)

(** [value is not None and value.strip() != ''] *)
Definition agent_value_ok (value : option pystr) : bool :=
  match value with
  | Some v => negb (pystr_eqb (py_strip v) [])
  | None => false
  end.

(** [for field, value in payload.items(): if ok(value): setattr(...)] *)
Definition setFields (ok : option pystr -> bool) (payload existing : fields)
  : fields :=
  map_fold (fun field value acc => if ok value then <[field := value]> acc else acc)
           existing payload.

Definition append_agent_link (existing : nat) (l : option Link) : M unit :=
  match l with
  | Some updateLink => update_agent existing (add_agent_link updateLink)
  | None => ret tt
  end.

Definition append_agent_date (existing : nat) (d : option DateField) : M unit :=
  match d with
  | Some updateDate => update_agent existing (add_agent_date updateDate)
  | None => ret tt
  end.

Definition Agent_update (existing : nat) (agent : fields)
    (aliases : option (list pystr)) (link : LinkArg) (dates : list DateData)
  : M AgentRef :=
  update_agent existing (with_attrs (setFields agent_value_ok agent)) ;;
  match aliases with
  | Some aliases =>
      do aliasRecs <- map_M (fun a => Alias_insertOrSkip a (Some existing)) aliases;
      for_each (omap id aliasRecs)
               (fun alias => update_agent existing (add_alias alias))
  | None => ret tt
  end ;;
  match link with
  | LinkDict link =>
      do updateLink <- call (Link_updateOrInsert link OwnerAgent (Some existing));
      append_agent_link existing updateLink
  | LinkList link =>
      for_each link (fun linkItem =>
        do updateLink <-
          call (Link_updateOrInsert linkItem OwnerAgent (Some existing));
        append_agent_link existing updateLink)
  | LinkOther => ret tt
  end ;;
  for_each dates (fun date =>
    do updateDate <-
      call (DateField_updateOrInsert date OwnerAgent (Some existing));
    append_agent_date existing updateDate) ;;
  ret (AgentId existing).

(** *** Agent.insert *)

(** [[f(x) for x in xs]] for a constructor that may raise. *)
Fixpoint map_result {A B} (f : A -> result B) (xs : list A) : result (list B) :=
  match xs with
  | [] => Ok []
  | x :: xs' =>
      match f x with
      | Ok y => match map_result f xs' with
                | Ok ys => Ok (y :: ys)
                | Raise e => Raise e
                end
      | Raise e => Raise e
      end
  end.

(** The constructor the declarative base gives a model, called with the
    payload as its keyword arguments: for each key, [TypeError] unless
    [hasattr(cls, key)], then [setattr]. *)
Definition Agent_declared : list string :=
  ["__tablename__"; "id"; "name"; "sort_name"; "lcnaf"; "viaf"; "biography";
   "aliases"; "links"; "__repr__"; "updateOrInsert"; "update"; "insert";
   "lookupAgent"; "_cleanName"].

Definition Instance_declared : list string :=
  ["__tablename__"; "id"; "title"; "sub_title"; "pub_place"; "edition";
   "edition_statement"; "volume"; "table_of_contents"; "copyright_date";
   "extent"; "work_id"; "work"; "items"; "agents"; "measurements";
   "identifiers"; "links"; "alt_titles"; "CHILD_FIELDS"; "__repr__";
   "_buildChildDict"; "updateOrInsert"; "lookupInstance"; "update"; "insert";
   "_addAgents"; "_addIdentifiers"; "_addLanguages"; "_addItems";
   "_addAltTitles"; "agent_instances"].

Definition hasattr (kind : OwnerKind) (k : string) : bool :=
  bool_decide (k ∈ match kind with
                   | OwnerAgent => Agent_declared
                   | OwnerInstance => Instance_declared
                   end)
  || inherited_attribute kind k.

Definition constructor_accepts (kind : OwnerKind) (data : fields) : bool :=
  forallb (fun kv => hasattr kind kv.1) (map_to_list data).

Definition Agent_insert (agentData : fields) (aliases : option (list pystr))
    (link : LinkArg) (dates : list DateData) : M AgentRef :=
  do _ <- getitem agentData "name";
  if negb (constructor_accepts OwnerAgent agentData) then raise TypeError
  else
  let attrs :=
    match attr agentData "sort_name" with
    | None => <["sort_name" := attr agentData "name"]> agentData
    | Some _ => agentData
    end in
  let aliases := match aliases with Some l => l | None => [] end in
  do links <- lift (match link with
                    | LinkList ls => map_result Link_new ls
                    | LinkDict l => map_result Link_new [l]
                    | LinkOther => Ok []
                    end);
  do dates <- lift (map_result DateField_insert dates);
  ret (NewAgent (mkAgent None attrs aliases links dates)).

(** *** Agent.updateOrInsert

    The second component of the result is the Python value [roles], which
    the caller tests against [None]. *)

(** [list(set([r.lower() for r in roles]))]: each role once, in the order
    of the set. *)
Definition dedupRoles (roles : list pystr) : list pystr :=
  set_order (map py_lower roles).

Definition Agent_updateOrInsert (agent : AgentPayload)
  : M (AgentRef * option (list pystr)) :=
  let aliases := ap_aliases agent in
  let roles := ap_roles agent in
  let link := ap_link agent in
  let dates := ap_dates agent in
  let agent := delete "death_date" (delete "birth_date" (ap_fields agent)) in
  let roles := match roles with Some r => r | None => [] end in
  let dates := match dates with Some d => d | None => [] end in
  do cleaned <- lift (_cleanName agent roles dates);
  let '(agent, roles, dates) := cleaned in
  let roles := dedupRoles roles in
  do name <- getitem agent "name";
  match name with
  | None => raise AttributeError
  | Some name =>
      if length (py_strip name) <? 1 then raise DataError
      else
        do existingAgentID <- lookupAgent agent;
        match existingAgentID with
        | Some existingAgentID =>
            do st <- get_store;
            match get_agent existingAgentID st with
            | Some _ =>
                do updated <- Agent_update existingAgentID agent aliases link dates;
                ret (updated, Some roles)
            | None => raise AttributeError
            end
        | None =>
            do newAgent <- Agent_insert agent aliases link dates;
            ret (newAgent, Some roles)
        end
  end.

End Agent.

Section Instance.
Context `{C : Collaborators}.

(** [language] is [None], one string, or a list of strings. *)
Inductive LangArg : Type :=
  | LangNone
  | LangStr (s : pystr)
  | LangList (l : list pystr).

(** An instance payload.  [ip_fields] holds the scalar keys, among them
    [volume], [series] and [series_position]; [ip_identifiers] is [None]
    when the key is missing; the other child collections are empty when
    their key is missing. *)
Record InstancePayload : Type := mkInstancePayload {
  ip_fields : fields;
  ip_subjects : list Subject;
  ip_formats : list ItemData;
  ip_agents : list AgentPayload;
  ip_identifiers : option (list IdenData);
  ip_measurements : list MeasData;
  ip_dates : list DateData;
  ip_links : list LinkData;
  ip_alt_titles : list pystr;
  ip_rights : list RightsData;
  ip_language : LangArg
}.

(** Writes to one instance object. *)
Definition inst_with_attrs (f : fields -> fields) (i : InstanceObj) :=
  mkInstance (inst_id i) (f (inst_attrs i)) (inst_work i)
    (inst_agent_instances i) (inst_identifiers i) (inst_language i)
    (inst_items i) (inst_alt_titles i) (inst_measurements i) (inst_dates i)
    (inst_links i) (inst_rights i).
Definition inst_set_work (w : option Work) (i : InstanceObj) :=
  mkInstance (inst_id i) (inst_attrs i) w
    (inst_agent_instances i) (inst_identifiers i) (inst_language i)
    (inst_items i) (inst_alt_titles i) (inst_measurements i) (inst_dates i)
    (inst_links i) (inst_rights i).
Definition inst_add_agent_role (x : AgentRef * pystr) (i : InstanceObj) :=
  mkInstance (inst_id i) (inst_attrs i) (inst_work i)
    (inst_agent_instances i ++ [x]) (inst_identifiers i) (inst_language i)
    (inst_items i) (inst_alt_titles i) (inst_measurements i) (inst_dates i)
    (inst_links i) (inst_rights i).
Definition inst_add_identifier (x : Identifier) (i : InstanceObj) :=
  mkInstance (inst_id i) (inst_attrs i) (inst_work i)
    (inst_agent_instances i) (inst_identifiers i ++ [x]) (inst_language i)
    (inst_items i) (inst_alt_titles i) (inst_measurements i) (inst_dates i)
    (inst_links i) (inst_rights i).
Definition inst_add_language (x : Language) (i : InstanceObj) :=
  mkInstance (inst_id i) (inst_attrs i) (inst_work i)
    (inst_agent_instances i) (inst_identifiers i) (inst_language i ++ [x])
    (inst_items i) (inst_alt_titles i) (inst_measurements i) (inst_dates i)
    (inst_links i) (inst_rights i).
Definition inst_add_item (x : Item) (i : InstanceObj) :=
  mkInstance (inst_id i) (inst_attrs i) (inst_work i)
    (inst_agent_instances i) (inst_identifiers i) (inst_language i)
    (inst_items i ++ [x]) (inst_alt_titles i) (inst_measurements i)
    (inst_dates i) (inst_links i) (inst_rights i).
Definition inst_add_alt_title (x : pystr) (i : InstanceObj) :=
  mkInstance (inst_id i) (inst_attrs i) (inst_work i)
    (inst_agent_instances i) (inst_identifiers i) (inst_language i)
    (inst_items i) (inst_alt_titles i ++ [x]) (inst_measurements i)
    (inst_dates i) (inst_links i) (inst_rights i).
Definition inst_add_measurement (x : Measurement) (i : InstanceObj) :=
  mkInstance (inst_id i) (inst_attrs i) (inst_work i)
    (inst_agent_instances i) (inst_identifiers i) (inst_language i)
    (inst_items i) (inst_alt_titles i) (inst_measurements i ++ [x])
    (inst_dates i) (inst_links i) (inst_rights i).
Definition inst_add_date (x : DateField) (i : InstanceObj) :=
  mkInstance (inst_id i) (inst_attrs i) (inst_work i)
    (inst_agent_instances i) (inst_identifiers i) (inst_language i)
    (inst_items i) (inst_alt_titles i) (inst_measurements i)
    (inst_dates i ++ [x]) (inst_links i) (inst_rights i).
Definition inst_add_link (x : Link) (i : InstanceObj) :=
  mkInstance (inst_id i) (inst_attrs i) (inst_work i)
    (inst_agent_instances i) (inst_identifiers i) (inst_language i)
    (inst_items i) (inst_alt_titles i) (inst_measurements i) (inst_dates i)
    (inst_links i ++ [x]) (inst_rights i).
Definition inst_add_right (x : Rights) (i : InstanceObj) :=
  mkInstance (inst_id i) (inst_attrs i) (inst_work i)
    (inst_agent_instances i) (inst_identifiers i) (inst_language i)
    (inst_items i) (inst_alt_titles i) (inst_measurements i) (inst_dates i)
    (inst_links i) (inst_rights i ++ [x]).
Definition inst_set_lists (ms : list Measurement) (ls : list Link)
    (ds : list DateField) (rs : list Rights) (i : InstanceObj) :=
  mkInstance (inst_id i) (inst_attrs i) (inst_work i)
    (inst_agent_instances i) (inst_identifiers i) (inst_language i)
    (inst_items i) (inst_alt_titles i) ms ds ls rs.

Definition inst_has_id (n : nat) (i : InstanceObj) : bool :=
  bool_decide (inst_id i = Some n).

(** [session.query(Instance).get(id)] *)
Definition get_instance (n : nat) (st : Store) : option InstanceObj :=
  find (inst_has_id n) (instances st).

(** The object behind a reference, and its primary key. *)
Definition deref (r : InstRef) : M InstanceObj :=
  match r with
  | InstId n =>
      do st <- get_store;
      match get_instance n st with
      | Some i => ret i
      | None => raise AttributeError
      end
  | NewInst i => ret i
  end.

Definition ref_id (r : InstRef) : option nat :=
  match r with
  | InstId n => Some n
  | NewInst i => inst_id i
  end.

(** A write to an instance: on the row when it is one, on the object
    otherwise. *)
Definition modify_inst (r : InstRef) (f : InstanceObj -> InstanceObj)
  : M InstRef :=
  match r with
  | InstId n =>
      modify_store (fun st =>
        set_instances
          (map (fun i => if inst_has_id n i then f i else i) (instances st)) st) ;;
      ret r
  | NewInst i => ret (NewInst (f i))
  end.

(** [for x in xs: instance = body(instance, x)] *)
Fixpoint fold_M {A S} (body : S -> A -> M S) (s : S) (xs : list A) : M S :=
  match xs with
  | [] => ret s
  | x :: xs' => do s' <- body s x; fold_M body s' xs'
  end.

(** *** AgentInstances.roleExists *)

Definition agent_ref_id (a : AgentRef) : option nat :=
  match a with
  | AgentId n => Some n
  | NewAgent o => agent_id o
  end.

(** [Query.one_or_none()] *)
Definition one_or_none {A} (rows : list A) : M (option A) :=
  match rows with
  | [] => ret None
  | [x] => ret (Some x)
  | _ :: _ :: _ => raise MultipleResultsFound
  end.

(** The rows of [agent_instances] with the given agent, instance and role;
    a comparison of a primary-key column with [None] selects nothing. *)
Definition role_rows (agent_id : option nat) (role : pystr)
    (recordID : option nat) (st : Store) : list (AgentRef * pystr) :=
  flat_map (fun i =>
      if bool_decide (inst_id i = recordID) && is_not_None recordID
      then List.filter (fun row =>
               bool_decide (agent_ref_id row.1 = agent_id)
               && is_not_None agent_id && pystr_eqb row.2 role)
             (inst_agent_instances i)
      else [])
    (instances st).

Definition roleExists (agent : AgentRef) (role : pystr) (recordID : option nat)
  : M (option (AgentRef * pystr)) :=
  do st <- get_store;
  one_or_none (role_rows (agent_ref_id agent) role recordID st).

(** *** The constructor [AgentInstances(agent=, instance=, role=)]

    The new row joins the [agent_instances] collection of its instance.
    When the instance is a row of the session, the new row and its agent
    are written with it: an agent that was not yet a row receives the next
    primary key. *)
Definition persist_agent (a : AgentRef) : M AgentRef :=
  match a with
  | AgentId _ => ret a
  | NewAgent o =>
      do st <- get_store;
      let n := next_id st in
      let row := mkAgent (Some n) (agent_attrs o) (agent_aliases o)
                         (agent_links o) (agent_dates o) in
      modify_store (fun st =>
        mkStore (agents st ++ [row]) (instances st) (ext st) (S n) (log st)
                (work_calls st)) ;;
      ret (AgentId n)
  end.

Definition new_AgentInstances (agent : AgentRef) (instance : InstRef)
    (role : pystr) : M (AgentRef * InstRef) :=
  match instance with
  | InstId _ =>
      do agent' <- persist_agent agent;
      do instance' <- modify_inst instance (inst_add_agent_role (agent', role));
      ret (agent', instance')
  | NewInst _ =>
      do instance' <- modify_inst instance (inst_add_agent_role (agent, role));
      ret (agent, instance')
  end.

(** *** Instance._addAgents *)

(** [agent['name']] as the handler of [DataError] reads it: the payload was
    already cleaned in place. *)
Definition cleanedName (agent : AgentPayload) : option pystr :=
  match _cleanName (delete "death_date" (delete "birth_date" (ap_fields agent)))
                   [] [] with
  | Ok (a, _, _) => attr a "name"
  | Raise _ => None
  end.

Definition addAgentRole (acc : AgentRef * InstRef) (role : pystr)
  : M (AgentRef * InstRef) :=
  let '(agentRec, instance) := acc in
  do found <- roleExists agentRec role (ref_id instance);
  match found with
  | None => new_AgentInstances agentRec instance role
  | Some _ => ret acc
  end.

Definition addAgent (instance : InstRef) (agent : AgentPayload) : M InstRef :=
  except_DataError
    (do res <- Agent_updateOrInsert agent;
     let '(agentRec, roles) := res in
     let roles := match roles with
                  | None => [str "author"]
                  | Some roles => roles
                  end in
     do out <- fold_M addAgentRole (agentRec, instance) roles;
     ret out.2)
    (modify_store (add_log (LogUnableToReadAgent (cleanedName agent))) ;;
     ret instance).

Definition _addAgents (instance : InstRef) (agents : list AgentPayload)
  : M InstRef :=
  fold_M addAgent instance agents.

(** *** The other child collections *)

Definition addIdentifier (instance : InstRef) (iden : IdenData) : M InstRef :=
  except_DataError
    (do res <- call (Identifier_returnOrInsert iden);
     let '(status, idenRec) := res in
     if pystr_eqb status (str "new")
     then modify_inst instance (inst_add_identifier idenRec)
     else
       do rel <- call (Identifier_getIdentiferRelationship
                         idenRec OwnerInstance (ref_id instance));
       if rel then ret instance
       else modify_inst instance (inst_add_identifier idenRec))
    (modify_store (add_log LogInvalidIdentifier) ;; ret instance).

Definition _addIdentifiers (instance : InstRef) (identifiers : list IdenData)
  : M InstRef :=
  fold_M addIdentifier instance identifiers.

Definition addLanguage (instance : InstRef) (lang : pystr) : M InstRef :=
  except_DataError
    (do newLang <- call (Language_updateOrInsert lang);
     do langRel <- call (Language_lookupRelLang newLang OwnerInstance instance);
     if langRel then ret instance
     else modify_inst instance (inst_add_language newLang))
    (modify_store (add_log (LogUnableToParseLanguage lang)) ;; ret instance).

Definition _addLanguages (instance : InstRef) (languages : LangArg)
  : M InstRef :=
  match languages with
  | LangNone => ret instance
  | LangStr s => fold_M addLanguage instance [s]
  | LangList l => fold_M addLanguage instance l
  end.

Definition addItem (instance : InstRef) (item : ItemData) : M InstRef :=
  do res <- call (Item_updateOrInsert item);
  let '(itemRec, op) := res in
  if pystr_eqb op (str "inserted")
  then modify_inst instance (inst_add_item itemRec)
  else ret instance.

Definition _addItems (instance : InstRef) (items : list ItemData) : M InstRef :=
  fold_M addItem instance items.

(** [list(filter(lambda x: AltTitle.insertOrSkip(...), altTitles))] runs
    every query before the first title is appended. *)
Fixpoint filter_M {A} (p : A -> M bool) (xs : list A) : M (list A) :=
  match xs with
  | [] => ret []
  | x :: xs' =>
      do b <- p x;
      do rest <- filter_M p xs';
      ret (if b then x :: rest else rest)
  end.

Definition _addAltTitles (instance : InstRef) (altTitles : list pystr)
  : M InstRef :=
  do kept <- filter_M (fun x =>
               call (AltTitle_insertOrSkip x OwnerInstance (ref_id instance)))
             altTitles;
  fold_M (fun i altTitle => modify_inst i (inst_add_alt_title altTitle))
         instance kept.

(** *** Instance.lookupInstance *)

(** [session.query(Instance.volume).filter(Instance.id == existingID)] *)
Definition volume_rows (existingID : nat) (st : Store) : list (option pystr) :=
  map (fun i => attr (inst_attrs i) "volume")
      (List.filter (inst_has_id existingID) (instances st)).

Definition lookupInstance (identifiers : list IdenData) (volume : option pystr)
  : M (option nat) :=
  do existingID <- call (Identifier_getByIdentifier OwnerInstance identifiers);
  match existingID, volume with
  | Some existingID', Some _ =>
      do st <- get_store;
      do existingVol <- one_or_none (volume_rows existingID' st);
      match existingVol with
      | None => raise TypeError
      | Some stored =>
          if bool_decide (stored = volume) then ret existingID else ret None
      end
  | _, _ => ret existingID
  end.

(** *** Instance.update *)

(** [value is not None] *)
Definition instance_value_ok (value : option pystr) : bool := is_not_None value.

(** The scalar keys left once [series] and [series_position] are popped. *)
Definition scalar_fields (instance : InstancePayload) : fields :=
  delete "series_position" (delete "series" (ip_fields instance)).

Definition delegateToWork (work : Work) (instance : InstancePayload) : M unit :=
  let series := attr (ip_fields instance) "series" in
  let seriesPos := attr (ip_fields instance) "series_position" in
  modify_store (add_work_call (CallUpdateFields work series seriesPos)) ;;
  call (Work_updateFields work series seriesPos) ;;
  modify_store (add_work_call (CallImportSubjects work (ip_subjects instance))) ;;
  call (Work_importSubjects work (ip_subjects instance)).

Definition addMeasurement (existing : InstRef) (measurement : MeasData)
  : M InstRef :=
  do res <- call (Measurement_updateOrInsert measurement OwnerInstance
                    (ref_id existing));
  let '(op, measurementRec) := res in
  if pystr_eqb op (str "insert")
  then modify_inst existing (inst_add_measurement measurementRec)
  else ret existing.

Definition addDate (existing : InstRef) (date : DateData) : M InstRef :=
  do updateDate <- call (DateField_updateOrInsert date OwnerInstance
                           (ref_id existing));
  match updateDate with
  | Some d => modify_inst existing (inst_add_date d)
  | None => ret existing
  end.

Definition addLink (existing : InstRef) (link : LinkData) : M InstRef :=
  do updateLink <- call (Link_updateOrInsert link OwnerInstance
                           (ref_id existing));
  match updateLink with
  | Some l => modify_inst existing (inst_add_link l)
  | None => ret existing
  end.

Definition addRights (existing : InstRef) (rightsStmt : RightsData)
  : M InstRef :=
  do updateRights <- call (Rights_updateOrInsert rightsStmt OwnerInstance
                             (ref_id existing));
  match updateRights with
  | Some r => modify_inst existing (inst_add_right r)
  | None => ret existing
  end.

Definition identifiers_or_empty (instance : InstancePayload) : list IdenData :=
  match ip_identifiers instance with
  | Some l => l
  | None => []
  end.

Definition Instance_update (existing : InstRef) (instance : InstancePayload)
  : M InstRef :=
  do obj <- deref existing;
  match inst_work obj with
  | Some work => delegateToWork work instance
  | None => ret tt
  end ;;
  do existing <- modify_inst existing
    (inst_with_attrs (setFields instance_value_ok (scalar_fields instance)));
  do existing <- _addAgents existing (ip_agents instance);
  do existing <- _addIdentifiers existing (identifiers_or_empty instance);
  do existing <- _addLanguages existing (ip_language instance);
  do existing <- _addItems existing (ip_formats instance);
  do existing <- _addAltTitles existing (ip_alt_titles instance);
  do existing <- fold_M addMeasurement existing (ip_measurements instance);
  do existing <- fold_M addDate existing (ip_dates instance);
  do existing <- fold_M addLink existing (ip_links instance);
  fold_M addRights existing (ip_rights instance).

(** *** Instance.insert *)

Definition Instance_insert (instanceData : InstancePayload) : M InstRef :=
  if negb (constructor_accepts OwnerInstance (scalar_fields instanceData))
  then raise TypeError
  else
  let instance :=
    NewInst (mkInstance None (scalar_fields instanceData) None
                        [] [] [] [] [] [] [] [] []) in
  do instance <- _addAgents instance (ip_agents instanceData);
  do instance <- _addIdentifiers instance (identifiers_or_empty instanceData);
  do instance <- _addAltTitles instance (ip_alt_titles instanceData);
  do ms <- lift (map_result Measurement_insert (ip_measurements instanceData));
  do ls <- lift (map_result Link_new (ip_links instanceData));
  do ds <- lift (map_result DateField_insert (ip_dates instanceData));
  do rs <- lift (map_result Rights_insert (ip_rights instanceData));
  do instance <- modify_inst instance (inst_set_lists ms ls ds rs);
  do instance <- _addLanguages instance (ip_language instanceData);
  _addItems instance (ip_formats instanceData).

(** *** Instance.updateOrInsert *)

Inductive Operation : Type := updated | inserted.

Definition Instance_updateOrInsert (instance : InstancePayload)
    (work : option Work) : M (InstRef * Operation) :=
  match ip_identifiers instance with
  | None => raise KeyError
  | Some identifiers =>
      do existingID <- lookupInstance identifiers
                         (attr (ip_fields instance) "volume");
      match existingID with
      | Some existingID =>
          let existing := InstId existingID in
          do obj <- deref existing;
          match inst_work obj, work with
          | None, Some _ => modify_inst existing (inst_set_work work)
          | _, _ => ret existing
          end ;;
          do existing <- Instance_update existing instance;
          ret (existing, updated)
      | None =>
          do newInstance <- Instance_insert instance;
          ret (newInstance, inserted)
      end
  end.

End Instance.

(** ** A session without child collaborators

    The collaborators used for the scenarios: their tables are empty, the
    similarity of two names is 1 when they are equal and 0 otherwise, a
    resolve-or-insert reports nothing new to link, and the identifier
    lookup finds the instance 1 for any identifier. *)

Definition unit_types : ExtTypes := {|
  Ext := unit;
  Link := unit;        LinkData := unit;
  DateField := DateData;
  Identifier := unit;  IdenData := unit;
  Measurement := unit; MeasData := unit;
  Rights := unit;      RightsData := unit;
  Language := unit;
  Item := unit;        ItemData := unit;
  Work := nat;         Subject := pystr
|}.

Section Scenario.
#[local] Existing Instance unit_types.

Definition quiet {A} (a : A) : Query A := fun _ => (tt, Ok a).

(** A character of a word: an ASCII letter, a digit or the underscore. *)
Definition is_word_char (c : ascii) : bool :=
  let n := nat_of_ascii c in
  ((97 <=? n) && (n <=? 122)) || ((65 <=? n) && (n <=? 90))
  || ((48 <=? n) && (n <=? 57)) || (n =? 95).

(** A bind parameter in a text: a colon before a word, other than directly
    after a colon, a word character or a backslash; a word of one
    character directly before a colon does not count.  [free] tells
    whether a colon may open a parameter here. *)
Fixpoint bind_parameter_from (free : bool) (s : pystr) : bool :=
  match s with
  | [] => false
  | c :: t =>
      (free && Ascii.eqb c ":"
       && match take_while is_word_char t, lstrip_by is_word_char t with
          | [], _ => false
          | [_], c' :: _ => negb (Ascii.eqb c' ":")
          | _, _ => true
          end)
      || bind_parameter_from
           (negb (is_word_char c || Ascii.eqb c ":" || Ascii.eqb c "\")) t
  end.

Definition exact_names : @Collaborators unit_types := {|
  jarowinkler := fun a b => if pystr_eqb a b then 1%Q else 0%Q;
  text_needs_value := bind_parameter_from true;
  set_order := remove_dups;
  set_order_perm := fun xs => Permutation_refl (remove_dups xs);
  inherited_attribute := fun _ k =>
    bool_decide (k ∈ ["date_created"; "date_modified"]);
  Link_new := fun _ => Ok tt;
  Link_updateOrInsert := fun _ _ _ => quiet None;
  DateField_insert := fun d => Ok d;
  DateField_updateOrInsert := fun _ _ _ => quiet None;
  Identifier_getByIdentifier := fun _ identifiers =>
    quiet (match identifiers with [] => None | _ :: _ => Some 1 end);
  Identifier_returnOrInsert := fun _ => quiet (str "existing", tt);
  Identifier_getIdentiferRelationship := fun _ _ _ => quiet true;
  Language_updateOrInsert := fun _ => quiet tt;
  Language_lookupRelLang := fun _ _ _ => quiet true;
  Item_updateOrInsert := fun _ => quiet (tt, str "existing");
  AltTitle_insertOrSkip := fun _ _ _ => quiet false;
  Measurement_insert := fun _ => Ok tt;
  Measurement_updateOrInsert := fun _ _ _ => quiet (str "update", tt);
  Rights_insert := fun _ => Ok tt;
  Rights_updateOrInsert := fun _ _ _ => quiet None;
  Work_updateFields := fun _ _ _ => quiet tt;
  Work_importSubjects := fun _ _ => quiet tt
|}.

End Scenario.

(** ** The stream-facing updaters *)

Module Updater.
Section Updater.

(** The payload of an event, the persisted record, and the lookup of the
    target record ([Item.lookup], [Work.lookupWork]). *)
Variables (Data Record_ : Type) (lookup : Data -> option Record_).

(** An inbound event: [{data: ..., attempts: n}], [attempts] being 0 when
    the key is missing. *)
Record Event : Type := mkEvent {
  data : Data;
  attempts : nat
}.

Inductive State : Type :=
  | INITIALIZED
  | LOOKED_UP (target : Record_)
  | UPDATED
  | REQUEUED
  | FAILED.

(** The fixed retry ceiling. *)
Definition MAX_RETRIES : nat := 3.

(** Modelled from the spec: [lib/updaters/itemUpdater.py] and
    [lib/updaters/workUpdater.py], which define [lookupRecord], are not
    among the sources; only their tests are.  The result is the state
    reached and the events published on the retry stream; [FAILED] is the
    unrecoverable lookup error. *)
Definition lookupRecord (ev : Event) : State * list Event :=
  match lookup (data ev) with
  | Some target => (LOOKED_UP target, [])
  | None =>
      if attempts ev <? MAX_RETRIES
      then (REQUEUED, [mkEvent (data ev) (attempts ev + 1)])
      else (FAILED, [])
  end.

End Updater.

Arguments mkEvent {Data} data attempts.
Arguments data {Data} e.
Arguments attempts {Data} e.
Arguments LOOKED_UP {Record_} target.
Arguments INITIALIZED {Record_}.
Arguments UPDATED {Record_}.
Arguments REQUEUED {Record_}.
Arguments FAILED {Record_}.
Arguments lookupRecord {Data Record_} lookup ev.

End Updater.

(** ** Scenario data *)

Section ScenarioData.
#[local] Existing Instance unit_types.
#[local] Existing Instance exact_names.

Definition no_children (fs : fields) : InstancePayload :=
  mkInstancePayload fs [] [] [] (Some []) [] [] [] [] [] LangNone.

Definition with_agents (agents : list AgentPayload) : InstancePayload :=
  mkInstancePayload ∅ [] [] agents (Some []) [] [] [] [] [] LangNone.

(** The instance 1, titled "Old", volume "1", without a parent work. *)
Definition instance_one : InstanceObj :=
  mkInstance (Some 1)
    {[ "title" := Some (str "Old"); "volume" := Some (str "1") ]}
    None [] [] [] [] [] [] [] [] [].

(** A session that holds the instance 1 and no agent. *)
Definition session0 : Store := mkStore [] [instance_one] tt 10 [] [].

(** The instance 2, part of the work 5. *)
Definition instance_two : InstanceObj :=
  mkInstance (Some 2) {[ "title" := Some (str "Second") ]}
    (Some 5) [] [] [] [] [] [] [] [] [].

Definition session_work : Store :=
  mkStore [] [instance_one; instance_two] tt 10 [] [].

(** John Smith, under the VIAF identifier "v1". *)
Definition john_smith (roles aliases : list pystr) : AgentPayload :=
  mkAgentPayload
    {[ "name" := Some (str "Smith, John"); "viaf" := Some (str "v1");
       "lcnaf" := None ]}
    (Some aliases) (Some roles) LinkOther (Some []).

(** A stored agent 7 named "Smith, John" under other identifiers. *)
Definition other_smith : AgentObj :=
  mkAgent (Some 7)
    {[ "name" := Some (str "Smith, John"); "sort_name" := Some (str "Smith, John");
       "viaf" := Some (str "v2"); "lcnaf" := Some (str "n2");
       "birth_date" := Some (str "1900") ]}
    [] [] [].

Definition session_smith : Store := mkStore [other_smith] [instance_one] tt 10 [] [].

(** The aliases of every agent row, and the agent-role rows of every
    instance row, by primary keys. *)
Definition all_aliases (st : Store) : list (option nat * list pystr) :=
  map (fun a => (agent_id a, agent_aliases a)) (agents st).

Definition all_agent_roles (st : Store)
  : list (option nat * list (option nat * pystr)) :=
  map (fun i => (inst_id i,
                 map (fun row => (agent_ref_id row.1, row.2))
                     (inst_agent_instances i)))
      (instances st).

Definition title_of (n : nat) (st : Store) : option (option pystr) :=
  option_map (fun i => attr (inst_attrs i) "title") (get_instance n st).

(** A stored agent 7, Jane Doe, with the VIAF identifier "v1" and no LCNAF
    identifier. *)
Definition jane_doe : AgentObj :=
  mkAgent (Some 7)
    {[ "name" := Some (str "Doe, Jane"); "sort_name" := Some (str "Doe, Jane");
       "viaf" := Some (str "v1"); "lcnaf" := None ]}
    [] [] [].

Definition session_doe : Store := mkStore [jane_doe] [instance_one] tt 10 [] [].

(** John Smith under the VIAF identifier "v9", without LCNAF identifier. *)
Definition smith_v9 : AgentPayload :=
  mkAgentPayload
    {[ "name" := Some (str "Smith, John"); "viaf" := Some (str "v9");
       "lcnaf" := None ]}
    (Some []) (Some []) LinkOther (Some []).

(** An agent whose name is nothing but brackets and punctuation. *)
Definition nameless : AgentPayload :=
  mkAgentPayload
    {[ "name" := Some (str "[.]"); "viaf" := None; "lcnaf" := None ]}
    (Some []) (Some []) LinkOther (Some []).

(** John Smith under the identifier of the stored agent 7, with a top-level
    birth date. *)
Definition smith_born_1850 : AgentPayload :=
  mkAgentPayload
    {[ "name" := Some (str "Smith, John"); "viaf" := Some (str "v2");
       "lcnaf" := None; "birth_date" := Some (str "1850") ]}
    (Some []) (Some []) LinkOther (Some []).


(** The agents 7 and 8 share the VIAF identifier "v1". *)
Definition twin (n : nat) : AgentObj :=
  mkAgent (Some n)
    {[ "name" := Some (str "Smith, John"); "viaf" := Some (str "v1") ]}
    [] [] [].

Definition session_twins : Store :=
  mkStore [twin 7; twin 8] [instance_one] tt 10 [] [].

(** The instance 1 with the agent 7 as its author. *)
Definition session_author : Store :=
  mkStore [other_smith]
    [mkInstance (Some 1) {[ "title" := Some (str "Old") ]} None
       [(AgentId 7, str "author")] [] [] [] [] [] [] [] []]
    tt 10 [] [].

End ScenarioData.

(** ** Vocabulary of the properties *)

Section Vocabulary.
Context `{C : Collaborators}.

(** The single quote. *)
Definition quote : ascii := "'"%char.

(** What the quote doubling makes of one character. *)
Definition double_quote (c : ascii) : pystr :=
  if Ascii.eqb quote c then [quote; quote] else [c].

(** Whether the lifespan expression matches at the head of [s]: it only
    depends on the first five characters. *)
Definition life_head (s : pystr) : bool :=
  match s with
  | d1 :: d2 :: d3 :: d4 :: h :: _ =>
      forallb is_digit [d1; d2; d3; d4] && Ascii.eqb h "-"
  | _ => false
  end.

(** A span that begins with four digits and a hyphen starts only where the
    lifespan expression matches. *)
Definition lifespan_like (span : pystr) : Prop :=
  forall s, starts_with span s = true -> life_head s = true.

(** The characters of [strip('[]')]. *)
Definition brackets : ascii -> bool := in_chars (str "[]").

(** [YYYY]: four ASCII digits. *)
Definition is_year (y : pystr) : Prop :=
  length y = 4 /\ forallb is_digit y = true.

(** [YYYY-YYYY] or [YYYY-] *)
Definition lifespan_text (birth : pystr) (death : option pystr) : pystr :=
  birth ++ str "-" ++ match death with Some d => d | None => [] end.

(** The raw name [<Name> [YYYY-YYYY]] or [<Name> [YYYY-]]. *)
Definition with_lifespan (name birth : pystr) (death : option pystr) : pystr :=
  name ++ str " [" ++ lifespan_text birth death ++ str "]".

(** The second year, when there is one, is a year. *)
Definition death_ok (death : option pystr) : Prop :=
  match death with Some d => is_year d | None => True end.

(** The date records of a lifespan: the birth date, then the death date
    when there is one. *)
Definition lifespan_dates (birth : pystr) (death : option pystr)
  : list DateData :=
  birth_date_rec birth ::
  match death with Some d => [death_date_rec d] | None => [] end.

(** The payload without its top-level [birth_date] and [death_date]. *)
Definition without_lifespan_keys (agent : AgentPayload) : AgentPayload :=
  mkAgentPayload (delete "death_date" (delete "birth_date" (ap_fields agent)))
                 (ap_aliases agent) (ap_roles agent) (ap_link agent)
                 (ap_dates agent).

(** One of the two keys [updateOrInsert] pops and drops. *)
Definition lifespan_key (k : string) : Prop :=
  k = "birth_date" \/ k = "death_date".

(** The name [_cleanName] leaves in the payload. *)
Definition cleaned_text (name : pystr) : pystr :=
  py_strip_chars name_punct
    (parseRoles (parseLifespan (unwrapName name) []).1 []).1.

(** The field map [updateOrInsert] works on. *)
Definition popped (agent : AgentPayload) : fields :=
  delete "death_date" (delete "birth_date" (ap_fields agent)).

(** The name as the payload gives it. *)
Definition raw_name (agent : AgentPayload) : option (option pystr) :=
  popped agent !! "name".

(** [len(agent['name'].strip()) < 1] on the cleaned name. *)
Definition name_is_blank (agent : AgentPayload) : bool :=
  match cleanedName agent with
  | Some name => length (py_strip name) <? 1
  | None => false
  end.

(** A property of the session is framed when it survives what the
    reconciliation of children does to the session: a call of a
    collaborator, a record in the log, a write to the agents, and a write
    [f] to an instance for the writes [f] that are [good]; appending to a
    collection of an instance and storing its child lists are good. *)
Class Framed `{C : Collaborators} (P : Store -> Prop)
    (good : (InstanceObj -> InstanceObj) -> Prop) : Prop := {
  framed_ext : forall st e, P st -> P (set_ext e st);
  framed_log : forall st r, P st -> P (add_log r st);
  framed_agents : forall st l n,
    P st ->
    P (mkStore l (instances st) (ext st) n (log st) (work_calls st));
  framed_inst : forall st m f,
    good f -> P st ->
    P (set_instances
         (map (fun i => if inst_has_id m i then f i else i) (instances st)) st);
  good_agent_role : forall x, good (inst_add_agent_role x);
  good_identifier : forall x, good (inst_add_identifier x);
  good_language : forall x, good (inst_add_language x);
  good_item : forall x, good (inst_add_item x);
  good_alt_title : forall x, good (inst_add_alt_title x);
  good_measurement : forall x, good (inst_add_measurement x);
  good_date : forall x, good (inst_add_date x);
  good_link : forall x, good (inst_add_link x);
  good_right : forall x, good (inst_add_right x);
  good_lists : forall ms ls ds rs, good (inst_set_lists ms ls ds rs)
}.

(** The part of [Instance.update] that reconciles the children. *)
Definition reconcileChildren (existing : InstRef) (instance : InstancePayload)
  : M InstRef :=
  do existing <- _addAgents existing (ip_agents instance);
  do existing <- _addIdentifiers existing (identifiers_or_empty instance);
  do existing <- _addLanguages existing (ip_language instance);
  do existing <- _addItems existing (ip_formats instance);
  do existing <- _addAltTitles existing (ip_alt_titles instance);
  do existing <- fold_M addMeasurement existing (ip_measurements instance);
  do existing <- fold_M addDate existing (ip_dates instance);
  do existing <- fold_M addLink existing (ip_links instance);
  fold_M addRights existing (ip_rights instance).

(** The two calls the update of an instance makes on its parent work. *)
Definition delegated_calls (w : Work) (instance : InstancePayload)
  : list WorkCall :=
  [CallUpdateFields w (attr (ip_fields instance) "series")
                      (attr (ip_fields instance) "series_position");
   CallImportSubjects w (ip_subjects instance)].

(** The attributes of the instance row [n] are [x]. *)
Definition inst_attrs_are (n : nat) (x : option fields) (st : Store) : Prop :=
  option_map inst_attrs (get_instance n st) = x.

(** A write to an instance that keeps its primary key and attributes. *)
Definition keeps_attrs (f : InstanceObj -> InstanceObj) : Prop :=
  forall i, inst_id (f i) = inst_id i /\ inst_attrs (f i) = inst_attrs i.

(** The calls of the delegation step of [Instance.update]. *)
Definition delegation (obj : InstanceObj) (instance : InstancePayload)
  : list WorkCall :=
  match inst_work obj with
  | Some w => delegated_calls w instance
  | None => []
  end.

(** The first character of what [strip] returns. *)
Definition first_char (s : pystr) : option ascii := head s.

(** The last character of what [strip] returns. *)
Definition last_char (s : pystr) : option ascii := head (rev s).

(** No end of [s] is a character of the class [p]. *)
Definition ends_outside (p : ascii -> bool) (s : pystr) : Prop :=
  match first_char s with Some c => p c = false | None => True end
  /\ match last_char s with Some c => p c = false | None => True end.

(** The dates [parseLifespan] appends are the birth date, or the birth date
    and the death date, of four digits each. *)
Definition parsed_dates (new : list DateData) : Prop :=
  new = []
  \/ (exists b, is_year b /\ new = [birth_date_rec b])
  \/ (exists b d, is_year b /\ is_year d
                  /\ new = [birth_date_rec b; death_date_rec d]).

(** The payload roles, [None] read as the empty list. *)
Definition payload_roles (agent : AgentPayload) : list pystr :=
  match ap_roles agent with Some r => r | None => [] end.

(** The payload dates, [None] read as the empty list. *)
Definition payload_dates (agent : AgentPayload) : list DateData :=
  match ap_dates agent with Some d => d | None => [] end.

(** The cleaned scalar part that is matched and merged. *)
Definition cleaned_fields (agent : AgentPayload) (name : pystr) : fields :=
  <["sort_name" := Some (cleaned_text name)]>
    (<["name" := Some (cleaned_text name)]> (popped agent)).

(** Whenever [m] returns, what it returns satisfies [Q]. *)
Definition returns {A} (Q : A -> Prop) (m : M A) : Prop :=
  forall st st' a, m st = (st', Ok a) -> Q a.

(** [r'] refers to the same instance as [r]: the same row, or an object
    with the primary key, the attributes and the parent work of [r]. *)
Definition same_instance (r r' : InstRef) : Prop :=
  match r, r' with
  | InstId n, InstId m => n = m
  | NewInst i, NewInst i' =>
      inst_id i' = inst_id i /\ inst_attrs i' = inst_attrs i
      /\ inst_work i' = inst_work i
  | _, _ => False
  end.

(** A write to an instance that keeps its key, attributes and work. *)
Definition keeps_identity (f : InstanceObj -> InstanceObj) : Prop :=
  forall i, inst_id (f i) = inst_id i /\ inst_attrs (f i) = inst_attrs i
            /\ inst_work (f i) = inst_work i.

(** The object [Instance.insert] starts from. *)
Definition fresh_instance (instanceData : InstancePayload) : InstanceObj :=
  mkInstance None (scalar_fields instanceData) None [] [] [] [] [] [] [] [] [].

(** The writes [Agent.update] makes to an agent row. *)
Inductive agent_write : (AgentObj -> AgentObj) -> Prop :=
  | write_attrs g : agent_write (with_attrs g)
  | write_alias x : agent_write (add_alias x)
  | write_agent_link x : agent_write (add_agent_link x)
  | write_agent_date x : agent_write (add_agent_date x).

(** The writes to an instance row other than a new agent-role row. *)
Inductive inst_write : (InstanceObj -> InstanceObj) -> Prop :=
  | write_inst_attrs g : inst_write (inst_with_attrs g)
  | write_identifier x : inst_write (inst_add_identifier x)
  | write_language x : inst_write (inst_add_language x)
  | write_item x : inst_write (inst_add_item x)
  | write_alt_title x : inst_write (inst_add_alt_title x)
  | write_measurement x : inst_write (inst_add_measurement x)
  | write_date x : inst_write (inst_add_date x)
  | write_link x : inst_write (inst_add_link x)
  | write_right x : inst_write (inst_add_right x).

(** The session after [f] was applied to the agent rows [n]. *)
Definition write_agent (n : nat) (f : AgentObj -> AgentObj) (st : Store)
  : Store :=
  set_agents (map (fun a => if has_id n a then f a else a) (agents st)) st.

(** The session after [f] was applied to the instance rows [n]. *)
Definition write_inst (n : nat) (f : InstanceObj -> InstanceObj) (st : Store)
  : Store :=
  set_instances (map (fun i => if inst_has_id n i then f i else i) (instances st))
                st.

(** The session after the agent object [o] became a row. *)
Definition persisted (o : AgentObj) (st : Store) : Store :=
  mkStore (agents st ++ [mkAgent (Some (next_id st)) (agent_attrs o)
                                 (agent_aliases o) (agent_links o)
                                 (agent_dates o)])
          (instances st) (ext st) (S (next_id st)) (log st) (work_calls st).

(** [P] survives what the reconciliation of an agent does to the session. *)
Class AgentSteps (P : Store -> Prop) : Prop := {
  step_ext : forall st e, P st -> P (set_ext e st);
  step_log : forall st r, P st -> P (add_log r st);
  step_agent : forall st n f, agent_write f -> P st -> P (write_agent n f st);
  step_persist : forall st o, P st -> P (persisted o st)
}.

(** [P] also survives a call recorded on a work and the writes to an
    instance other than a new agent-role row. *)
Class InstSteps (P : Store -> Prop) : Prop := {
  inst_agent_steps :: AgentSteps P;
  step_work_call : forall st c, P st -> P (add_work_call c st);
  step_inst : forall st n f, inst_write f -> P st -> P (write_inst n f st)
}.

(** [P] also survives a new agent-role row. *)
Class RoleSteps (P : Store -> Prop) : Prop := {
  role_inst_steps :: InstSteps P;
  step_role : forall st n x, P st -> P (write_inst n (inst_add_agent_role x) st)
}.

(** The agent row [a'] is the row [a] with the same key and with nothing
    taken from its aliases, links and dates. *)
Definition agent_grows (a a' : AgentObj) : Prop :=
  agent_id a' = agent_id a
  /\ agent_aliases a `prefix_of` agent_aliases a'
  /\ agent_links a `prefix_of` agent_links a'
  /\ agent_dates a `prefix_of` agent_dates a'.

(** The instance row [i'] is the row [i] with the same key and parent work
    and with nothing taken from any of its collections. *)
Definition inst_grows (i i' : InstanceObj) : Prop :=
  inst_id i' = inst_id i
  /\ inst_work i' = inst_work i
  /\ inst_agent_instances i `prefix_of` inst_agent_instances i'
  /\ inst_identifiers i `prefix_of` inst_identifiers i'
  /\ inst_language i `prefix_of` inst_language i'
  /\ inst_items i `prefix_of` inst_items i'
  /\ inst_alt_titles i `prefix_of` inst_alt_titles i'
  /\ inst_measurements i `prefix_of` inst_measurements i'
  /\ inst_dates i `prefix_of` inst_dates i'
  /\ inst_links i `prefix_of` inst_links i'
  /\ inst_rights i `prefix_of` inst_rights i'.

(** The session [st'] has the agent rows of [st], in their order and each
    grown, followed by new rows; the instance rows of [st], each grown,
    and no other; and the log and the calls on works of [st] with more at
    their end. *)
Definition session_grows (st st' : Store) : Prop :=
  (exists kept new,
      agents st' = kept ++ new /\ Forall2 agent_grows (agents st) kept)
  /\ Forall2 inst_grows (instances st) (instances st')
  /\ log st `prefix_of` log st'
  /\ work_calls st `prefix_of` work_calls st'
  /\ next_id st <= next_id st'.

(** The agent and role columns of a row of [agent_instances]. *)
Definition role_key (row : AgentRef * pystr) : option nat * pystr :=
  (agent_ref_id row.1, row.2).

(** The row names an agent by a primary key that was already handed out. *)
Definition keyed_below (bound : nat) (row : AgentRef * pystr) : Prop :=
  exists k, agent_ref_id row.1 = Some k /\ k < bound.

(** No instance row has two agent-role rows with the same agent and role,
    and every primary key of an agent in use is below the next one. *)
Definition roles_unique (st : Store) : Prop :=
  Forall (fun i => NoDup (map role_key (inst_agent_instances i))
                   /\ Forall (keyed_below (next_id st)) (inst_agent_instances i))
         (instances st)
  /\ Forall (fun a => forall k, agent_id a = Some k -> k < next_id st)
            (agents st).

(** The agent a role is being added for: a row, or an object that has no
    primary key yet. *)
Definition agent_ref_ok (a : AgentRef) (st : Store) : Prop :=
  match a with
  | AgentId k => k < next_id st
  | NewAgent o => agent_id o = None
  end.

(** Neither a single quote, nor an opening bracket, nor a hyphen. *)
Definition plain_char (c : ascii) : bool :=
  negb (Ascii.eqb c "'") && negb (Ascii.eqb c "[") && negb (Ascii.eqb c "-").

(** The agent [n] is a row of the session. *)
Definition has_row (n : nat) (st : Store) : Prop :=
  exists a, In a (agents st) /\ agent_id a = Some n.

(** A row of the agent [n] has the alias [x]. *)
Definition has_alias (n : nat) (x : pystr) (st : Store) : Prop :=
  exists a, In a (agents st) /\ agent_id a = Some n /\ In x (agent_aliases a).

(** The session [st] has the instance rows of [st0], the agent rows of
    [st0] by their keys, and the same next primary key. *)
Definition rows_fixed (st0 st : Store) : Prop :=
  instances st = instances st0
  /\ next_id st = next_id st0
  /\ map agent_id (agents st) = map agent_id (agents st0).

(** The test of the role query on a row. *)
Definition role_test (k : option nat) (role : pystr)
    (row : AgentRef * pystr) : bool :=
  bool_decide (agent_ref_id row.1 = k) && is_not_None k && pystr_eqb row.2 role.

(** [m] keeps [P]: the session after [m], whether it returned or raised,
    satisfies [P] when the session before did. *)
Definition keeps {A} (P : Store -> Prop) (m : M A) : Prop :=
  forall st, P st -> P (m st).1.

(** The attributes of the agent row [n]. *)
Definition attrs_of (n : nat) (st : Store) : option fields :=
  option_map agent_attrs (get_agent n st).

(** The attributes of the agent row [n] are [x]. *)
Definition attrs_are (n : nat) (x : option fields) (st : Store) : Prop :=
  attrs_of n st = x.

(** [m] never raises [e], whatever the session. *)
Definition never_raises {A} (e : exn) (m : M A) : Prop :=
  forall st, (m st).2 <> Raise e.

(** The calls made on works so far are [w]. *)
Definition calls_are (w : list WorkCall) (st : Store) : Prop :=
  work_calls st = w.

End Vocabulary.

(* ================================================================== *)
(** * Properties *)

(** ** Strings *)

Lemma escape_quotes_flat_map (s : pystr) :
  escape_quotes s = flat_map double_quote s.
Proof.
  unfold escape_quotes, py_replace.
  induction s as [|c t IH]; [reflexivity|].
  cbn [replace_from flat_map str list_ascii_of_string starts_with length].
  unfold double_quote at 1. fold quote.
  rewrite andb_true_r. change (1 - 1) with 0.
  destruct (Ascii.eqb quote c); cbn; rewrite <- IH; reflexivity.
Qed.

Lemma escape_quotes_app (a b : pystr) :
  escape_quotes (a ++ b) = escape_quotes a ++ escape_quotes b.
Proof. rewrite !escape_quotes_flat_map. apply flat_map_app. Qed.

Lemma escape_quotes_id (s : pystr) :
  forallb (fun c => negb (Ascii.eqb quote c)) s = true -> escape_quotes s = s.
Proof.
  rewrite escape_quotes_flat_map.
  induction s as [|c t IH]; [reflexivity|]. cbn [forallb flat_map].
  intros [Hc Ht]%andb_true_iff. unfold double_quote at 1.
  destruct (Ascii.eqb quote c); [discriminate|]. cbn. now rewrite IH.
Qed.

(** ** The lifespan expression *)

Lemma lifespan_at_None (s : pystr) :
  lifespan_at s = None <-> life_head s = false.
Proof.
  destruct s as [|d1 [|d2 [|d3 [|d4 [|h t]]]]]; cbn [lifespan_at life_head];
    try tauto.
  destruct (forallb is_digit [d1; d2; d3; d4] && Ascii.eqb h "-").
  - destruct t as [|e1 [|e2 [|e3 [|e4 t]]]];
      try (split; discriminate).
    destruct (forallb is_digit [e1; e2; e3; e4]); split; discriminate.
  - tauto.
Qed.

Lemma search_lifespan_cons (c : ascii) (t : pystr) :
  search_lifespan (c :: t) = None <->
  life_head (c :: t) = false /\ search_lifespan t = None.
Proof.
  cbn [search_lifespan]. rewrite <- lifespan_at_None.
  destruct (lifespan_at (c :: t)); split.
  - discriminate.
  - intros [? _]; discriminate.
  - auto.
  - tauto.
Qed.

Lemma search_lifespan_skip (c : ascii) (t : pystr) :
  life_head (c :: t) = false -> search_lifespan (c :: t) = search_lifespan t.
Proof.
  intros H%lifespan_at_None. cbn [search_lifespan]. now rewrite H.
Qed.

Lemma search_lifespan_found (s : pystr) (m : LifeMatch) :
  lifespan_at s = Some m -> search_lifespan s = Some m.
Proof. intros H. destruct s; cbn [search_lifespan]; now rewrite H. Qed.

(** A string without a match has none in any of its suffixes. *)
Lemma search_lifespan_suffix (a b : pystr) :
  search_lifespan (a ++ b) = None -> search_lifespan b = None.
Proof.
  induction a as [|c a IH]; [auto|].
  cbn [app]. intros [_ H]%search_lifespan_cons. auto.
Qed.

Lemma is_digit_not_quote (c : ascii) : is_digit c = true -> Ascii.eqb quote c = false.
Proof.
  intros H. destruct (Ascii.eqb quote c) eqn:E; [|reflexivity].
  apply Ascii.eqb_eq in E. subst c. discriminate.
Qed.

Lemma life_head_true (s : pystr) :
  life_head s = true ->
  exists d1 d2 d3 d4 t,
    s = d1 :: d2 :: d3 :: d4 :: "-"%char :: t /\
    forallb is_digit [d1; d2; d3; d4] = true.
Proof.
  destruct s as [|d1 [|d2 [|d3 [|d4 [|h t]]]]]; cbn [life_head]; try discriminate.
  intros [Hd ->%Ascii.eqb_eq]%andb_true_iff. eauto 10.
Qed.

Lemma flat_map_double_quote_head (t r : pystr) (x : ascii) :
  flat_map double_quote t = x :: r -> Ascii.eqb quote x = false ->
  exists t0, t = x :: t0 /\ r = flat_map double_quote t0.
Proof.
  destruct t as [|c t]; [discriminate|]. cbn [flat_map].
  unfold double_quote at 1. destruct (Ascii.eqb quote c) eqn:Q.
  - apply Ascii.eqb_eq in Q. subst c. cbn. intros [= <- _]. discriminate.
  - cbn. intros [= <- <-] _. eauto.
Qed.

(** Doubling the quotes creates no match at the head. *)
Lemma life_head_escape (c : ascii) (t : pystr) :
  life_head (c :: t) = false -> life_head (c :: escape_quotes t) = false.
Proof.
  rewrite escape_quotes_flat_map. intros H.
  destruct (life_head (c :: flat_map double_quote t)) eqn:E; [|reflexivity].
  exfalso.
  apply life_head_true in E as (d1 & d2 & d3 & d4 & r & [= <- E] & Hd).
  cbn [forallb] in Hd.
  apply andb_true_iff in Hd as [H1 Hd]. apply andb_true_iff in Hd as [H2 Hd].
  apply andb_true_iff in Hd as [H3 Hd]. apply andb_true_iff in Hd as [H4 _].
  apply flat_map_double_quote_head in E as (t2 & -> & E);
    [|now apply is_digit_not_quote].
  symmetry in E.
  apply flat_map_double_quote_head in E as (t3 & -> & E);
    [|now apply is_digit_not_quote].
  symmetry in E.
  apply flat_map_double_quote_head in E as (t4 & -> & E);
    [|now apply is_digit_not_quote].
  symmetry in E.
  apply flat_map_double_quote_head in E as (t5 & -> & E); [|reflexivity].
  cbn [life_head forallb] in H. rewrite H1, H2, H3, H4 in H. discriminate.
Qed.

Lemma life_head_nondigit (c : ascii) (s : pystr) :
  is_digit c = false -> life_head (c :: s) = false.
Proof.
  intros H. destruct s as [|? [|? [|? [|? ?]]]]; cbn [life_head forallb];
    rewrite ?H; reflexivity.
Qed.

Lemma search_lifespan_escape (s : pystr) :
  search_lifespan s = None -> search_lifespan (escape_quotes s) = None.
Proof.
  induction s as [|c t IH]; [auto|].
  intros [Hh Ht]%search_lifespan_cons.
  pose proof (life_head_escape _ _ Hh) as He.
  rewrite escape_quotes_flat_map in *. cbn [flat_map].
  unfold double_quote at 1. destruct (Ascii.eqb quote c) eqn:Q.
  - apply Ascii.eqb_eq in Q. subst c. cbn [app].
    rewrite 2!search_lifespan_skip by (now apply life_head_nondigit). auto.
  - cbn [app]. apply search_lifespan_cons. auto.
Qed.

(** A character that is neither a digit nor a hyphen, put after a string,
    creates no match at its head. *)
Lemma life_head_app_sep (a rest : pystr) (sp : ascii) :
  is_digit sp = false -> Ascii.eqb sp "-" = false ->
  life_head a = false -> life_head (a ++ sp :: rest) = false.
Proof.
  intros Hd Hh H.
  destruct (life_head (a ++ sp :: rest)) eqn:E; [|reflexivity]. exfalso.
  apply life_head_true in E as (d1 & d2 & d3 & d4 & t & E & Hdig).
  cbn [forallb] in Hdig.
  apply andb_true_iff in Hdig as [H1 Hdig]. apply andb_true_iff in Hdig as [H2 Hdig].
  apply andb_true_iff in Hdig as [H3 Hdig]. apply andb_true_iff in Hdig as [H4 _].
  destruct a as [|a1 [|a2 [|a3 [|a4 [|a5 a]]]]]; cbn [app] in E;
    injection E as ?; subst; try congruence.
  - rewrite Ascii.eqb_refl in Hh. discriminate.
  - cbn [life_head forallb] in H. rewrite H1, H2, H3, H4 in H. discriminate.
Qed.

Lemma search_lifespan_app_sep (a rest : pystr) (sp : ascii) :
  is_digit sp = false -> Ascii.eqb sp "-" = false ->
  search_lifespan a = None ->
  search_lifespan (a ++ sp :: rest) = search_lifespan rest.
Proof.
  intros Hd Hh. induction a as [|c a IH]; cbn [app].
  - intros _. apply search_lifespan_skip. now apply life_head_nondigit.
  - intros [Hc Ha]%search_lifespan_cons.
    rewrite search_lifespan_skip; auto.
    now apply (life_head_app_sep (c :: a)).
Qed.

(** ** Replacing the matched span *)

Lemma replace_from_0 (old new : pystr) (c : ascii) (t : pystr) :
  replace_from 0 old new (c :: t) =
  if starts_with old (c :: t)
  then new ++ replace_from (length old - 1) old new t
  else c :: replace_from 0 old new t.
Proof. reflexivity. Qed.

Lemma replace_from_skip (old new pre s : pystr) :
  replace_from (length pre) old new (pre ++ s) = replace_from 0 old new s.
Proof.
  induction pre as [|c pre IH]; [reflexivity|]. cbn [length app replace_from]. auto.
Qed.

Lemma starts_with_app (pre s : pystr) : starts_with pre (pre ++ s) = true.
Proof.
  induction pre as [|c pre IH]; [reflexivity|].
  cbn [app starts_with]. now rewrite Ascii.eqb_refl.
Qed.

Lemma starts_with_eq (pre s : pystr) :
  starts_with pre s = true -> exists r, s = pre ++ r.
Proof.
  revert s. induction pre as [|c pre IH]; intros s; [eauto|].
  destruct s as [|b s]; cbn [starts_with]; [discriminate|].
  intros [->%Ascii.eqb_eq H]%andb_true_iff.
  destruct (IH _ H) as [r ->]. eauto.
Qed.

Lemma lifespan_like_intro (d1 d2 d3 d4 : ascii) (r : pystr) :
  forallb is_digit [d1; d2; d3; d4] = true ->
  lifespan_like (d1 :: d2 :: d3 :: d4 :: "-"%char :: r).
Proof.
  intros Hd s [r' ->]%starts_with_eq. cbn [app life_head]. now rewrite Hd.
Qed.

Lemma replace_span_sep (span a rest : pystr) (sp : ascii) :
  lifespan_like span ->
  is_digit sp = false -> Ascii.eqb sp "-" = false ->
  search_lifespan a = None ->
  replace_from 0 span [] (a ++ sp :: rest) =
  a ++ sp :: replace_from 0 span [] rest.
Proof.
  intros Hspan Hd Hh. induction a as [|c a IH]; cbn [app].
  - intros _. rewrite replace_from_0.
    destruct (starts_with span (sp :: rest)) eqn:E; [|reflexivity].
    apply Hspan in E. now rewrite life_head_nondigit in E.
  - intros [Hc Ha]%search_lifespan_cons. rewrite replace_from_0.
    destruct (starts_with span (c :: a ++ sp :: rest)) eqn:E.
    + apply Hspan in E.
      change (c :: a ++ sp :: rest) with ((c :: a) ++ sp :: rest) in E.
      now rewrite life_head_app_sep in E.
    + now rewrite IH.
Qed.

Lemma replace_span_itself (span post : pystr) :
  span <> [] ->
  replace_from 0 span [] (span ++ post) = replace_from 0 span [] post.
Proof.
  destruct span as [|c span]; [congruence|]. intros _.
  cbn [app]. rewrite replace_from_0.
  change (c :: span ++ post) with ((c :: span) ++ post).
  rewrite starts_with_app.
  replace (length (c :: span) - 1) with (length span) by (cbn [length]; lia).
  apply replace_from_skip.
Qed.

Lemma replace_span_nondigit (span : pystr) (c : ascii) (t : pystr) :
  lifespan_like span -> is_digit c = false ->
  replace_from 0 span [] (c :: t) = c :: replace_from 0 span [] t.
Proof.
  intros Hspan Hd. rewrite replace_from_0.
  destruct (starts_with span (c :: t)) eqn:E; [|reflexivity].
  apply Hspan in E. now rewrite life_head_nondigit in E.
Qed.

(** ** Stripping the brackets of a wholly bracketed name *)

Lemma lstrip_by_app_stop (p : ascii -> bool) (a rest : pystr) (c : ascii) :
  p c = false -> lstrip_by p (a ++ c :: rest) = lstrip_by p a ++ c :: rest.
Proof.
  intros Hc. induction a as [|x a IH]; cbn [app lstrip_by].
  - now rewrite Hc.
  - destruct (p x); [exact IH | reflexivity].
Qed.

Lemma lstrip_by_suffix (p : ascii -> bool) (a : pystr) :
  exists pre, a = pre ++ lstrip_by p a.
Proof.
  induction a as [|x a [pre IH]]; cbn [lstrip_by].
  - now exists [].
  - destruct (p x).
    + exists (x :: pre). cbn [app]. now rewrite <- IH.
    + now exists [].
Qed.

Lemma rstrip_by_stop (p : ascii -> bool) (x : pystr) (c b : ascii) :
  p c = false -> p b = true -> rstrip_by p (x ++ [c; b]) = x ++ [c].
Proof.
  intros Hc Hb. unfold rstrip_by. rewrite rev_app_distr.
  cbn [rev app lstrip_by]. rewrite Hb, Hc.
  cbn [rev]. now rewrite rev_involutive.
Qed.

Lemma brackets_digit (c : ascii) : is_digit c = true -> brackets c = false.
Proof.
  intros H. unfold brackets, in_chars. cbn [str list_ascii_of_string existsb].
  destruct (Ascii.eqb c "[") eqn:E1. { apply Ascii.eqb_eq in E1. now subst. }
  destruct (Ascii.eqb c "]") eqn:E2. { apply Ascii.eqb_eq in E2. now subst. }
  reflexivity.
Qed.

(** ** Names that end in a bracketed lifespan *)

Lemma is_year_inv (y : pystr) :
  is_year y ->
  exists d1 d2 d3 d4, y = [d1; d2; d3; d4] /\
    is_digit d1 = true /\ is_digit d2 = true /\ is_digit d3 = true /\
    is_digit d4 = true.
Proof.
  intros [Hl Hd].
  destruct y as [|d1 [|d2 [|d3 [|d4 [|? ?]]]]]; try discriminate.
  cbn [forallb] in Hd.
  apply andb_true_iff in Hd as [H1 Hd]. apply andb_true_iff in Hd as [H2 Hd].
  apply andb_true_iff in Hd as [H3 Hd]. apply andb_true_iff in Hd as [H4 _].
  eauto 10.
Qed.

Ltac rewrite_digits :=
  repeat match goal with
         | H : is_digit ?c = true |- _ => rewrite (is_digit_not_quote c H)
         end.

Lemma unwrapName_shape (name birth : pystr) (death : option pystr) :
  is_year birth -> death_ok death -> search_lifespan name = None ->
  exists a post,
    unwrapName (with_lifespan name birth death)
      = a ++ " "%char :: "["%char :: lifespan_text birth death ++ post
    /\ (post = [] \/ post = ["]"%char])
    /\ search_lifespan a = None.
Proof.
  intros (b1 & b2 & b3 & b4 & -> & B1 & B2 & B3 & B4)%is_year_inv Hdeath Hname.
  unfold unwrapName, with_lifespan.
  assert (Hesc : escape_quotes
            (name ++ str " [" ++ lifespan_text [b1; b2; b3; b4] death ++ str "]")
          = escape_quotes name ++ " "%char :: "["%char
              :: lifespan_text [b1; b2; b3; b4] death ++ ["]"%char]).
  { rewrite escape_quotes_app. f_equal. apply escape_quotes_id.
    destruct death as [d|]; cbn [death_ok] in Hdeath.
    - apply is_year_inv in Hdeath as (e1 & e2 & e3 & e4 & -> & E1 & E2 & E3 & E4).
      cbn [lifespan_text str list_ascii_of_string app forallb].
      rewrite_digits. reflexivity.
    - cbn [lifespan_text str list_ascii_of_string app forallb].
      rewrite_digits. reflexivity. }
  rewrite Hesc. clear Hesc.
  pose proof (search_lifespan_escape _ Hname) as He.
  destruct (match_whole_bracket _).
  - unfold py_strip_chars, strip_by. fold brackets.
    rewrite lstrip_by_app_stop by reflexivity.
    destruct (lstrip_by_suffix brackets (escape_quotes name)) as [pre Hpre].
    exists (lstrip_by brackets (escape_quotes name)), [].
    split; [|split; [now left|]].
    + rewrite app_nil_r.
      destruct death as [d|]; cbn [death_ok] in Hdeath.
      * apply is_year_inv in Hdeath as (e1 & e2 & e3 & e4 & -> & E1 & E2 & E3 & E4).
        cbn [lifespan_text str list_ascii_of_string app].
        change (lstrip_by brackets (escape_quotes name) ++
                " "%char :: "["%char :: b1 :: b2 :: b3 :: b4 :: "-"%char
                  :: e1 :: e2 :: e3 :: [e4; "]"%char])
          with (lstrip_by brackets (escape_quotes name) ++
                [" "%char; "["%char; b1; b2; b3; b4; "-"%char; e1; e2; e3]
                ++ [e4; "]"%char]).
        rewrite app_assoc, rstrip_by_stop;
          [|now apply brackets_digit|reflexivity].
        now rewrite <- app_assoc.
      * cbn [lifespan_text str list_ascii_of_string app].
        change (lstrip_by brackets (escape_quotes name) ++
                " "%char :: "["%char :: b1 :: b2 :: b3 :: b4
                  :: ["-"%char; "]"%char])
          with (lstrip_by brackets (escape_quotes name) ++
                [" "%char; "["%char; b1; b2; b3; b4] ++ ["-"%char; "]"%char]).
        rewrite app_assoc, rstrip_by_stop; [|reflexivity|reflexivity].
        now rewrite <- app_assoc.
    + rewrite Hpre in He. eapply search_lifespan_suffix, He.
  - exists (escape_quotes name), ["]"%char]. auto.
Qed.

Lemma parseLifespan_bracketed (a post birth : pystr) (death : option pystr)
    (dates : list DateData) :
  is_year birth -> death_ok death -> search_lifespan a = None ->
  post = [] \/ post = ["]"%char] ->
  parseLifespan (a ++ " "%char :: "["%char :: lifespan_text birth death ++ post)
                dates
  = (a ++ " "%char :: "["%char :: post, dates ++ lifespan_dates birth death).
Proof.
  intros (b1 & b2 & b3 & b4 & -> & B1 & B2 & B3 & B4)%is_year_inv Hdeath Ha Hpost.
  unfold parseLifespan.
  rewrite search_lifespan_app_sep by (auto || reflexivity).
  rewrite search_lifespan_skip by (now apply life_head_nondigit).
  assert (Hlike : lifespan_like (lifespan_text [b1; b2; b3; b4] death)).
  { apply lifespan_like_intro. cbn [forallb]. now rewrite B1, B2, B3, B4. }
  assert (Hfound : search_lifespan (lifespan_text [b1; b2; b3; b4] death ++ post)
          = Some (mkLifeMatch (lifespan_text [b1; b2; b3; b4] death)
                              [b1; b2; b3; b4] death)).
  { apply search_lifespan_found.
    destruct death as [d|]; cbn [death_ok] in Hdeath.
    - apply is_year_inv in Hdeath as (e1 & e2 & e3 & e4 & -> & E1 & E2 & E3 & E4).
      cbn [lifespan_text str list_ascii_of_string app lifespan_at forallb].
      rewrite B1, B2, B3, B4, E1, E2, E3, E4. reflexivity.
    - cbn [lifespan_text str list_ascii_of_string app lifespan_at forallb].
      rewrite B1, B2, B3, B4.
      destruct Hpost as [-> | ->]; reflexivity. }
  rewrite Hfound. cbn [life_group0 life_group1 life_group2].
  assert (Hrepl : py_replace (lifespan_text [b1; b2; b3; b4] death) []
            (a ++ " "%char :: "["%char
               :: lifespan_text [b1; b2; b3; b4] death ++ post)
          = a ++ " "%char :: "["%char :: post).
  { unfold py_replace.
    rewrite replace_span_sep by (auto || reflexivity).
    rewrite replace_span_nondigit by (auto || reflexivity).
    rewrite replace_span_itself by (now destruct death).
    destruct Hpost as [-> | ->]; [reflexivity|].
    now rewrite replace_span_nondigit by (auto || reflexivity). }
  rewrite Hrepl. f_equal.
  unfold lifespan_dates. destruct death; [|reflexivity].
  now rewrite <- app_assoc.
Qed.

(** C7 (amended). For a raw name [<Name> [YYYY-YYYY]] or [<Name> [YYYY-]]
    whose [<Name>] holds no four digits followed by a hyphen, cleaning
    removes the lifespan text from the name and appends the birth date
    record, followed by the death date record when the second year is
    there, and nothing else. *)
Theorem cleanName_lifespan (agent : fields) (roles : list pystr)
    (dates : list DateData) (name birth : pystr) (death : option pystr) :
  is_year birth -> death_ok death -> search_lifespan name = None ->
  agent !! "name" = Some (Some (with_lifespan name birth death)) ->
  exists pre post,
    unwrapName (with_lifespan name birth death)
      = pre ++ lifespan_text birth death ++ post
    /\ parseLifespan (pre ++ lifespan_text birth death ++ post) dates
       = (pre ++ post, dates ++ lifespan_dates birth death)
    /\ let cleaned :=
         py_strip_chars name_punct (parseRoles (pre ++ post) roles).1 in
       _cleanName agent roles dates
       = Ok (<["sort_name" := Some cleaned]> (<["name" := Some cleaned]> agent),
             (parseRoles (pre ++ post) roles).2,
             dates ++ lifespan_dates birth death).
Proof.
  intros Hb Hd Hn Hag.
  destruct (unwrapName_shape name birth death Hb Hd Hn) as (a & post & Hu & Hpost & Ha).
  pose proof (parseLifespan_bracketed a post birth death dates Hb Hd Ha Hpost) as Hp.
  exists (a ++ [" "%char; "["%char]), post.
  rewrite <- !app_assoc. cbn [app].
  split; [exact Hu|]. split; [exact Hp|].
  cbv zeta. unfold _cleanName. rewrite Hag, Hu, Hp.
  destruct (parseRoles _ roles) as [tmp roles']. reflexivity.
Qed.

Section AgentLookup.
Context `{C : Collaborators}.

Lemma filter_single {A} (p : A -> bool) (before after : list A) (a : A) :
  p a = true ->
  Forall (fun b => p b = false) (before ++ after) ->
  List.filter p (before ++ a :: after) = [a].
Proof.
  intros Ha Hrest. apply Forall_app in Hrest as [Hb Haf].
  assert (Hnil : forall l, Forall (fun b => p b = false) l -> List.filter p l = []).
  { intros l Hl. induction Hl as [|x l Hx _ IH]; cbn [List.filter];
      [reflexivity|]. now rewrite Hx. }
  rewrite List.filter_app. cbn [List.filter]. now rewrite Ha, !Hnil.
Qed.

Lemma filter_single_inv {A} (p : A -> bool) (l : list A) (a : A) :
  List.filter p l = [a] ->
  exists before after,
    l = before ++ a :: after /\ p a = true
    /\ Forall (fun b => p b = false) (before ++ after).
Proof.
  induction l as [|x l IH]; cbn [List.filter]; [discriminate|].
  destruct (p x) eqn:Hx.
  - intros [= -> Hnil]. exists [], l. split; [reflexivity|].
    split; [exact Hx|]. cbn [app]. apply List.Forall_forall. intros b Hb.
    destruct (p b) eqn:Hpb; [|reflexivity].
    assert (Hin : In b (List.filter p l)) by (apply filter_In; auto).
    rewrite Hnil in Hin. destruct Hin.
  - intros H. destruct (IH H) as (before & after & -> & Ha & Hrest).
    exists (x :: before), after. split; [reflexivity|].
    split; [exact Ha|]. cbn [app]. now constructor.
Qed.

(** C2, where the code departs from it.  The payload has one authority
    identifier and [None] for the other; [a] is a stored agent that has
    no value for that other identifier, and no other stored agent has the
    payload's identifier or lacks the other one.  Then the authority step
    returns [a], whatever identifier [a] itself carries and whatever its
    name: the ORM renders the comparison of a column with [None] as
    [IS NULL], so an agent is selected for lacking an identifier the
    payload lacks. *)
Theorem lookupAgent_matches_missing_identifier (agent : fields)
    (viaf lcnaf : option pystr) (st : Store) (before after : list AgentObj)
    (a : AgentObj) :
  agent !! "viaf" = Some viaf ->
  agent !! "lcnaf" = Some lcnaf ->
  is_not_None viaf || is_not_None lcnaf = true ->
  agents st = before ++ a :: after ->
  (viaf = None /\ attr (agent_attrs a) "viaf" = None)
  \/ (lcnaf = None /\ attr (agent_attrs a) "lcnaf" = None) ->
  Forall (fun b => attr (agent_attrs b) "viaf" <> viaf
                   /\ attr (agent_attrs b) "lcnaf" <> lcnaf)
         (before ++ after) ->
  lookupAgent agent st = (st, Ok (agent_id a)).
Proof.
  intros Hv Hl Hsome Hst Hnull Hrest.
  unfold lookupAgent, getitem. rewrite Hv, Hl.
  unfold bindM at 1 2. unfold ret at 1 2.
  unfold bindM at 1. unfold lookupByAuthority. rewrite Hsome.
  unfold bindM at 1. unfold get_store. rewrite Hst.
  rewrite (filter_single (authority_match viaf lcnaf)).
  - reflexivity.
  - unfold authority_match. destruct Hnull as [[-> E]|[-> E]]; rewrite E.
    + now rewrite bool_decide_eq_true_2.
    + rewrite (bool_decide_eq_true_2 (None = None)) by reflexivity.
      apply orb_true_r.
  - eapply Forall_impl; [exact Hrest|]. intros b [Hbv Hbl].
    unfold authority_match.
    now rewrite !bool_decide_eq_false_2.
Qed.

End AgentLookup.

(** ** What a computation leaves unchanged *)

Section Frame.
Context `{C : Collaborators}.

Lemma keeps_ret {A} P (a : A) : keeps P (ret a).
Proof. intros st H. exact H. Qed.

Lemma keeps_raise {A} P e : keeps P (@raise _ A e).
Proof. intros st H. exact H. Qed.

Lemma keeps_lift {A} P (r : result A) : keeps P (lift r).
Proof. intros st H. exact H. Qed.

Lemma keeps_get_store P : keeps P get_store.
Proof. intros st H. exact H. Qed.

Lemma keeps_bindM {A B} P (m : M A) (k : A -> M B) :
  keeps P m -> (forall a, keeps P (k a)) -> keeps P (bindM m k).
Proof.
  intros Hm Hk st H. unfold bindM. specialize (Hm st H).
  destruct (m st) as [st' [a|e]]; cbn [fst] in *; [now apply Hk | exact Hm].
Qed.

Lemma keeps_modify_store P f :
  (forall st, P st -> P (f st)) -> keeps P (modify_store f).
Proof. intros Hf st H. now apply Hf. Qed.

Lemma keeps_call {A} P (q : Query A) :
  (forall st e, P st -> P (set_ext e st)) -> keeps P (call q).
Proof.
  intros He st H. unfold call. destruct (q st) as [e r]. now apply He.
Qed.

Lemma keeps_except_DataError {A} P (m h : M A) :
  keeps P m -> keeps P h -> keeps P (except_DataError m h).
Proof.
  intros Hm Hh st H. unfold except_DataError. specialize (Hm st H).
  destruct (m st) as [st' [a|[]]]; cbn [fst] in *; auto.
Qed.

Lemma keeps_for_each {A} P (xs : list A) (body : A -> M unit) :
  (forall x, keeps P (body x)) -> keeps P (for_each xs body).
Proof.
  intros Hb. induction xs as [|x xs IH]; cbn [for_each].
  - apply keeps_ret.
  - apply keeps_bindM; auto.
Qed.

Lemma keeps_map_M {A B} P (f : A -> M B) (xs : list A) :
  (forall x, keeps P (f x)) -> keeps P (map_M f xs).
Proof.
  intros Hf. induction xs as [|x xs IH]; cbn [map_M].
  - apply keeps_ret.
  - apply keeps_bindM; [auto|]. intros y.
    apply keeps_bindM; [auto|]. intros ys. apply keeps_ret.
Qed.

Lemma keeps_filter_M {A} P (p : A -> M bool) (xs : list A) :
  (forall x, keeps P (p x)) -> keeps P (filter_M p xs).
Proof.
  intros Hp. induction xs as [|x xs IH]; cbn [filter_M].
  - apply keeps_ret.
  - apply keeps_bindM; [auto|]. intros b.
    apply keeps_bindM; [auto|]. intros ys. apply keeps_ret.
Qed.

Lemma keeps_fold_M {A S} P (body : S -> A -> M S) (xs : list A) :
  (forall s x, keeps P (body s x)) -> forall s, keeps P (fold_M body s xs).
Proof.
  intros Hb. induction xs as [|x xs IH]; intros s; cbn [fold_M].
  - apply keeps_ret.
  - apply keeps_bindM; auto.
Qed.

End Frame.

(** One step of a frame proof: split the computation at its head. *)
Ltac keeps_step :=
  match goal with
  | |- keeps _ (ret _) => apply keeps_ret
  | |- keeps _ (raise _) => apply keeps_raise
  | |- keeps _ (lift _) => apply keeps_lift
  | |- keeps _ get_store => apply keeps_get_store
  | |- keeps _ (bindM _ _) => apply keeps_bindM; [|intros ?]
  | |- keeps _ (except_DataError _ _) => apply keeps_except_DataError
  | |- keeps _ (for_each _ _) => apply keeps_for_each; intros ?
  | |- keeps _ (map_M _ _) => apply keeps_map_M; intros ?
  | |- keeps _ (filter_M _ _) => apply keeps_filter_M; intros ?
  | |- keeps _ (fold_M _ _ _) => apply keeps_fold_M; intros ? ?
  | |- keeps _ (match ?x with _ => _ end) => destruct x
  | |- keeps _ (if ?x then _ else _) => destruct x
  | |- keeps _ (let '(_, _) := ?x in _) => destruct x
  end.

(** ** The scalar loop *)

Lemma setFields_lookup (ok : option pystr -> bool) (payload existing : fields)
    (f : string) :
  setFields ok payload existing !! f
  = match payload !! f with
    | Some v => if ok v then Some v else existing !! f
    | None => existing !! f
    end.
Proof.
  unfold setFields.
  apply (map_fold_weak_ind
           (fun acc (m : fields) =>
              acc !! f = match m !! f with
                         | Some v => if ok v then Some v else existing !! f
                         | None => existing !! f
                         end)).
  - now rewrite lookup_empty.
  - intros k v m acc Hk IH.
    destruct (decide (k = f)) as [->|Hne].
    + rewrite lookup_insert_eq. destruct (ok v).
      * now rewrite lookup_insert_eq.
      * now rewrite IH, Hk.
    + rewrite (lookup_insert_ne m) by exact Hne. destruct (ok v).
      * now rewrite lookup_insert_ne.
      * exact IH.
Qed.

(** ** Agent rows *)

Section AgentFrame.
Context `{C : Collaborators}.

Lemma find_update_agent (n : nat) (f : AgentObj -> AgentObj) (l : list AgentObj) :
  (forall a, agent_id (f a) = agent_id a) ->
  find (has_id n) (map (fun a => if has_id n a then f a else a) l)
  = option_map f (find (has_id n) l).
Proof.
  intros Hf. induction l as [|a l IH]; [reflexivity|]. cbn [map find].
  destruct (has_id n a) eqn:E.
  - unfold has_id in *. rewrite Hf, E. reflexivity.
  - rewrite E. exact IH.
Qed.

Lemma get_agent_update_agent (n : nat) (f : AgentObj -> AgentObj) (st : Store) :
  (forall a, agent_id (f a) = agent_id a) ->
  get_agent n (update_agent n f st).1 = option_map f (get_agent n st).
Proof. intros Hf. unfold get_agent. cbn. now apply find_update_agent. Qed.

Lemma keeps_attrs_update_agent (n m : nat) x (f : AgentObj -> AgentObj) :
  (forall a, agent_id (f a) = agent_id a) ->
  (forall a, agent_attrs (f a) = agent_attrs a) ->
  keeps (attrs_are n x) (update_agent m f).
Proof.
  intros Hid Hat st H. unfold attrs_are, attrs_of, get_agent in *. cbn.
  rewrite <- H. clear H.
  induction (agents st) as [|a l IH]; [reflexivity|]. cbn [map find].
  destruct (has_id m a) eqn:E.
  - unfold has_id at 1. rewrite Hid. fold (has_id n a).
    destruct (has_id n a); cbn; [now rewrite Hat | exact IH].
  - destruct (has_id n a); [reflexivity | exact IH].
Qed.

Lemma keeps_attrs_call {A} (n : nat) x (q : Query A) :
  keeps (attrs_are n x) (call q).
Proof. apply keeps_call. intros st e H. exact H. Qed.

Lemma keeps_attrs_Alias_insertOrSkip (n : nat) x alias recordID :
  keeps (attrs_are n x) (Alias_insertOrSkip alias recordID).
Proof. unfold Alias_insertOrSkip. repeat keeps_step. Qed.

End AgentFrame.

Section AgentMerge.
Context `{C : Collaborators}.

(** [Agent.update] writes the attributes of the row once, in its scalar
    loop, whatever happens to the children afterwards. *)
Lemma Agent_update_attrs (n : nat) (agent : fields)
    (aliases : option (list pystr)) (link : LinkArg) (dates : list DateData)
    (st : Store) :
  attrs_of n (Agent_update n agent aliases link dates st).1
  = option_map (setFields agent_value_ok agent) (attrs_of n st).
Proof.
  unfold Agent_update.
  set (rest := bindM (match aliases with Some _ => _ | None => _ end) _).
  assert (Hrest : forall x, keeps (attrs_are n x) rest).
  { intros x. subst rest.
    repeat first
      [ apply keeps_attrs_call
      | apply keeps_attrs_Alias_insertOrSkip
      | apply keeps_attrs_update_agent; [reflexivity | reflexivity]
      | progress unfold append_agent_link, append_agent_date
      | keeps_step ]. }
  unfold bindM at 1.
  pose proof (get_agent_update_agent n (with_attrs (setFields agent_value_ok agent))
                st (fun _ => eq_refl)) as Hfirst.
  destruct (update_agent n _ st) as [st1 [[]|e]] eqn:E1; cbn [fst] in Hfirst.
  - rewrite (Hrest (attrs_of n st1) st1 eq_refl).
    unfold attrs_of. rewrite Hfirst.
    destruct (get_agent n st); reflexivity.
  - discriminate E1.
Qed.

(** [_cleanName] writes [name] and [sort_name] only. *)
Lemma cleanName_other_keys (agent agent' : fields) roles roles' dates dates'
    (k : string) :
  _cleanName agent roles dates = Ok (agent', roles', dates') ->
  k <> "name" -> k <> "sort_name" -> agent' !! k = agent !! k.
Proof.
  unfold _cleanName. destruct (agent !! "name") as [[name|]|]; try discriminate.
  destruct (parseLifespan _ _) as [t d]. destruct (parseRoles _ _) as [t' r].
  intros [= <- _ _] H1 H2. now rewrite !lookup_insert_ne by congruence.
Qed.

(** A lookup that returns leaves the session as it was. *)
Lemma lookupAgent_returns (agent : fields) (st st' : Store) (r : option nat) :
  lookupAgent agent st = (st', Ok r) -> st' = st.
Proof.
  unfold lookupAgent, getitem.
  destruct (agent !! "viaf") as [viaf|]; [|discriminate].
  destruct (agent !! "lcnaf") as [lcnaf|]; [|discriminate].
  unfold bindM at 1 2. unfold ret at 1 2. unfold bindM at 1.
  assert (Hname : forall x, lookupByName agent st = (st', Ok x) -> st' = st).
  { unfold lookupByName, getitem.
    destruct (agent !! "name") as [[name|]|]; try discriminate.
    unfold bindM at 1. unfold ret at 1. cbv beta iota zeta.
    destruct (text_needs_value (jaroWinklerQ (escape_quotes name)));
      [intros x Hx; discriminate Hx|].
    unfold bindM, ret, get_store.
    destruct (one _); now intros x [= <- _]. }
  unfold lookupByAuthority.
  destruct (is_not_None viaf || is_not_None lcnaf).
  - unfold bindM, get_store.
    destruct (one _); cbn.
    + apply Hname.
    + now intros [= <- _].
    + discriminate.
  - unfold ret. apply Hname.
Qed.

(** C10. [Agent.updateOrInsert] behaves as on the payload without its
    top-level [birth_date] and [death_date]; the agent it returns, when new,
    has neither attribute, and, when it is an existing row, has them as the
    row had them before. *)
Theorem updateOrInsert_drops_lifespan_keys (agent : AgentPayload) (st st' : Store)
    (ref : AgentRef) (roles : option (list pystr)) (k : string) :
  lifespan_key k ->
  Agent_updateOrInsert agent st = (st', Ok (ref, roles)) ->
  Agent_updateOrInsert (without_lifespan_keys agent) st = (st', Ok (ref, roles))
  /\ match ref with
     | NewAgent o => agent_attrs o !! k = None
     | AgentId n =>
         exists a a', get_agent n st = Some a /\ get_agent n st' = Some a'
                      /\ agent_attrs a' !! k = agent_attrs a !! k
     end.
Proof.
  intros Hk Hrun.
  set (fs := delete "death_date" (delete "birth_date" (ap_fields agent))).
  assert (Hbd : fs !! "birth_date" = None).
  { subst fs. rewrite lookup_delete_ne by discriminate. apply lookup_delete_eq. }
  assert (Hdd : fs !! "death_date" = None) by apply lookup_delete_eq.
  assert (Hfs : fs !! k = None) by (destruct Hk as [-> | ->]; assumption).
  split.
  { rewrite <- Hrun. unfold Agent_updateOrInsert, without_lifespan_keys.
    cbn [ap_fields ap_aliases ap_roles ap_link ap_dates]. fold fs.
    rewrite (delete_id fs "birth_date" Hbd), (delete_id fs "death_date" Hdd).
    reflexivity. }
  revert Hrun. unfold Agent_updateOrInsert. fold fs.
  unfold bindM at 1. unfold lift at 1.
  destruct (_cleanName fs _ _) as [[[fs' roles'] dates']|e] eqn:Hclean;
    [|discriminate].
  assert (Hfs' : fs' !! k = None).
  { rewrite (cleanName_other_keys _ _ _ _ _ _ k Hclean); [exact Hfs| |];
      destruct Hk as [-> | ->]; discriminate. }
  unfold bindM at 1. unfold getitem.
  destruct (fs' !! "name") as [[name|]|]; try discriminate.
  unfold ret at 1. destruct (length (py_strip name) <? 1); [discriminate|].
  unfold bindM at 1.
  destruct (lookupAgent fs' st) as [st1 [[n|]|e]] eqn:Hlook; try discriminate.
  - (* the update path *)
    apply lookupAgent_returns in Hlook. subst st1.
    unfold bindM at 1. unfold get_store at 1.
    destruct (get_agent n st) as [a|] eqn:Hget; [|discriminate].
    unfold bindM at 1.
    pose proof (Agent_update_attrs n fs' (ap_aliases agent) (ap_link agent) dates' st)
      as Hattrs.
    assert (Hret : forall st2 upd,
               Agent_update n fs' (ap_aliases agent) (ap_link agent) dates' st
               = (st2, Ok upd) -> upd = AgentId n).
    { unfold Agent_update. intros st2 upd.
      repeat (unfold bindM at 1;
              match goal with
              | |- context [match ?m ?s with _ => _ end] =>
                  destruct (m s) as [? [?|?]]
              end; try discriminate).
      unfold ret. now intros [= _ <-]. }
    destruct (Agent_update n fs' _ _ _ st) as [st2 [upd|e]] eqn:Hupd; [|discriminate].
    unfold ret. intros [= <- <- _].
    rewrite (Hret _ _ eq_refl). cbn [fst] in Hattrs.
    unfold attrs_of in Hattrs. rewrite Hget in Hattrs. cbn [option_map] in Hattrs.
    destruct (get_agent n st2) as [a'|]; [|discriminate].
    injection Hattrs as Hattrs. exists a, a'.
    split; [exact Hget|]. split; [reflexivity|].
    rewrite Hattrs, setFields_lookup, Hfs'. reflexivity.
  - (* the insert path *)
    apply lookupAgent_returns in Hlook. subst st1.
    unfold bindM at 1. unfold Agent_insert.
    unfold bindM at 1. unfold getitem.
    destruct (fs' !! "name") as [v|]; [|discriminate].
    unfold ret at 1.
    destruct (constructor_accepts OwnerAgent fs'); cbn [negb];
      [|discriminate].
    unfold bindM at 1. unfold lift at 1.
    destruct (match ap_link agent with
              | LinkDict _ => _ | LinkList _ => _ | LinkOther => _ end)
      as [links|e]; [|discriminate].
    unfold bindM at 1. unfold lift at 1.
    destruct (map_result DateField_insert dates') as [ds|e]; [|discriminate].
    unfold ret. intros [= <- <- _]. cbn [agent_attrs].
    destruct (attr fs' "sort_name"); [exact Hfs'|].
    rewrite lookup_insert_ne; [exact Hfs'|].
    destruct Hk as [-> | ->]; discriminate.
Qed.

End AgentMerge.

(** ** Which exceptions a computation can raise *)

Section Raises.
Context `{C : Collaborators}.

Lemma never_raises_ret {A} e (a : A) : never_raises e (ret a).
Proof. intros st. discriminate. Qed.

Lemma never_raises_raise {A} e e' : e' <> e -> never_raises e (@raise _ A e').
Proof. intros H st. cbn. congruence. Qed.

Lemma never_raises_lift {A} e (r : result A) :
  r <> Raise e -> never_raises e (lift r).
Proof. intros H st. exact H. Qed.

Lemma never_raises_get_store e : never_raises e get_store.
Proof. intros st. discriminate. Qed.

Lemma never_raises_modify_store e f : never_raises e (modify_store f).
Proof. intros st. discriminate. Qed.

Lemma never_raises_bindM {A B} e (m : M A) (k : A -> M B) :
  never_raises e m -> (forall a, never_raises e (k a)) ->
  never_raises e (bindM m k).
Proof.
  intros Hm Hk st. unfold bindM. specialize (Hm st).
  destruct (m st) as [st' [a|e']]; cbn [snd] in *; [apply Hk | congruence].
Qed.

Lemma never_raises_call {A} e (q : Query A) :
  (forall st, (q st).2 <> Raise e) -> never_raises e (call q).
Proof.
  intros Hq st. unfold call. specialize (Hq st). now destruct (q st).
Qed.

Lemma never_raises_for_each {A} e (xs : list A) (body : A -> M unit) :
  (forall x, never_raises e (body x)) -> never_raises e (for_each xs body).
Proof.
  intros Hb. induction xs as [|x xs IH]; cbn [for_each].
  - apply never_raises_ret.
  - apply never_raises_bindM; auto.
Qed.

Lemma never_raises_map_M {A B} e (f : A -> M B) (xs : list A) :
  (forall x, never_raises e (f x)) -> never_raises e (map_M f xs).
Proof.
  intros Hf. induction xs as [|x xs IH]; cbn [map_M].
  - apply never_raises_ret.
  - apply never_raises_bindM; [auto|]. intros y.
    apply never_raises_bindM; [auto|]. intros ys. apply never_raises_ret.
Qed.

Lemma map_result_never {A B} e (f : A -> result B) (xs : list A) :
  (forall x, f x <> Raise e) -> map_result f xs <> Raise e.
Proof.
  intros Hf. induction xs as [|x xs IH]; cbn [map_result]; [discriminate|].
  specialize (Hf x). destruct (f x); [|congruence].
  destruct (map_result f xs); [discriminate | congruence].
Qed.

End Raises.

Ltac never_step :=
  match goal with
  | |- never_raises _ (ret _) => apply never_raises_ret
  | |- never_raises _ (raise _) => apply never_raises_raise; discriminate
  | |- never_raises _ get_store => apply never_raises_get_store
  | |- never_raises _ (modify_store _) => apply never_raises_modify_store
  | |- never_raises _ (update_agent _ _) => apply never_raises_modify_store
  | |- never_raises _ (bindM _ _) => apply never_raises_bindM; [|intros ?]
  | |- never_raises _ (for_each _ _) => apply never_raises_for_each; intros ?
  | |- never_raises _ (map_M _ _) => apply never_raises_map_M; intros ?
  | |- never_raises _ (match ?x with _ => _ end) => destruct x
  | |- never_raises _ (if ?x then _ else _) => destruct x
  end.

(** ** The validation of the agent name *)

Lemma parseLifespan_name (t : pystr) (dates : list DateData) :
  (parseLifespan t dates).1 = (parseLifespan t []).1.
Proof. unfold parseLifespan. now destruct (search_lifespan t). Qed.

Lemma parseRoles_name (t : pystr) (roles : list pystr) :
  (parseRoles t roles).1 = (parseRoles t []).1.
Proof. unfold parseRoles. now destruct (search_role t) as [[? ?]|]. Qed.

Lemma cleanName_eq (agent : fields) (roles : list pystr) (dates : list DateData)
    (name : pystr) :
  agent !! "name" = Some (Some name) ->
  exists roles' dates',
    _cleanName agent roles dates
    = Ok (<["sort_name" := Some (cleaned_text name)]>
            (<["name" := Some (cleaned_text name)]> agent), roles', dates').
Proof.
  intros Hn. unfold _cleanName, cleaned_text. rewrite Hn.
  rewrite <- (parseLifespan_name _ dates).
  destruct (parseLifespan _ dates) as [t d]. cbn [fst].
  rewrite <- (parseRoles_name _ roles).
  destruct (parseRoles t roles) as [t' r]. cbn [fst]. eauto.
Qed.

Lemma cleanedName_eq `{T : ExtTypes} (agent : AgentPayload) :
  cleanedName agent
  = match raw_name agent with
    | Some (Some name) => Some (cleaned_text name)
    | _ => None
    end.
Proof.
  unfold cleanedName, raw_name. fold (popped agent).
  destruct (popped agent !! "name") as [[name|]|] eqn:Hn.
  - destruct (cleanName_eq (popped agent) [] [] name Hn) as (r & d & ->).
    unfold attr. rewrite lookup_insert_ne by discriminate.
    now rewrite lookup_insert_eq.
  - unfold _cleanName. now rewrite Hn.
  - unfold _cleanName. now rewrite Hn.
Qed.

Section Validation.
Context `{C : Collaborators}.

Lemma updateOrInsert_blank (agent : AgentPayload) (st : Store) :
  name_is_blank agent = true ->
  Agent_updateOrInsert agent st = (st, Raise DataError).
Proof.
  unfold name_is_blank. rewrite cleanedName_eq. unfold raw_name.
  destruct (popped agent !! "name") as [[name|]|] eqn:Hn; try discriminate.
  intros Hblank. unfold Agent_updateOrInsert. fold (popped agent).
  destruct (cleanName_eq (popped agent)
              (match ap_roles agent with Some r => r | None => [] end)
              (match ap_dates agent with Some d => d | None => [] end) name Hn)
    as (r & d & ->).
  unfold bindM at 1. unfold lift at 1.
  unfold bindM at 1. unfold getitem.
  rewrite lookup_insert_ne by discriminate. rewrite lookup_insert_eq.
  unfold ret at 1. now rewrite Hblank.
Qed.

Lemma lookupAgent_no_DataError (agent : fields) :
  never_raises DataError (lookupAgent agent).
Proof.
  unfold lookupAgent, lookupByAuthority, lookupByName, getitem.
  repeat never_step.
Qed.

Hypothesis Link_new_valid : forall l, Link_new l <> Raise DataError.
Hypothesis DateField_insert_valid : forall d, DateField_insert d <> Raise DataError.
Hypothesis Link_updateOrInsert_valid :
  forall l k i st, (Link_updateOrInsert l k i st).2 <> Raise DataError.
Hypothesis DateField_updateOrInsert_valid :
  forall d k i st, (DateField_updateOrInsert d k i st).2 <> Raise DataError.

Lemma Agent_update_no_DataError n agent aliases link dates :
  never_raises DataError (Agent_update n agent aliases link dates).
Proof.
  unfold Agent_update, Alias_insertOrSkip, append_agent_link, append_agent_date.
  repeat first
    [ apply never_raises_call; intros ?;
        first [ apply Link_updateOrInsert_valid
              | apply DateField_updateOrInsert_valid ]
    | never_step ].
Qed.

Lemma Agent_insert_no_DataError agent aliases link dates :
  never_raises DataError (Agent_insert agent aliases link dates).
Proof.
  unfold Agent_insert, getitem.
  repeat first
    [ apply never_raises_lift;
        first [ apply map_result_never; assumption | discriminate ]
    | never_step
    | destruct link ].
Qed.

Lemma updateOrInsert_not_blank (agent : AgentPayload) (st : Store) :
  name_is_blank agent = false ->
  (Agent_updateOrInsert agent st).2 <> Raise DataError.
Proof.
  unfold name_is_blank. rewrite cleanedName_eq. unfold raw_name.
  unfold Agent_updateOrInsert. fold (popped agent).
  destruct (popped agent !! "name") as [[name|]|] eqn:Hn.
  - intros Hblank.
    destruct (cleanName_eq (popped agent)
                (match ap_roles agent with Some r => r | None => [] end)
                (match ap_dates agent with Some d => d | None => [] end) name Hn)
      as (r & d & ->).
    unfold bindM at 1. unfold lift at 1.
    unfold bindM at 1. unfold getitem.
    rewrite lookup_insert_ne by discriminate. rewrite lookup_insert_eq.
    unfold ret at 1. rewrite Hblank.
    revert st.
    change (never_raises DataError
      (bindM (lookupAgent (<["sort_name" := Some (cleaned_text name)]>
                             (<["name" := Some (cleaned_text name)]> (popped agent))))
         (fun existingAgentID =>
            match existingAgentID with
            | Some existingAgentID0 =>
                bindM get_store (fun st0 =>
                  match get_agent existingAgentID0 st0 with
                  | Some _ =>
                      bindM (Agent_update existingAgentID0
                               (<["sort_name" := Some (cleaned_text name)]>
                                  (<["name" := Some (cleaned_text name)]> (popped agent)))
                               (ap_aliases agent) (ap_link agent) d)
                        (fun updated => ret (updated, Some (dedupRoles r)))
                  | None => raise AttributeError
                  end)
            | None =>
                bindM (Agent_insert
                         (<["sort_name" := Some (cleaned_text name)]>
                            (<["name" := Some (cleaned_text name)]> (popped agent)))
                         (ap_aliases agent) (ap_link agent) d)
                  (fun newAgent => ret (newAgent, Some (dedupRoles r)))
            end))).
    repeat first
      [ apply lookupAgent_no_DataError
      | apply Agent_update_no_DataError
      | apply Agent_insert_no_DataError
      | never_step ].
  - intros _. unfold _cleanName. rewrite Hn. discriminate.
  - intros _. unfold _cleanName. rewrite Hn. discriminate.
Qed.

(** C9. [Agent.updateOrInsert] raises [DataError] exactly when the cleaned
    name is blank, the collaborators raising none themselves; and an agent
    with a blank cleaned name, met while the agents of an instance are
    reconciled, leaves one warning in the log and nothing else, the agents
    after it being processed as if it had not been there. *)
Theorem blank_name_is_skipped (agent : AgentPayload) (st : Store) :
  ((Agent_updateOrInsert agent st).2 = Raise DataError
   <-> name_is_blank agent = true)
  /\ (name_is_blank agent = true ->
      forall (instance : InstRef) (rest : list AgentPayload),
        _addAgents instance (agent :: rest) st
        = _addAgents instance rest
            (add_log (LogUnableToReadAgent (cleanedName agent)) st)).
Proof.
  split.
  - split.
    + intros Hraise. destruct (name_is_blank agent) eqn:E; [reflexivity|].
      now apply (updateOrInsert_not_blank agent st) in E.
    + intros Hb. now rewrite updateOrInsert_blank.
  - intros Hb instance rest. unfold _addAgents. cbn [fold_M].
    unfold bindM at 1. unfold addAgent at 1. unfold except_DataError.
    unfold bindM at 1. rewrite (updateOrInsert_blank agent st Hb).
    reflexivity.
Qed.

End Validation.

Section InstanceLookup.
Context `{C : Collaborators}.

(** The volume query on a session where [row] is the one row of the
    instance [candidate]. *)
Lemma volume_rows_of_row (candidate : nat) (st : Store)
    (before after : list InstanceObj) (row : InstanceObj) :
  instances st = before ++ row :: after ->
  inst_id row = Some candidate ->
  Forall (fun i => inst_id i <> Some candidate) (before ++ after) ->
  volume_rows candidate st = [attr (inst_attrs row) "volume"].
Proof.
  intros Hst Hrow Hrest. unfold volume_rows. rewrite Hst.
  rewrite (filter_single (inst_has_id candidate)); [reflexivity| |].
  - unfold inst_has_id. now rewrite bool_decide_eq_true_2.
  - eapply Forall_impl; [exact Hrest|]. intros i Hi. unfold inst_has_id.
    now rewrite bool_decide_eq_false_2.
Qed.

Lemma volume_rows_single (n : nat) (st : Store) (x : option pystr) :
  volume_rows n st = [x] ->
  exists before row after,
    instances st = before ++ row :: after
    /\ inst_id row = Some n
    /\ Forall (fun i => inst_id i <> Some n) (before ++ after)
    /\ attr (inst_attrs row) "volume" = x.
Proof.
  unfold volume_rows. intros H.
  destruct (List.filter (inst_has_id n) (instances st)) as [|row [|r2 l]] eqn:E;
    try discriminate.
  injection H as Hx.
  apply filter_single_inv in E as (before & after & Hst & Hrow & Hrest).
  exists before, row, after. split; [exact Hst|].
  unfold inst_has_id in Hrow. apply bool_decide_eq_true_1 in Hrow.
  split; [exact Hrow|]. split; [|exact Hx].
  eapply Forall_impl; [exact Hrest|]. intros i Hi. unfold inst_has_id in Hi.
  now apply bool_decide_eq_false_1 in Hi.
Qed.

(** C8. When the identifier collaborator returns a candidate, which is one
    row of the session, and the payload has a volume, the candidate is kept
    if the volume stored in that row equals the incoming one and dropped
    otherwise; without an incoming volume the candidate is returned as it
    is. *)
Theorem lookupInstance_volume (identifiers : list IdenData)
    (volume : option pystr) (candidate : nat) (st : Store) (e : Ext)
    (before after : list InstanceObj) (row : InstanceObj) :
  Identifier_getByIdentifier OwnerInstance identifiers st
    = (e, Ok (Some candidate)) ->
  instances st = before ++ row :: after ->
  inst_id row = Some candidate ->
  Forall (fun i => inst_id i <> Some candidate) (before ++ after) ->
  lookupInstance identifiers volume st
  = (set_ext e st,
     Ok (match volume with
         | Some v =>
             if bool_decide (attr (inst_attrs row) "volume" = Some v)
             then Some candidate else None
         | None => Some candidate
         end)).
Proof.
  intros Hcand Hst Hrow Hrest. unfold lookupInstance, bindM, call.
  rewrite Hcand.
  destruct volume as [v|]; [|reflexivity].
  unfold get_store. change (volume_rows candidate (set_ext e st))
    with (volume_rows candidate st).
  rewrite (volume_rows_of_row candidate st before after row Hst Hrow Hrest).
  cbn [one_or_none ret].
  destruct (bool_decide (attr (inst_attrs row) "volume" = Some v)); reflexivity.
Qed.

End InstanceLookup.

(** ** Properties of the session that the reconciliation keeps *)

Section StoreFrame.
Context `{C : Collaborators} (P : Store -> Prop)
        (good : (InstanceObj -> InstanceObj) -> Prop) `{!Framed P good}.

Lemma frame_call {A} (q : Query A) : keeps P (call q).
Proof. apply keeps_call. intros st e. apply framed_ext. Qed.

Lemma frame_log r : keeps P (modify_store (add_log r)).
Proof. apply keeps_modify_store. intros st. apply framed_log. Qed.

Lemma frame_update_agent n f : keeps P (update_agent n f).
Proof.
  apply keeps_modify_store. intros st. apply (framed_agents st _ (next_id st)).
Qed.

Lemma frame_persist_agent a : keeps P (persist_agent a).
Proof.
  destruct a as [n|o]; cbn [persist_agent]; [apply keeps_ret|].
  apply keeps_bindM; [apply keeps_get_store|]. intros st0.
  apply keeps_bindM; [|intros; apply keeps_ret].
  apply keeps_modify_store. intros st. apply framed_agents.
Qed.

Lemma frame_modify_inst r f : good f -> keeps P (modify_inst r f).
Proof.
  intros Hf. destruct r; cbn [modify_inst]; [|apply keeps_ret].
  apply keeps_bindM; [|intros; apply keeps_ret].
  apply keeps_modify_store. intros st. now apply framed_inst.
Qed.

Ltac frame_step :=
  first
    [ apply frame_call
    | apply frame_log
    | apply frame_update_agent
    | apply frame_persist_agent
    | apply frame_modify_inst;
        first [ apply good_agent_role | apply good_identifier
              | apply good_language | apply good_item | apply good_alt_title
              | apply good_measurement | apply good_date | apply good_link
              | apply good_right | apply good_lists ]
    | keeps_step ].

Lemma frame_lookupAgent agent : keeps P (lookupAgent agent).
Proof.
  unfold lookupAgent, lookupByAuthority, lookupByName, getitem.
  repeat frame_step.
Qed.

Lemma frame_Agent_update n agent aliases link dates :
  keeps P (Agent_update n agent aliases link dates).
Proof.
  unfold Agent_update, Alias_insertOrSkip, append_agent_link, append_agent_date.
  repeat frame_step.
Qed.

Lemma frame_Agent_insert agent aliases link dates :
  keeps P (Agent_insert agent aliases link dates).
Proof. unfold Agent_insert, getitem. repeat frame_step. Qed.

Lemma frame_Agent_updateOrInsert agent : keeps P (Agent_updateOrInsert agent).
Proof.
  unfold Agent_updateOrInsert, getitem.
  repeat first
    [ apply frame_lookupAgent
    | apply frame_Agent_update
    | apply frame_Agent_insert
    | frame_step ].
Qed.

Lemma frame_addAgents instance agents : keeps P (_addAgents instance agents).
Proof.
  unfold _addAgents. apply keeps_fold_M. intros s x.
  unfold addAgent, addAgentRole, roleExists, one_or_none, new_AgentInstances.
  repeat first [ apply frame_Agent_updateOrInsert | frame_step ].
Qed.

Lemma frame_addIdentifiers instance identifiers :
  keeps P (_addIdentifiers instance identifiers).
Proof.
  unfold _addIdentifiers. apply keeps_fold_M. intros s x.
  unfold addIdentifier. repeat frame_step.
Qed.

Lemma frame_addLanguages instance languages :
  keeps P (_addLanguages instance languages).
Proof.
  unfold _addLanguages.
  destruct languages; [apply keeps_ret| |]; apply keeps_fold_M; intros ? ?;
    unfold addLanguage; repeat frame_step.
Qed.

Lemma frame_addItems instance items : keeps P (_addItems instance items).
Proof.
  unfold _addItems. apply keeps_fold_M. intros s x.
  unfold addItem. repeat frame_step.
Qed.

Lemma frame_addAltTitles instance altTitles :
  keeps P (_addAltTitles instance altTitles).
Proof. unfold _addAltTitles. repeat frame_step. Qed.

Lemma frame_reconcileChildren existing instance :
  keeps P (reconcileChildren existing instance).
Proof.
  unfold reconcileChildren.
  repeat first
    [ apply frame_addAgents
    | apply frame_addIdentifiers
    | apply frame_addLanguages
    | apply frame_addItems
    | apply frame_addAltTitles
    | progress unfold addMeasurement, addDate, addLink, addRights
    | frame_step ].
Qed.

Lemma frame_Instance_insert instanceData :
  keeps P (Instance_insert instanceData).
Proof.
  unfold Instance_insert.
  repeat first
    [ apply frame_addAgents
    | apply frame_addIdentifiers
    | apply frame_addLanguages
    | apply frame_addItems
    | apply frame_addAltTitles
    | frame_step ].
Qed.

Lemma frame_lookupInstance identifiers volume :
  keeps P (lookupInstance identifiers volume).
Proof. unfold lookupInstance, one_or_none. repeat frame_step. Qed.

End StoreFrame.

(** ** The calls made on works *)

Section WorkCalls.
Context `{C : Collaborators}.

#[local] Instance calls_framed (w : list WorkCall) :
  Framed (calls_are w) (fun _ => True).
Proof. split; intros; auto. Qed.

(** C4, the insert entry point.  [Instance.insert] makes no call on any
    work: [series], [series_position] and [subjects] are taken out of the
    payload and go nowhere. *)
Theorem insert_never_delegates (instanceData : InstancePayload) (st : Store) :
  work_calls (Instance_insert instanceData st).1 = work_calls st.
Proof.
  exact (frame_Instance_insert (calls_are (work_calls st)) (fun _ => True)
           instanceData st eq_refl).
Qed.

End WorkCalls.

Section ScalarRules.
Context `{C : Collaborators}.

(** X1. The scalar rule of [Agent.update]: a field of the payload replaces the
    attribute of the row when its value is a string that is not blank, and
    leaves it as it was otherwise, whatever happens to the children. *)
Theorem Agent_update_scalar_rule (n : nat) (agent : fields)
    (aliases : option (list pystr)) (link : LinkArg) (dates : list DateData)
    (st : Store) (a : AgentObj) (field : string) (value : option pystr) :
  get_agent n st = Some a ->
  agent !! field = Some value ->
  exists a',
    get_agent n (Agent_update n agent aliases link dates st).1 = Some a'
    /\ agent_attrs a' !! field
       = match value with
         | Some v => if pystr_eqb (py_strip v) [] then agent_attrs a !! field
                     else Some value
         | None => agent_attrs a !! field
         end.
Proof.
  intros Hget Hfield.
  pose proof (Agent_update_attrs n agent aliases link dates st) as H.
  unfold attrs_of in H. rewrite Hget in H. cbn [option_map] in H.
  destruct (get_agent n (Agent_update n agent aliases link dates st).1)
    as [a'|]; cbn [option_map] in H; [|discriminate].
  assert (H' : agent_attrs a' = setFields agent_value_ok agent (agent_attrs a))
    by congruence.
  clear H. rename H' into H. exists a'. split; [reflexivity|].
  rewrite H, setFields_lookup, Hfield. unfold agent_value_ok.
  destruct value as [v|]; [|reflexivity].
  now destruct (pystr_eqb (py_strip v) []).
Qed.

Lemma dedupRoles_NoDup (roles : list pystr) : NoDup (dedupRoles roles).
Proof.
  unfold dedupRoles. rewrite set_order_perm. apply NoDup_remove_dups.
Qed.

Lemma dedupRoles_elem (roles : list pystr) (r : pystr) :
  In r (dedupRoles roles) <-> In r (map py_lower roles).
Proof.
  unfold dedupRoles. rewrite <- !list_elem_of_In, set_order_perm.
  apply elem_of_remove_dups.
Qed.

(** X3. [Agent.updateOrInsert] returns its roles as a list without
    repeats, never as [None]. *)
Theorem updateOrInsert_roles_is_list (agent : AgentPayload) (st st' : Store)
    (ref : AgentRef) (roles : option (list pystr)) :
  Agent_updateOrInsert agent st = (st', Ok (ref, roles)) ->
  exists l, roles = Some l /\ NoDup l.
Proof.
  unfold Agent_updateOrInsert.
  unfold bindM at 1. unfold lift at 1.
  destruct (_cleanName _ _ _) as [[[fs' roles'] dates']|e]; [|discriminate].
  unfold bindM at 1. unfold getitem.
  destruct (fs' !! "name") as [[name|]|]; try discriminate.
  unfold ret at 1. destruct (length (py_strip name) <? 1); [discriminate|].
  unfold bindM at 1.
  destruct (lookupAgent fs' st) as [st1 [[n|]|e]]; try discriminate.
  - unfold bindM at 1. unfold get_store at 1.
    destruct (get_agent n st1); [|discriminate].
    unfold bindM at 1.
    destruct (Agent_update _ _ _ _ _ _) as [st2 [upd|e]]; [|discriminate].
    unfold ret. intros [= _ _ <-]. eexists. split; [reflexivity|].
    apply dedupRoles_NoDup.
  - unfold bindM at 1.
    destruct (Agent_insert _ _ _ _ _) as [st2 [new|e]]; [|discriminate].
    unfold ret. intros [= _ _ <-]. eexists. split; [reflexivity|].
    apply dedupRoles_NoDup.
Qed.

End ScalarRules.

Section WorkDelegation.
Context `{C : Collaborators}.

Lemma find_modify_inst (n : nat) (f : InstanceObj -> InstanceObj)
    (l : list InstanceObj) :
  (forall i, inst_id (f i) = inst_id i) ->
  find (inst_has_id n) (map (fun i => if inst_has_id n i then f i else i) l)
  = option_map f (find (inst_has_id n) l).
Proof.
  intros Hf. induction l as [|i l IH]; [reflexivity|]. cbn [map find].
  destruct (inst_has_id n i) eqn:E.
  - unfold inst_has_id in *. rewrite Hf, E. reflexivity.
  - rewrite E. exact IH.
Qed.

Lemma find_modify_other (n m : nat) (f : InstanceObj -> InstanceObj)
    (l : list InstanceObj) :
  keeps_attrs f ->
  option_map inst_attrs
    (find (inst_has_id n) (map (fun i => if inst_has_id m i then f i else i) l))
  = option_map inst_attrs (find (inst_has_id n) l).
Proof.
  intros Hf. induction l as [|i l IH]; [reflexivity|]. cbn [map find].
  destruct (Hf i) as [Hid Hat].
  destruct (inst_has_id m i).
  - unfold inst_has_id at 1. rewrite Hid. fold (inst_has_id n i).
    destruct (inst_has_id n i); cbn [option_map]; [now rewrite Hat | exact IH].
  - destruct (inst_has_id n i); [reflexivity | exact IH].
Qed.

#[local] Instance inst_attrs_framed (n : nat) (x : option fields) :
  Framed (inst_attrs_are n x) keeps_attrs.
Proof.
  split; try (intros; split; reflexivity); try (intros; assumption).
  intros st m f Hf H. unfold inst_attrs_are, get_instance in *.
  cbn [instances set_instances]. now rewrite find_modify_other.
Qed.

#[local] Instance work_calls_framed (w : list WorkCall) :
  Framed (calls_are w) (fun _ => True).
Proof. split; intros; auto. Qed.

Hypothesis updateFields_returns :
  forall w s p st, (Work_updateFields w s p st).2 = Ok tt.
Hypothesis importSubjects_returns :
  forall w subjects st, (Work_importSubjects w subjects st).2 = Ok tt.

Lemma delegateToWork_calls (w : Work) (instance : InstancePayload) (st : Store) :
  exists st', delegateToWork w instance st = (st', Ok tt)
              /\ work_calls st' = work_calls st ++ delegated_calls w instance
              /\ instances st' = instances st.
Proof.
  unfold delegateToWork, bindM, modify_store, call.
  cbn [add_work_call].
  match goal with
  | |- context [Work_updateFields ?w ?s ?p ?x] =>
      pose proof (updateFields_returns w s p x) as H1;
      destruct (Work_updateFields w s p x) as [e1 r1]
  end.
  cbn [snd] in H1. subst r1.
  match goal with
  | |- context [Work_importSubjects ?w ?s ?x] =>
      pose proof (importSubjects_returns w s x) as H2;
      destruct (Work_importSubjects w s x) as [e2 r2]
  end.
  cbn [snd] in H2. subst r2.
  eexists. split; [reflexivity|]. cbn. split; [|reflexivity].
  now rewrite <- app_assoc.
Qed.

(** [Instance.update] on a row: the delegation to the parent work, the
    scalar loop, and then the children. *)
Lemma Instance_update_steps (n : nat) (instance : InstancePayload) (st : Store)
    (obj : InstanceObj) :
  get_instance n st = Some obj ->
  exists st1 st2,
    work_calls st1 = work_calls st ++ delegation obj instance
    /\ instances st1 = instances st
    /\ st2 = set_instances
               (map (fun i =>
                       if inst_has_id n i
                       then inst_with_attrs
                              (setFields instance_value_ok (scalar_fields instance)) i
                       else i)
                    (instances st1)) st1
    /\ Instance_update (InstId n) instance st
       = reconcileChildren (InstId n) instance st2.
Proof.
  intros Hget. unfold Instance_update.
  unfold bindM at 1. cbn [deref]. unfold bindM at 1, get_store at 1.
  rewrite Hget. unfold ret at 1. unfold delegation.
  unfold bindM at 1.
  destruct (inst_work obj) as [w|].
  - destruct (delegateToWork_calls w instance st) as (st1 & -> & Hc & Hi).
    exists st1. eexists. split; [exact Hc|]. split; [exact Hi|].
    split; reflexivity.
  - exists st. eexists. rewrite app_nil_r. repeat split; reflexivity.
Qed.

Lemma Instance_update_work_calls (n : nat) (instance : InstancePayload)
    (st : Store) (obj : InstanceObj) :
  get_instance n st = Some obj ->
  work_calls (Instance_update (InstId n) instance st).1
  = work_calls st ++ delegation obj instance.
Proof.
  intros Hget.
  destruct (Instance_update_steps n instance st obj Hget)
    as (st1 & st2 & Hc & _ & Hst2 & ->).
  rewrite <- Hc.
  apply (frame_reconcileChildren (calls_are (work_calls st1)) (fun _ => True)
           (InstId n) instance st2).
  now subst st2.
Qed.

(** X2. The scalar rule of [Instance.update], the calls on the parent work
    returning: a field of the payload other than [series] and
    [series_position] replaces the attribute of the row when its value is
    not [None], the empty string included, and leaves it as it was
    otherwise, whatever happens to the children. *)
Theorem Instance_update_scalar_rule (n : nat) (instance : InstancePayload)
    (st : Store) (obj : InstanceObj) (field : string) (value : option pystr) :
  get_instance n st = Some obj ->
  scalar_fields instance !! field = Some value ->
  exists obj',
    get_instance n (Instance_update (InstId n) instance st).1 = Some obj'
    /\ inst_attrs obj' !! field
       = match value with
         | Some v => Some (Some v)
         | None => inst_attrs obj !! field
         end.
Proof.
  intros Hget Hfield.
  destruct (Instance_update_steps n instance st obj Hget)
    as (st1 & st2 & _ & Hi & Hst2 & ->).
  assert (H2 : get_instance n st2
               = Some (inst_with_attrs
                         (setFields instance_value_ok (scalar_fields instance)) obj)).
  { subst st2. unfold get_instance in *. cbn [instances set_instances].
    rewrite find_modify_inst by reflexivity. now rewrite Hi, Hget. }
  pose proof (frame_reconcileChildren
                (inst_attrs_are n (option_map inst_attrs (get_instance n st2)))
                keeps_attrs (InstId n) instance st2 eq_refl) as H.
  unfold inst_attrs_are in H. rewrite H2 in H. cbn [option_map inst_attrs inst_with_attrs] in H.
  destruct (get_instance n (reconcileChildren (InstId n) instance st2).1)
    as [obj'|]; cbn [option_map] in H; [|discriminate].
  exists obj'. split; [reflexivity|].
  assert (H' : inst_attrs obj'
               = setFields instance_value_ok (scalar_fields instance)
                   (inst_attrs obj)) by congruence.
  rewrite H', setFields_lookup, Hfield. now destruct value.
Qed.

(** X4. On an instance that has a parent work, [Instance.update] calls
    [updateFields] with the series and its position and then
    [importSubjects] with the subjects, on that work, and makes no other
    call on a work. *)
Theorem update_delegates_to_work (n : nat) (instance : InstancePayload)
    (st : Store) (obj : InstanceObj) (w : Work) :
  get_instance n st = Some obj ->
  inst_work obj = Some w ->
  work_calls (Instance_update (InstId n) instance st).1
  = work_calls st ++ [CallUpdateFields w (attr (ip_fields instance) "series")
                        (attr (ip_fields instance) "series_position");
                      CallImportSubjects w (ip_subjects instance)].
Proof.
  intros Hget Hwork.
  rewrite (Instance_update_work_calls n instance st obj Hget).
  unfold delegation. now rewrite Hwork.
Qed.

(** X5. When the resolved instance has no parent work and the caller
    supplies one, [Instance.updateOrInsert] links it before it merges, so
    the calls go to the supplied work. *)
Theorem updateOrInsert_links_work_first (instance : InstancePayload)
    (identifiers : list IdenData) (w : Work) (st st1 : Store) (n : nat)
    (obj : InstanceObj) :
  ip_identifiers instance = Some identifiers ->
  lookupInstance identifiers (attr (ip_fields instance) "volume") st
    = (st1, Ok (Some n)) ->
  get_instance n st1 = Some obj ->
  inst_work obj = None ->
  work_calls (Instance_updateOrInsert instance (Some w) st).1
  = work_calls st ++ delegated_calls w instance.
Proof.
  intros Hids Hlook Hget Hwork.
  pose proof (frame_lookupInstance (calls_are (work_calls st)) (fun _ => True)
                identifiers (attr (ip_fields instance) "volume") st eq_refl)
    as Hcalls.
  rewrite Hlook in Hcalls. cbn [fst] in Hcalls. unfold calls_are in Hcalls.
  unfold Instance_updateOrInsert. rewrite Hids.
  unfold bindM at 1. rewrite Hlook.
  unfold bindM at 1. cbn [deref]. unfold bindM at 1, get_store at 1.
  rewrite Hget. unfold ret at 1. rewrite Hwork.
  unfold bindM at 1. cbn [modify_inst]. unfold bindM at 1, modify_store at 1.
  unfold ret at 1.
  set (st2 := set_instances _ st1).
  assert (Hget2 : get_instance n st2 = Some (inst_set_work (Some w) obj)).
  { subst st2. unfold get_instance in *. cbn [instances set_instances].
    rewrite find_modify_inst by reflexivity. now rewrite Hget. }
  pose proof (Instance_update_work_calls n instance st2 _ Hget2) as Hupd.
  unfold delegation in Hupd. cbn [inst_work inst_set_work] in Hupd.
  unfold bindM at 1.
  destruct (Instance_update (InstId n) instance st2) as [st3 [r|e]];
    unfold ret; cbn [fst] in *; rewrite Hupd; subst st2;
    cbn [work_calls set_instances]; now rewrite Hcalls.
Qed.

End WorkDelegation.

Section Scenarios.
#[local] Existing Instance unit_types.
#[local] Existing Instance exact_names.

(** C1, on an instance.  Merging a payload whose [title] is the empty
    string, or only spaces, into the instance 1 replaces the stored title
    "Old": [Instance.update] tests the value against [None] only. *)
Theorem Instance_update_blanks_title :
  title_of 1 session0 = Some (Some (str "Old"))
  /\ title_of 1 (Instance_update (InstId 1)
                   (no_children {[ "title" := Some (str "") ]}) session0).1
     = Some (Some (str ""))
  /\ title_of 1 (Instance_update (InstId 1)
                   (no_children {[ "title" := Some (str "  ") ]}) session0).1
     = Some (Some (str "  ")).
Proof. repeat split; vm_compute; reflexivity. Qed.

(** C3.  An agent whose parsed roles are empty gets no role at all on the
    instance: [updateOrInsert] returns the empty list, never [None], so the
    default is not taken and the session stays as it was. *)
Theorem addAgents_without_roles :
  _addAgents (InstId 1) [john_smith [] []] session0
  = (session0, Ok (InstId 1))
  /\ all_agent_roles session0 = [(Some 1, [])].
Proof. split; vm_compute; reflexivity. Qed.

(** C6.  The first merge of John Smith with the alias O'Hara into the
    instance 1 stores the agent 10 with that alias; the same merge run
    again appends a second alias row, the alias with its quote doubled. *)
Theorem second_merge_adds_alias :
  let payload :=
    with_agents [john_smith [str "Author"] [str "O'Hara"]] in
  let first := Instance_update (InstId 1) payload session0 in
  let second := Instance_update (InstId 1) payload first.1 in
  first.2 = Ok (InstId 1) /\ second.2 = Ok (InstId 1)
  /\ all_agent_roles first.1 = [(Some 1, [(Some 10, str "author")])]
  /\ all_agent_roles second.1 = [(Some 1, [(Some 10, str "author")])]
  /\ all_aliases first.1 = [(Some 10, [str "O'Hara"])]
  /\ all_aliases second.1 = [(Some 10, [str "O'Hara"; str "O''Hara"])].
Proof. repeat split; vm_compute; reflexivity. Qed.

(** With the alias listed twice in the payload, the second merge appends
    the same alias row twice. *)
Lemma second_merge_duplicates_alias :
  let payload :=
    with_agents [john_smith [str "Author"] [str "O'Hara"; str "O'Hara"]] in
  let first := Instance_update (InstId 1) payload session0 in
  let second := Instance_update (InstId 1) payload first.1 in
  second.2 = Ok (InstId 1)
  /\ all_aliases second.1
     = [(Some 10, [str "O'Hara"; str "O'Hara"; str "O''Hara"; str "O''Hara"])].
Proof. repeat split; vm_compute; reflexivity. Qed.

(** The third merge changes nothing any more. *)
Lemma third_merge_is_stable :
  let payload :=
    with_agents [john_smith [str "Author"] [str "O'Hara"]] in
  let first := Instance_update (InstId 1) payload session0 in
  let second := Instance_update (InstId 1) payload first.1 in
  Instance_update (InstId 1) payload second.1 = second.
Proof. vm_compute. reflexivity. Qed.

(** C2 on the scenario: the payload John Smith, "v9", resolves in the
    authority step to Jane Doe, "v1", with whom it shares neither an
    identifier nor a name. *)
Lemma lookupAgent_matches_missing_identifier_witness :
  lookupAgent (ap_fields smith_v9) session_doe
  = (session_doe, Ok (agent_id jane_doe))
  /\ agent_id jane_doe = Some 7
  /\ attr (ap_fields smith_v9) "viaf" = Some (str "v9")
  /\ attr (agent_attrs jane_doe) "viaf" = Some (str "v1")
  /\ fuzzy_match (str "Smith, John") jane_doe = false.
Proof.
  split; [|repeat split; vm_compute; reflexivity].
  refine (lookupAgent_matches_missing_identifier (C := exact_names)
            (ap_fields smith_v9) (Some (str "v9")) None session_doe [] []
            jane_doe eq_refl eq_refl eq_refl eq_refl _ _).
  - right. split; reflexivity.
  - constructor.
Defined.

(** The merge that follows writes John Smith over Jane Doe. *)
Example smith_overwrites_doe :
  let out := Agent_updateOrInsert smith_v9 session_doe in
  out.2 = Ok (AgentId 7, Some [])
  /\ option_map (fun a => (attr (agent_attrs a) "name",
                           attr (agent_attrs a) "viaf"))
                (get_agent 7 out.1)
     = Some (Some (str "Smith, John"), Some (str "v9")).
Proof. repeat split; vm_compute; reflexivity. Qed.

(** The fall-through of the authority step.  The payload carries the
    identifiers "v1" and "n1"; the only stored agent carries "v2" and "n2"
    and the same name; the lookup returns that agent, by its name. *)
Lemma lookupAgent_returns_other_identifier :
  let agent : fields :=
    {[ "name" := Some (str "Smith, John"); "viaf" := Some (str "v1");
       "lcnaf" := Some (str "n1") ]} in
  lookupAgent agent session_smith = (session_smith, Ok (Some 7))
  /\ agents session_smith = [other_smith]
  /\ agent_id other_smith = Some 7
  /\ authority_match (Some (str "v1")) (Some (str "n1")) other_smith = false.
Proof. repeat split; vm_compute; reflexivity. Qed.

Lemma cleanName_lifespan_witness :
  exists pre post,
    unwrapName (with_lifespan (str "Smith, John") (str "1920") (Some (str "1995")))
      = pre ++ lifespan_text (str "1920") (Some (str "1995")) ++ post
    /\ parseLifespan (pre ++ lifespan_text (str "1920") (Some (str "1995")) ++ post) []
       = (pre ++ post, [] ++ lifespan_dates (str "1920") (Some (str "1995")))
    /\ let cleaned :=
         py_strip_chars name_punct (parseRoles (pre ++ post) []).1 in
       _cleanName {[ "name" := Some (str "Smith, John [1920-1995]") ]} [] []
       = Ok (<["sort_name" := Some cleaned]>
               (<["name" := Some cleaned]>
                  {[ "name" := Some (str "Smith, John [1920-1995]") ]}),
             (parseRoles (pre ++ post) []).2,
             [] ++ lifespan_dates (str "1920") (Some (str "1995"))).
Proof.
  apply (cleanName_lifespan
           {[ "name" := Some (str "Smith, John [1920-1995]") ]} [] []
           (str "Smith, John") (str "1920") (Some (str "1995")));
    [split; reflexivity | split; reflexivity | reflexivity | reflexivity].
Defined.

(** C7, as stated, on a name that holds a lifespan before the bracketed
    one: the search takes the leftmost match, so the dates are those of
    the first lifespan and the bracketed years stay in the name. *)
Lemma cleanName_takes_leftmost_lifespan :
  with_lifespan (str "Smith 1900-1950") (str "1920") (Some (str "1995"))
  = str "Smith 1900-1950 [1920-1995]"
  /\ _cleanName {[ "name" := Some (str "Smith 1900-1950 [1920-1995]") ]} [] []
     = Ok ({[ "name" := Some (str "Smith  [1920-1995");
              "sort_name" := Some (str "Smith  [1920-1995") ]},
           [],
           [birth_date_rec (str "1900"); death_date_rec (str "1950")]).
Proof. split; vm_compute; reflexivity. Qed.

(** The scenarios of the specification. *)
Example cleanName_smith :
  _cleanName {[ "name" := Some (str "Smith, John [1920-1995]") ]} [] []
  = Ok ({[ "name" := Some (str "Smith, John");
           "sort_name" := Some (str "Smith, John") ]},
        [],
        [birth_date_rec (str "1920"); death_date_rec (str "1995")]).
Proof. vm_compute. reflexivity. Qed.

Example cleanName_birth_only :
  _cleanName {[ "name" := Some (str "Smith, John [1920-]") ]} [str "editor"] []
  = Ok ({[ "name" := Some (str "Smith, John");
           "sort_name" := Some (str "Smith, John") ]},
        [str "editor"],
        [birth_date_rec (str "1920")]).
Proof. vm_compute. reflexivity. Qed.

Lemma lookupInstance_volume_witness :
  lookupInstance [tt] (Some (str "2")) session_work = (session_work, Ok None)
  /\ lookupInstance [tt] (Some (str "1")) session_work
     = (session_work, Ok (Some 1))
  /\ lookupInstance [tt] None session_work = (session_work, Ok (Some 1)).
Proof.
  assert (Hrest : Forall (fun i : InstanceObj => inst_id i <> Some 1)
                         ([] ++ [instance_two])).
  { constructor; [discriminate | constructor]. }
  split; [|split].
  - exact (lookupInstance_volume (C := exact_names) [tt] (Some (str "2")) 1
             session_work tt [] [instance_two] instance_one
             eq_refl eq_refl eq_refl Hrest).
  - exact (lookupInstance_volume (C := exact_names) [tt] (Some (str "1")) 1
             session_work tt [] [instance_two] instance_one
             eq_refl eq_refl eq_refl Hrest).
  - exact (lookupInstance_volume (C := exact_names) [tt] None 1
             session_work tt [] [instance_two] instance_one
             eq_refl eq_refl eq_refl Hrest).
Defined.

Lemma blank_name_is_skipped_witness :
  ((Agent_updateOrInsert nameless session0).2 = Raise DataError
   <-> name_is_blank nameless = true)
  /\ (name_is_blank nameless = true ->
      forall (instance : InstRef) (rest : list AgentPayload),
        _addAgents instance (nameless :: rest) session0
        = _addAgents instance rest
            (add_log (LogUnableToReadAgent (cleanedName nameless)) session0)).
Proof.
  apply (blank_name_is_skipped (C := exact_names)); intros; discriminate.
Defined.

(** The nameless agent is skipped with a warning, the agent after it is
    stored and linked. *)
Example nameless_then_smith :
  let out := _addAgents (InstId 1) [nameless; john_smith [str "Editor"] []]
                        session0 in
  out.2 = Ok (InstId 1)
  /\ log out.1 = [LogUnableToReadAgent (Some [])]
  /\ all_agent_roles out.1 = [(Some 1, [(Some 10, str "editor")])].
Proof. repeat split; vm_compute; reflexivity. Qed.

Lemma updateOrInsert_drops_lifespan_keys_witness :
  let run := Agent_updateOrInsert smith_born_1850 session_smith in
  Agent_updateOrInsert (without_lifespan_keys smith_born_1850) session_smith
  = (run.1, Ok (AgentId 7, Some []))
  /\ exists a a', get_agent 7 session_smith = Some a
                  /\ get_agent 7 run.1 = Some a'
                  /\ agent_attrs a' !! "birth_date" = agent_attrs a !! "birth_date".
Proof.
  apply (updateOrInsert_drops_lifespan_keys (C := exact_names)
           smith_born_1850 session_smith _ (AgentId 7) (Some []) "birth_date");
    [left; reflexivity | vm_compute; reflexivity].
Defined.

Example stored_birth_date_stays :
  option_map (fun a => attr (agent_attrs a) "birth_date")
    (get_agent 7 (Agent_updateOrInsert smith_born_1850 session_smith).1)
  = Some (Some (str "1900")).
Proof. vm_compute. reflexivity. Qed.

(** C4 on a scenario: a payload with a series and no identifier is
    inserted; the work 5 supplied by the caller receives no call and the
    new instance has no parent work. *)
Example insert_drops_series :
  let payload := no_children {[ "title" := Some (str "New");
                                "series" := Some (str "Annals") ]} in
  let out := Instance_updateOrInsert payload (Some 5) session0 in
  work_calls out.1 = []
  /\ exists i, out.2 = Ok (NewInst i, inserted)
              /\ inst_work i = None
              /\ inst_attrs i = {[ "title" := Some (str "New") ]}.
Proof. split; [|eexists; repeat split]; vm_compute; reflexivity. Qed.

Lemma Agent_update_scalar_rule_witness :
  let payload : fields :=
    {[ "name" := Some (str "Smith, J."); "biography" := Some (str "  ") ]} in
  (exists a',
     get_agent 7 (Agent_update 7 payload (Some []) LinkOther [] session_smith).1
       = Some a'
     /\ agent_attrs a' !! "name" = Some (Some (str "Smith, J.")))
  /\ (exists a',
     get_agent 7 (Agent_update 7 payload (Some []) LinkOther [] session_smith).1
       = Some a'
     /\ agent_attrs a' !! "biography" = None).
Proof.
  split.
  - exact (Agent_update_scalar_rule (C := exact_names) 7
             {[ "name" := Some (str "Smith, J."); "biography" := Some (str "  ") ]}
             (Some []) LinkOther [] session_smith other_smith "name"
             (Some (str "Smith, J.")) eq_refl eq_refl).
  - exact (Agent_update_scalar_rule (C := exact_names) 7
             {[ "name" := Some (str "Smith, J."); "biography" := Some (str "  ") ]}
             (Some []) LinkOther [] session_smith other_smith "biography"
             (Some (str "  ")) eq_refl eq_refl).
Defined.

Lemma Instance_update_scalar_rule_witness :
  exists obj',
    get_instance 2
      (Instance_update (InstId 2)
         (no_children {[ "title" := Some (str ""); "series" := Some (str "Annals") ]})
         session_work).1 = Some obj'
    /\ inst_attrs obj' !! "title" = Some (Some (str "")).
Proof.
  exact (Instance_update_scalar_rule (C := exact_names)
           (fun _ _ _ _ => eq_refl) (fun _ _ _ => eq_refl) 2
           (no_children {[ "title" := Some (str ""); "series" := Some (str "Annals") ]})
           session_work instance_two "title" (Some (str "")) eq_refl eq_refl).
Defined.

Lemma updateOrInsert_roles_is_list_witness :
  exists l, Some [str "author"; str "editor"] = Some l /\ NoDup l.
Proof.
  apply (updateOrInsert_roles_is_list (C := exact_names)
           (john_smith [str "Editor"; str "AUTHOR"; str "editor"] [])
           session0
           (Agent_updateOrInsert
              (john_smith [str "Editor"; str "AUTHOR"; str "editor"] [])
              session0).1
           (NewAgent (mkAgent None
                        {[ "name" := Some (str "Smith, John");
                           "sort_name" := Some (str "Smith, John");
                           "viaf" := Some (str "v1"); "lcnaf" := None ]}
                        [] [] []))).
  vm_compute. reflexivity.
Defined.

Lemma update_delegates_to_work_witness :
  let payload := no_children {[ "series" := Some (str "Annals");
                                "series_position" := Some (str "3") ]} in
  work_calls (Instance_update (InstId 2) payload session_work).1
  = [] ++ [CallUpdateFields 5 (Some (str "Annals")) (Some (str "3"));
           CallImportSubjects 5 []].
Proof.
  exact (update_delegates_to_work (C := exact_names)
           (fun _ _ _ _ => eq_refl) (fun _ _ _ => eq_refl) 2
           (no_children {[ "series" := Some (str "Annals");
                           "series_position" := Some (str "3") ]})
           session_work instance_two 5 eq_refl eq_refl).
Defined.

Lemma updateOrInsert_links_work_first_witness :
  let payload :=
    mkInstancePayload {[ "series" := Some (str "Annals") ]} [str "History"]
      [] [] (Some [tt]) [] [] [] [] [] LangNone in
  work_calls (Instance_updateOrInsert payload (Some 5) session0).1
  = [] ++ [CallUpdateFields 5 (Some (str "Annals")) None;
           CallImportSubjects 5 [str "History"]].
Proof.
  exact (updateOrInsert_links_work_first (C := exact_names)
           (fun _ _ _ _ => eq_refl) (fun _ _ _ => eq_refl)
           (mkInstancePayload {[ "series" := Some (str "Annals") ]}
              [str "History"] [] [] (Some [tt]) [] [] [] [] [] LangNone)
           [tt] 5 session0 session0 1 instance_one
           eq_refl eq_refl eq_refl eq_refl).
Defined.

End Scenarios.

Section UpdaterRetry.
Variables (Data Record_ : Type) (lookup : Data -> option Record_).

(** C5. When the lookup of the target record returns none: below the
    ceiling of 3 attempts the same event is published to the retry stream
    with one more attempt; at the ceiling nothing is published and the
    lookup fails. *)
Theorem lookup_miss_requeues_then_fails (ev : Updater.Event Data) :
  lookup (Updater.data ev) = None ->
  Updater.MAX_RETRIES = 3
  /\ (Updater.attempts ev < 3 ->
      Updater.lookupRecord lookup ev
      = (Updater.REQUEUED,
         [Updater.mkEvent (Updater.data ev) (Updater.attempts ev + 1)]))
  /\ (Updater.attempts ev = 3 ->
      Updater.lookupRecord lookup ev = (Updater.FAILED, [])).
Proof.
  intros Hmiss. unfold Updater.lookupRecord. rewrite Hmiss.
  split; [reflexivity|]. split.
  - intros Hlt. apply Nat.ltb_lt in Hlt. unfold Updater.MAX_RETRIES.
    now rewrite Hlt.
  - intros ->. reflexivity.
Qed.

End UpdaterRetry.

(** The scenario of the tests: [{data: {}, attempts: 0}] is requeued with
    [attempts = 1]; [{data: {}, attempts: 3}] fails and is not requeued. *)
Lemma lookup_miss_requeues_then_fails_witness :
  let missing : unit -> option unit := fun _ => None in
  Updater.lookupRecord missing (Updater.mkEvent tt 0)
  = (Updater.REQUEUED, [Updater.mkEvent tt 1])
  /\ Updater.lookupRecord missing (Updater.mkEvent tt 3)
     = (Updater.FAILED, []).
Proof.
  split.
  - apply (lookup_miss_requeues_then_fails unit unit (fun _ => None)
             (Updater.mkEvent tt 0) eq_refl). cbn. lia.
  - apply (lookup_miss_requeues_then_fails unit unit (fun _ => None)
             (Updater.mkEvent tt 3) eq_refl). reflexivity.
Defined.

(** ** What [_cleanName] leaves behind *)

Lemma lstrip_by_head (p : ascii -> bool) (s : pystr) :
  match lstrip_by p s with
  | c :: _ => p c = false
  | [] => True
  end.
Proof.
  induction s as [|c s IH]; cbn [lstrip_by]; [exact I|].
  destruct (p c) eqn:E; [exact IH | exact E].
Qed.

(** What is stripped on the right is a suffix. *)
Lemma rstrip_by_prefix (p : ascii -> bool) (s : pystr) :
  exists post, s = rstrip_by p s ++ post.
Proof.
  unfold rstrip_by. destruct (lstrip_by_suffix p (rev s)) as [pre H].
  exists (rev pre). rewrite <- rev_app_distr, <- H. now rewrite rev_involutive.
Qed.

Lemma strip_by_ends (p : ascii -> bool) (s : pystr) :
  ends_outside p (strip_by p s).
Proof.
  unfold ends_outside, first_char, last_char, strip_by. split.
  - pose proof (lstrip_by_head p s) as Hh.
    destruct (rstrip_by_prefix p (lstrip_by p s)) as [post Hp].
    destruct (rstrip_by p (lstrip_by p s)) as [|c t]; [exact I|].
    rewrite Hp in Hh. exact Hh.
  - unfold rstrip_by. rewrite rev_involutive.
    pose proof (lstrip_by_head p (rev (lstrip_by p s))) as Hh.
    now destruct (lstrip_by p (rev (lstrip_by p s))).
Qed.

Lemma lifespan_at_years (s : pystr) (m : LifeMatch) :
  lifespan_at s = Some m ->
  is_year (life_group1 m)
  /\ match life_group2 m with Some d => is_year d | None => True end.
Proof.
  destruct s as [|d1 [|d2 [|d3 [|d4 [|h t]]]]]; cbn [lifespan_at];
    try discriminate.
  destruct (forallb is_digit [d1; d2; d3; d4] && Ascii.eqb h "-") eqn:E;
    [|discriminate].
  apply andb_true_iff in E as [Hd _].
  assert (Hb : is_year [d1; d2; d3; d4]) by (split; [reflexivity | exact Hd]).
  destruct t as [|e1 [|e2 [|e3 [|e4 t]]]];
    try (intros [= <-]; cbn; split; [exact Hb | exact I]).
  destruct (forallb is_digit [e1; e2; e3; e4]) eqn:E2;
    intros [= <-]; cbn [life_group1 life_group2]; split; auto.
  split; [reflexivity | exact E2].
Qed.

Lemma search_lifespan_years (s : pystr) (m : LifeMatch) :
  search_lifespan s = Some m ->
  is_year (life_group1 m)
  /\ match life_group2 m with Some d => is_year d | None => True end.
Proof.
  induction s as [|c s IH]; cbn [search_lifespan].
  - destruct (lifespan_at []) eqn:E; [|discriminate].
    intros [= <-]. now apply (lifespan_at_years []).
  - destruct (lifespan_at (c :: s)) eqn:E.
    + intros [= <-]. now apply (lifespan_at_years (c :: s)).
    + exact IH.
Qed.

Lemma parseLifespan_dates (t : pystr) (dates : list DateData) :
  exists new, (parseLifespan t dates).2 = dates ++ new /\ parsed_dates new.
Proof.
  unfold parseLifespan, parsed_dates.
  destruct (search_lifespan t) as [m|] eqn:E.
  - apply search_lifespan_years in E as [Hb Hd].
    destruct (life_group2 m) as [d|]; cbn [snd].
    + exists [birth_date_rec (life_group1 m); death_date_rec d].
      split; [now rewrite <- app_assoc|]. right. right. eauto.
    + exists [birth_date_rec (life_group1 m)]. split; [reflexivity|].
      right. left. eauto.
  - exists []. split; [now rewrite app_nil_r | now left].
Qed.

Lemma parseRoles_roles (t : pystr) (roles : list pystr) :
  exists new, (parseRoles t roles).2 = roles ++ new.
Proof.
  unfold parseRoles. destruct (search_role t) as [[g0 g1]|]; cbn [snd].
  - eauto.
  - exists []. now rewrite app_nil_r.
Qed.

Lemma cleanName_shape (agent : fields) (roles : list pystr)
    (dates : list DateData) (name : pystr) :
  agent !! "name" = Some (Some name) ->
  exists newRoles newDates,
    _cleanName agent roles dates
    = Ok (<["sort_name" := Some (cleaned_text name)]>
            (<["name" := Some (cleaned_text name)]> agent),
          roles ++ newRoles, dates ++ newDates)
    /\ parsed_dates newDates.
Proof.
  intros Hn. unfold _cleanName, cleaned_text. rewrite Hn.
  rewrite <- (parseLifespan_name _ dates).
  destruct (parseLifespan_dates (unwrapName name) dates) as (nd & Hd & Hnd).
  destruct (parseLifespan (unwrapName name) dates) as [t d]. cbn [fst snd] in *.
  rewrite <- (parseRoles_name _ roles).
  destruct (parseRoles_roles t roles) as (nr & Hr).
  destruct (parseRoles t roles) as [t' r]. cbn [fst snd] in *. subst d r.
  eauto.
Qed.

(** X6. [_cleanName] raises [KeyError] without a name and
    [AttributeError] on a null name; on a string it returns: [name] and
    [sort_name] are set to one and the same cleaned name, which neither
    begins nor ends with a character of the final strip; the roles and the
    dates it was given are kept in front of what it parsed, and what it
    parsed as dates is nothing, a birth date, or a birth date and a death
    date. *)
Theorem cleanName_outcome (agent : fields) (roles : list pystr)
    (dates : list DateData) :
  match agent !! "name" with
  | None => _cleanName agent roles dates = Raise KeyError
  | Some None => _cleanName agent roles dates = Raise AttributeError
  | Some (Some name) =>
      exists cleaned newRoles newDates,
        _cleanName agent roles dates
        = Ok (<["sort_name" := Some cleaned]>
                (<["name" := Some cleaned]> agent),
              roles ++ newRoles, dates ++ newDates)
        /\ ends_outside (in_chars name_punct) cleaned
        /\ parsed_dates newDates
  end.
Proof.
  destruct (agent !! "name") as [[name|]|] eqn:Hn.
  - destruct (cleanName_shape agent roles dates name Hn) as (nr & nd & -> & Hnd).
    exists (cleaned_text name), nr, nd.
    split; [reflexivity|]. split; [apply strip_by_ends | exact Hnd].
  - unfold _cleanName. now rewrite Hn.
  - unfold _cleanName. now rewrite Hn.
Qed.

(** ** What [Agent.updateOrInsert] returns *)

Lemma py_lower_char_idem (c : ascii) :
  py_lower_char (py_lower_char c) = py_lower_char c.
Proof.
  destruct c as [[] [] [] [] [] [] [] []]; reflexivity.
Qed.

Lemma py_lower_idem (s : pystr) : py_lower (py_lower s) = py_lower s.
Proof.
  unfold py_lower. rewrite map_map. apply map_ext. intros c.
  apply py_lower_char_idem.
Qed.

Section UpdateOrInsertResult.
Context `{C : Collaborators}.

(** A run of [updateOrInsert] that returns went through the cleaning, the
    test of the name, the lookup, and then the update or the insert. *)
Lemma updateOrInsert_returns (agent : AgentPayload) (st st' : Store)
    (ref : AgentRef) (roles : option (list pystr)) :
  Agent_updateOrInsert agent st = (st', Ok (ref, roles)) ->
  exists name newRoles newDates,
    popped agent !! "name" = Some (Some name)
    /\ (length (py_strip (cleaned_text name)) <? 1) = false
    /\ roles = Some (dedupRoles (payload_roles agent ++ newRoles))
    /\ parsed_dates newDates
    /\ ((exists n a,
           lookupAgent (cleaned_fields agent name) st = (st, Ok (Some n))
           /\ get_agent n st = Some a
           /\ ref = AgentId n
           /\ Agent_update n (cleaned_fields agent name) (ap_aliases agent)
                (ap_link agent) (payload_dates agent ++ newDates) st
              = (st', Ok ref))
        \/ (lookupAgent (cleaned_fields agent name) st = (st, Ok None)
            /\ Agent_insert (cleaned_fields agent name) (ap_aliases agent)
                 (ap_link agent) (payload_dates agent ++ newDates) st
               = (st', Ok ref))).
Proof.
  unfold Agent_updateOrInsert. fold (popped agent).
  fold (payload_roles agent) (payload_dates agent).
  destruct (popped agent !! "name") as [[name|]|] eqn:Hn.
  2,3: unfold _cleanName; rewrite Hn; discriminate.
  destruct (cleanName_shape (popped agent) (payload_roles agent)
              (payload_dates agent) name Hn) as (nr & nd & -> & Hnd).
  fold (cleaned_fields agent name).
  unfold bindM at 1. unfold lift at 1.
  unfold bindM at 1. unfold getitem.
  unfold cleaned_fields at 1.
  rewrite lookup_insert_ne by discriminate. rewrite lookup_insert_eq.
  unfold ret at 1.
  destruct (length (py_strip (cleaned_text name)) <? 1) eqn:Hblank;
    [discriminate|].
  unfold bindM at 1.
  destruct (lookupAgent (cleaned_fields agent name) st) as [st1 [[n|]|e]]
    eqn:Hlook; try discriminate.
  - pose proof (lookupAgent_returns _ _ _ _ Hlook) as ->.
    unfold bindM at 1. unfold get_store at 1.
    destruct (get_agent n st) as [a|] eqn:Hget; [|discriminate].
    unfold bindM at 1.
    destruct (Agent_update n _ _ _ _ st) as [st2 [upd|e]] eqn:Hupd;
      [|discriminate].
    unfold ret. intros [= <- <- <-].
    assert (upd = AgentId n) as ->.
    { revert Hupd. unfold Agent_update.
      repeat (unfold bindM at 1;
              match goal with
              | |- context [match ?m ?s with _ => _ end] =>
                  destruct (m s) as [? [?|?]]
              end; try discriminate).
      unfold ret. now intros [= _ <-]. }
    exists name, nr, nd. repeat split; auto. left. exists n, a. auto.
  - pose proof (lookupAgent_returns _ _ _ _ Hlook) as ->.
    unfold bindM at 1.
    destruct (Agent_insert _ _ _ _ st) as [st2 [new|e]] eqn:Hins;
      [|discriminate].
    unfold ret. intros [= <- <- <-].
    exists name, nr, nd. repeat split; auto.
Qed.

(** X7. The roles [Agent.updateOrInsert] returns are lower case, and every
    role of the payload is among them in lower case. *)
Theorem updateOrInsert_roles_lowered (agent : AgentPayload) (st st' : Store)
    (ref : AgentRef) (roles : list pystr) :
  Agent_updateOrInsert agent st = (st', Ok (ref, Some roles)) ->
  Forall (fun r => py_lower r = r) roles
  /\ Forall (fun r => In (py_lower r) roles) (payload_roles agent).
Proof.
  intros (name & nr & nd & _ & _ & [= ->] & _)%updateOrInsert_returns.
  split.
  - apply List.Forall_forall. intros r Hr.
    apply dedupRoles_elem, in_map_iff in Hr.
    destruct Hr as (x & <- & _). apply py_lower_idem.
  - apply List.Forall_forall. intros r Hr.
    apply dedupRoles_elem, in_map.
    apply in_or_app. now left.
Qed.


End UpdateOrInsertResult.

(** ** What a computation returns *)

Section Returns.
Context `{C : Collaborators}.

Lemma returns_ret {A} (Q : A -> Prop) (a : A) : Q a -> returns Q (ret a).
Proof. intros H st st' b [= _ <-]. exact H. Qed.

Lemma returns_raise {A} (Q : A -> Prop) e : returns Q (raise e).
Proof. intros st st' b. discriminate. Qed.

Lemma returns_bindM {A B} (Q : B -> Prop) (m : M A) (k : A -> M B) :
  (forall a, returns Q (k a)) -> returns Q (bindM m k).
Proof.
  intros Hk st st' b. unfold bindM.
  destruct (m st) as [st1 [a|e]]; [apply Hk | discriminate].
Qed.

Lemma returns_bindM_from {A B} (R : A -> Prop) (Q : B -> Prop) (m : M A)
    (k : A -> M B) :
  returns R m -> (forall a, R a -> returns Q (k a)) -> returns Q (bindM m k).
Proof.
  intros Hm Hk st st' b. unfold bindM.
  destruct (m st) as [st1 [a|e]] eqn:E; [|discriminate].
  apply Hk. exact (Hm _ _ _ E).
Qed.

Lemma returns_except_DataError {A} (Q : A -> Prop) (m h : M A) :
  returns Q m -> returns Q h -> returns Q (except_DataError m h).
Proof.
  intros Hm Hh st st' a. unfold except_DataError.
  destruct (m st) as [st1 [b|[]]] eqn:E; try discriminate.
  - intros [= <- <-]. exact (Hm _ _ _ E).
  - apply Hh.
Qed.

Lemma returns_fold_M {A S} (Q : S -> Prop) (body : S -> A -> M S)
    (xs : list A) :
  (forall s x, Q s -> returns Q (body s x)) ->
  forall s, Q s -> returns Q (fold_M body s xs).
Proof.
  intros Hb. induction xs as [|x xs IH]; intros s Hs; cbn [fold_M].
  - now apply returns_ret.
  - apply (returns_bindM_from Q); [now apply Hb | intros s' Hs'; now apply IH].
Qed.

(** In a sequence, what comes after [m] may rely on what [m] returns. *)
Lemma keeps_bindM_from {A B} (P : Store -> Prop) (R : A -> Prop) (m : M A)
    (k : A -> M B) :
  keeps P m -> returns R m -> (forall a, R a -> keeps P (k a)) ->
  keeps P (bindM m k).
Proof.
  intros Hm Hr Hk st H. unfold bindM. specialize (Hm st H).
  destruct (m st) as [st' [a|e]] eqn:E; cbn [fst] in *; [|exact Hm].
  apply Hk; [exact (Hr _ _ _ E) | exact Hm].
Qed.

Lemma keeps_fold_M_from {A S} (P : Store -> Prop) (Q : S -> Prop)
    (body : S -> A -> M S) (xs : list A) :
  (forall s x, Q s -> keeps P (body s x)) ->
  (forall s x, Q s -> returns Q (body s x)) ->
  forall s, Q s -> keeps P (fold_M body s xs).
Proof.
  intros Hk Hr. induction xs as [|x xs IH]; intros s Hs; cbn [fold_M].
  - apply keeps_ret.
  - apply (keeps_bindM_from P Q); auto.
Qed.

(** ** The reference the reconciliation hands on *)

Lemma same_instance_refl r : same_instance r r.
Proof. destruct r; cbn; auto. Qed.

Lemma same_instance_trans r1 r2 r3 :
  same_instance r1 r2 -> same_instance r2 r3 -> same_instance r1 r3.
Proof.
  destruct r1, r2, r3; cbn; try tauto; try congruence.
  intros (? & ? & ?) (? & ? & ?). repeat split; congruence.
Qed.

Lemma returns_modify_inst r0 r f :
  keeps_identity f -> same_instance r0 r ->
  returns (same_instance r0) (modify_inst r f).
Proof.
  intros Hf H0. destruct r as [n|i]; cbn [modify_inst].
  - apply returns_bindM. intros _. now apply returns_ret.
  - apply returns_ret. apply (same_instance_trans _ _ _ H0).
    cbn. apply Hf.
Qed.

Ltac identity := intros ?; repeat split; reflexivity.

Lemma returns_addAgent r0 r agent :
  same_instance r0 r -> returns (same_instance r0) (addAgent r agent).
Proof.
  intros H0. unfold addAgent. apply returns_except_DataError.
  - apply returns_bindM. intros [agentRec roles].
    apply (returns_bindM_from (fun out => same_instance r0 out.2)).
    + apply (returns_fold_M (fun out => same_instance r0 out.2)); [|exact H0].
      intros [a inst] role Hs. cbn [snd] in Hs. unfold addAgentRole.
      apply returns_bindM. intros [found|]; [now apply returns_ret|].
      unfold new_AgentInstances. destruct inst as [n|i].
      * apply returns_bindM. intros a'.
        apply (returns_bindM_from (same_instance r0)).
        -- apply returns_modify_inst; [identity | exact Hs].
        -- intros r' Hr'. now apply returns_ret.
      * apply (returns_bindM_from (same_instance r0)).
        -- apply returns_modify_inst; [identity | exact Hs].
        -- intros r' Hr'. now apply returns_ret.
    + intros out Hout. now apply returns_ret.
  - apply returns_bindM. intros _. now apply returns_ret.
Qed.

Lemma returns_addAgents r0 r agents :
  same_instance r0 r -> returns (same_instance r0) (_addAgents r agents).
Proof.
  unfold _addAgents. apply returns_fold_M. intros s x. apply returns_addAgent.
Qed.

Lemma returns_addIdentifiers r0 r identifiers :
  same_instance r0 r ->
  returns (same_instance r0) (_addIdentifiers r identifiers).
Proof.
  unfold _addIdentifiers. apply returns_fold_M. intros s x Hs.
  unfold addIdentifier. apply returns_except_DataError.
  - apply returns_bindM. intros [status idenRec].
    destruct (pystr_eqb status (str "new")).
    + apply returns_modify_inst; [identity | exact Hs].
    + apply returns_bindM. intros [|]; [now apply returns_ret|].
      apply returns_modify_inst; [identity | exact Hs].
  - apply returns_bindM. intros _. now apply returns_ret.
Qed.

Lemma returns_addLanguages r0 r languages :
  same_instance r0 r -> returns (same_instance r0) (_addLanguages r languages).
Proof.
  intros H0. unfold _addLanguages.
  assert (Hbody : forall s x, same_instance r0 s ->
                              returns (same_instance r0) (addLanguage s x)).
  { intros s x Hs. unfold addLanguage. apply returns_except_DataError.
    - apply returns_bindM. intros newLang. apply returns_bindM.
      intros [|]; [now apply returns_ret|].
      apply returns_modify_inst; [identity | exact Hs].
    - apply returns_bindM. intros _. now apply returns_ret. }
  destruct languages; [now apply returns_ret| |]; now apply returns_fold_M.
Qed.

Lemma returns_addItems r0 r items :
  same_instance r0 r -> returns (same_instance r0) (_addItems r items).
Proof.
  unfold _addItems. apply returns_fold_M. intros s x Hs. unfold addItem.
  apply returns_bindM. intros [itemRec op].
  destruct (pystr_eqb op (str "inserted")); [|now apply returns_ret].
  apply returns_modify_inst; [identity | exact Hs].
Qed.

Lemma returns_addAltTitles r0 r altTitles :
  same_instance r0 r -> returns (same_instance r0) (_addAltTitles r altTitles).
Proof.
  intros H0. unfold _addAltTitles. apply returns_bindM. intros kept.
  apply returns_fold_M; [|exact H0]. intros s x Hs.
  apply returns_modify_inst; [identity | exact Hs].
Qed.


End Returns.

Section EntryPoints.
Context `{C : Collaborators}.




End EntryPoints.

(** ** The writes of the reconciliation, one by one *)

Section AgentStepwise.
Context `{C : Collaborators} (P : Store -> Prop) `{!AgentSteps P}.

Lemma stepwise_call {A} (q : Query A) : keeps P (call q).
Proof. apply keeps_call. intros st e. apply step_ext. Qed.

Lemma stepwise_log r : keeps P (modify_store (add_log r)).
Proof. apply keeps_modify_store. intros st. apply step_log. Qed.

Lemma stepwise_update_agent n f : agent_write f -> keeps P (update_agent n f).
Proof.
  intros Hf. apply keeps_modify_store. intros st. now apply (step_agent st n f).
Qed.

Lemma stepwise_persist_agent a : keeps P (persist_agent a).
Proof.
  destruct a as [n|o]; cbn [persist_agent]; [apply keeps_ret|].
  unfold bindM, get_store, modify_store, ret. intros st H. cbn [fst].
  now apply (step_persist st o).
Qed.

Ltac agent_step :=
  first
    [ apply stepwise_call
    | apply stepwise_log
    | apply stepwise_update_agent; constructor
    | apply stepwise_persist_agent
    | keeps_step ].

Lemma stepwise_lookupAgent agent : keeps P (lookupAgent agent).
Proof.
  unfold lookupAgent, lookupByAuthority, lookupByName, getitem.
  repeat agent_step.
Qed.

Lemma stepwise_Agent_update n agent aliases link dates :
  keeps P (Agent_update n agent aliases link dates).
Proof.
  unfold Agent_update, Alias_insertOrSkip, append_agent_link, append_agent_date.
  repeat agent_step.
Qed.

Lemma stepwise_Agent_insert agent aliases link dates :
  keeps P (Agent_insert agent aliases link dates).
Proof. unfold Agent_insert, getitem. repeat agent_step. Qed.

Lemma stepwise_Agent_updateOrInsert agent :
  keeps P (Agent_updateOrInsert agent).
Proof.
  unfold Agent_updateOrInsert, getitem.
  repeat first
    [ apply stepwise_lookupAgent
    | apply stepwise_Agent_update
    | apply stepwise_Agent_insert
    | agent_step ].
Qed.

Lemma stepwise_lookupInstance identifiers volume :
  keeps P (lookupInstance identifiers volume).
Proof. unfold lookupInstance, one_or_none. repeat agent_step. Qed.

End AgentStepwise.

Section InstStepwise.
Context `{C : Collaborators} (P : Store -> Prop) `{!InstSteps P}.

Lemma stepwise_modify_inst r f : inst_write f -> keeps P (modify_inst r f).
Proof.
  intros Hf. destruct r; cbn [modify_inst]; [|apply keeps_ret].
  apply keeps_bindM; [|intros; apply keeps_ret].
  apply keeps_modify_store. intros st. now apply (step_inst st n f).
Qed.

Ltac inst_step :=
  first
    [ apply (stepwise_call P)
    | apply (stepwise_log P)
    | apply stepwise_modify_inst; constructor
    | keeps_step ].

Lemma stepwise_addIdentifiers instance identifiers :
  keeps P (_addIdentifiers instance identifiers).
Proof.
  unfold _addIdentifiers. apply keeps_fold_M. intros s x.
  unfold addIdentifier. repeat inst_step.
Qed.

Lemma stepwise_addLanguages instance languages :
  keeps P (_addLanguages instance languages).
Proof.
  unfold _addLanguages.
  destruct languages; [apply keeps_ret| |]; apply keeps_fold_M; intros ? ?;
    unfold addLanguage; repeat inst_step.
Qed.

Lemma stepwise_addItems instance items : keeps P (_addItems instance items).
Proof.
  unfold _addItems. apply keeps_fold_M. intros s x.
  unfold addItem. repeat inst_step.
Qed.

Lemma stepwise_addAltTitles instance altTitles :
  keeps P (_addAltTitles instance altTitles).
Proof. unfold _addAltTitles. repeat inst_step. Qed.

Lemma stepwise_delegateToWork w instance : keeps P (delegateToWork w instance).
Proof.
  unfold delegateToWork.
  repeat first
    [ apply keeps_modify_store; intros st; apply step_work_call
    | inst_step ].
Qed.

(** The agents are reconciled by a step that keeps [P]. *)
Hypothesis stepwise_addAgents :
  forall instance agents, keeps P (_addAgents instance agents).

Lemma stepwise_reconcileChildren existing instance :
  keeps P (reconcileChildren existing instance).
Proof.
  unfold reconcileChildren.
  repeat first
    [ apply stepwise_addAgents
    | apply stepwise_addIdentifiers
    | apply stepwise_addLanguages
    | apply stepwise_addItems
    | apply stepwise_addAltTitles
    | progress unfold addMeasurement, addDate, addLink, addRights
    | inst_step ].
Qed.

Lemma stepwise_Instance_update existing instance :
  keeps P (Instance_update existing instance).
Proof.
  unfold Instance_update.
  apply keeps_bindM; [destruct existing; cbn [deref]; repeat inst_step|].
  intros obj. apply keeps_bindM.
  { destruct (inst_work obj); [apply stepwise_delegateToWork | apply keeps_ret]. }
  intros _. apply keeps_bindM; [apply stepwise_modify_inst; constructor|].
  intros r. apply stepwise_reconcileChildren.
Qed.

Lemma stepwise_Instance_insert instanceData :
  keeps P (Instance_insert instanceData).
Proof.
  unfold Instance_insert. fold (fresh_instance instanceData).
  set (r0 := NewInst (fresh_instance instanceData)).
  destruct (negb _); [apply keeps_raise|].
  apply (keeps_bindM_from P (same_instance r0));
    [apply stepwise_addAgents | apply returns_addAgents, same_instance_refl |].
  intros r1 H1.
  apply (keeps_bindM_from P (same_instance r0));
    [apply stepwise_addIdentifiers | now apply returns_addIdentifiers |].
  intros r2 H2.
  apply (keeps_bindM_from P (same_instance r0));
    [apply stepwise_addAltTitles | now apply returns_addAltTitles |].
  intros r3 H3.
  apply keeps_bindM; [apply keeps_lift|]. intros ms.
  apply keeps_bindM; [apply keeps_lift|]. intros ls.
  apply keeps_bindM; [apply keeps_lift|]. intros ds.
  apply keeps_bindM; [apply keeps_lift|]. intros rs.
  apply keeps_bindM.
  { destruct r3 as [n|i]; [contradiction|]. apply keeps_ret. }
  intros r4.
  apply keeps_bindM; [apply stepwise_addLanguages|]. intros r5.
  apply stepwise_addItems.
Qed.

End InstStepwise.

Section RoleStepwise.
Context `{C : Collaborators} (P : Store -> Prop) `{!RoleSteps P}.

Lemma stepwise_addAgents_roles instance agents :
  keeps P (_addAgents instance agents).
Proof.
  unfold _addAgents. apply keeps_fold_M. intros s x.
  unfold addAgent, addAgentRole, roleExists, one_or_none, new_AgentInstances.
  repeat first
    [ apply (stepwise_Agent_updateOrInsert P)
    | apply (stepwise_persist_agent P)
    | apply (stepwise_log P)
    | match goal with
      | |- keeps _ (modify_inst ?r (inst_add_agent_role ?x)) =>
          destruct r; cbn [modify_inst];
          [ apply keeps_bindM;
            [ apply keeps_modify_store; intros ?; apply step_role
            | intros; apply keeps_ret ]
          | apply keeps_ret ]
      end
    | keeps_step ].
Qed.

End RoleStepwise.

(** ** Nothing is taken away *)

Section Grows.
Context `{C : Collaborators}.

Lemma agent_grows_refl a : agent_grows a a.
Proof. repeat split; reflexivity. Qed.

Lemma agent_grows_trans a b c :
  agent_grows a b -> agent_grows b c -> agent_grows a c.
Proof.
  intros (? & ? & ? & ?) (? & ? & ? & ?).
  repeat split; [congruence | etrans; eauto ..].
Qed.

Lemma inst_grows_refl i : inst_grows i i.
Proof. repeat split; reflexivity. Qed.

Lemma inst_grows_trans a b c :
  inst_grows a b -> inst_grows b c -> inst_grows a c.
Proof.
  intros (?&?&?&?&?&?&?&?&?&?&?) (?&?&?&?&?&?&?&?&?&?&?).
  repeat split; [congruence | congruence | etrans; eauto ..].
Qed.

Lemma Forall2_map_self {A} (R : A -> A -> Prop) (g : A -> A) (l : list A) :
  (forall x, R x (g x)) -> Forall2 R l (map g l).
Proof. intros H. induction l; cbn [map]; constructor; auto. Qed.

Lemma Forall2_self {A} (R : A -> A -> Prop) (l : list A) :
  (forall x, R x x) -> Forall2 R l l.
Proof. intros H. induction l; constructor; auto. Qed.

Lemma Forall2_chain {A} (R : A -> A -> Prop) (l1 l2 l3 : list A) :
  (forall x y z, R x y -> R y z -> R x z) ->
  Forall2 R l1 l2 -> Forall2 R l2 l3 -> Forall2 R l1 l3.
Proof.
  intros Ht H12. revert l3.
  induction H12 as [|x y l1 l2 Hxy _ IH]; intros l3 H23.
  - inversion H23. constructor.
  - inversion H23 as [|? z ? l3' Hyz H23']; subst.
    constructor; [eapply Ht; eauto | auto].
Qed.

Lemma Forall2_split_left {A} (R : A -> A -> Prop) (l1 l2 k : list A) :
  Forall2 R (l1 ++ l2) k ->
  exists k1 k2, k = k1 ++ k2 /\ Forall2 R l1 k1.
Proof.
  revert k. induction l1 as [|x l1 IH]; intros k H; cbn [app] in H.
  - exists [], k. split; [reflexivity | constructor].
  - inversion H as [|? y ? k' Hxy H']; subst.
    destruct (IH _ H') as (k1 & k2 & -> & Hk).
    exists (y :: k1), k2. split; [reflexivity | now constructor].
Qed.

Lemma session_grows_refl st : session_grows st st.
Proof.
  split; [|split; [|split; [|split]]]; try reflexivity.
  - exists (agents st), []. split; [now rewrite app_nil_r|].
    apply Forall2_self, agent_grows_refl.
  - apply Forall2_self, inst_grows_refl.
Qed.

Lemma session_grows_trans st1 st2 st3 :
  session_grows st1 st2 -> session_grows st2 st3 -> session_grows st1 st3.
Proof.
  intros ((k1 & n1 & E1 & F1) & I1 & L1 & W1 & N1)
         ((k2 & n2 & E2 & F2) & I2 & L2 & W2 & N2).
  split; [|split; [|split; [|split]]].
  - rewrite E1 in F2.
    destruct (Forall2_split_left _ _ _ _ F2) as (ka & kb & -> & Fa).
    exists ka, (kb ++ n2). split; [now rewrite E2, <- app_assoc|].
    eapply Forall2_chain; [apply agent_grows_trans | exact F1 | exact Fa].
  - eapply Forall2_chain; [apply inst_grows_trans | exact I1 | exact I2].
  - etrans; eauto.
  - etrans; eauto.
  - lia.
Qed.

Lemma agent_write_grows f a : agent_write f -> agent_grows a (f a).
Proof.
  intros []; repeat split; cbn;
    first [reflexivity | now apply prefix_app_r].
Qed.

Lemma inst_write_grows f i : inst_write f -> inst_grows i (f i).
Proof.
  intros []; repeat split; cbn;
    first [reflexivity | now apply prefix_app_r].
Qed.

Lemma role_write_grows x i : inst_grows i (inst_add_agent_role x i).
Proof.
  repeat split; cbn; first [reflexivity | now apply prefix_app_r].
Qed.

Ltac grows_same st :=
  repeat split; cbn;
  first
    [ reflexivity
    | now apply prefix_app_r
    | lia
    | apply Forall2_self, inst_grows_refl
    | exists (agents st), []; split;
        [ now rewrite app_nil_r | apply Forall2_self, agent_grows_refl ] ].

#[global] Instance grows_role_steps (st0 : Store) :
  RoleSteps (session_grows st0).
Proof.
  split; [split; [split|..]|].
  - intros st e H. apply (session_grows_trans _ _ _ H). grows_same st.
  - intros st r H. apply (session_grows_trans _ _ _ H). grows_same st.
  - intros st n f Hf H. apply (session_grows_trans _ _ _ H).
    repeat split; cbn;
      first [ reflexivity | lia | apply Forall2_self, inst_grows_refl | idtac ].
    eexists _, []. split; [now rewrite app_nil_r|].
    apply Forall2_map_self. intros a.
    destruct (has_id n a); [now apply agent_write_grows | apply agent_grows_refl].
  - intros st o H. apply (session_grows_trans _ _ _ H).
    repeat split; cbn;
      first [ reflexivity | lia | apply Forall2_self, inst_grows_refl | idtac ].
    eexists _, _. split; [reflexivity|]. apply Forall2_self, agent_grows_refl.
  - intros st c H. apply (session_grows_trans _ _ _ H). grows_same st.
  - intros st n f Hf H. apply (session_grows_trans _ _ _ H).
    repeat split; cbn;
      first [ reflexivity | lia
            | exists (agents st), []; split;
                [ now rewrite app_nil_r | apply Forall2_self, agent_grows_refl ]
            | idtac ].
    apply Forall2_map_self. intros i.
    destruct (inst_has_id n i); [now apply inst_write_grows | apply inst_grows_refl].
  - intros st n x H. apply (session_grows_trans _ _ _ H).
    repeat split; cbn;
      first [ reflexivity | lia
            | exists (agents st), []; split;
                [ now rewrite app_nil_r | apply Forall2_self, agent_grows_refl ]
            | idtac ].
    apply Forall2_map_self. intros i.
    destruct (inst_has_id n i); [apply role_write_grows | apply inst_grows_refl].
Qed.

(** X10. [Agent.updateOrInsert], [Instance.update] and [Instance.insert]
    take nothing away, whether they return or raise: the agent rows stay,
    in their order, each with its key and with its aliases, links and dates
    at the head of what it has afterwards, new agent rows coming after
    them; the instance rows stay the same in number, each with its key, its
    parent work and its collections at the head of what it has afterwards;
    the log and the calls on works only get longer.  (The scalar keys of
    a payload name attribute columns: [setattr] writes the attributes of a
    row, never its primary key or its collections.) *)
Theorem reconciliation_only_adds (st : Store) :
  (forall agent, session_grows st (Agent_updateOrInsert agent st).1)
  /\ (forall existing instance,
        session_grows st (Instance_update existing instance st).1)
  /\ (forall instanceData, session_grows st (Instance_insert instanceData st).1).
Proof.
  split; [|split].
  - intros agent.
    exact (stepwise_Agent_updateOrInsert (session_grows st) agent st
             (session_grows_refl st)).
  - intros existing instance.
    exact (stepwise_Instance_update (session_grows st)
             (stepwise_addAgents_roles (session_grows st)) existing instance st
             (session_grows_refl st)).
  - intros instanceData.
    exact (stepwise_Instance_insert (session_grows st)
             (stepwise_addAgents_roles (session_grows st)) instanceData st
             (session_grows_refl st)).
Qed.

End Grows.

(** ** The primary key of [agent_instances] *)

Section RolesUnique.
Context `{C : Collaborators}.

Lemma Forall_map_if {A} (P : A -> Prop) (c : A -> bool) (f : A -> A) l :
  (forall x, P x -> P (f x)) ->
  Forall P l -> Forall P (map (fun x => if c x then f x else x) l).
Proof.
  intros Hf H. induction H as [|x l Hx _ IH]; cbn [map]; constructor; auto.
  destruct (c x); auto.
Qed.

Lemma keyed_below_mono b b' row : b <= b' -> keyed_below b row -> keyed_below b' row.
Proof. intros Hb (k & E & Hk). exists k. split; [exact E | lia]. Qed.

Lemma roles_unique_bound st st' :
  instances st' = instances st -> agents st' = agents st ->
  next_id st' = next_id st -> roles_unique st -> roles_unique st'.
Proof. unfold roles_unique. intros -> -> ->. auto. Qed.

#[global] Instance roles_unique_steps : InstSteps roles_unique.
Proof.
  split; [split|..].
  - intros st e. now apply roles_unique_bound.
  - intros st r. now apply roles_unique_bound.
  - intros st n f Hf [Hi Ha]. split; [exact Hi|]. cbn.
    apply Forall_map_if; [|exact Ha].
    intros a Hk. destruct Hf; exact Hk.
  - intros st o [Hi Ha]. split; cbn.
    + eapply Forall_impl; [exact Hi|]. intros i [Hn Hb]. split; [exact Hn|].
      eapply Forall_impl; [exact Hb|]. intros row.
      apply keyed_below_mono. lia.
    + apply Forall_app. split.
      * eapply Forall_impl; [exact Ha|]. intros a Hk k E.
        specialize (Hk k E). lia.
      * constructor; [|constructor]. cbn. intros k [= <-]. lia.
  - intros st c. now apply roles_unique_bound.
  - intros st n f Hf [Hi Ha]. split; [|exact Ha]. cbn.
    apply Forall_map_if; [|exact Hi].
    intros i Hk. destruct Hf; exact Hk.
Qed.

Lemma role_rows_nil (k n : nat) (role : pystr) (st : Store) (i : InstanceObj) :
  role_rows (Some k) role (Some n) st = [] ->
  In i (instances st) -> inst_id i = Some n ->
  ~ In (Some k, role) (map role_key (inst_agent_instances i)).
Proof.
  intros Hnil Hi Hid Hin.
  apply in_map_iff in Hin as (row & Hkey & Hrow).
  injection Hkey as Hk Hr.
  assert (Hmem : In row (role_rows (Some k) role (Some n) st)).
  { unfold role_rows. apply in_flat_map. exists i. split; [exact Hi|].
    rewrite bool_decide_eq_true_2 by exact Hid. cbn [is_not_None andb].
    apply filter_In. split; [exact Hrow|].
    rewrite bool_decide_eq_true_2 by exact Hk. cbn [is_not_None andb].
    unfold pystr_eqb. now apply bool_decide_eq_true_2. }
  rewrite Hnil in Hmem. exact Hmem.
Qed.

Lemma NoDup_snoc_key (rows : list (AgentRef * pystr)) (row : AgentRef * pystr) :
  NoDup (map role_key rows) -> ~ In (role_key row) (map role_key rows) ->
  NoDup (map role_key (rows ++ [row])).
Proof.
  intros Hn Hnew. rewrite map_app. cbn [map].
  apply NoDup_app. split; [exact Hn|]. split.
  - intros x Hx Hx'. apply list_elem_of_In in Hx.
    apply list_elem_of_In in Hx'. destruct Hx' as [<-|[]]. contradiction.
  - apply NoDup_singleton.
Qed.

(** A new agent-role row for an agent row, on the instance rows [n] that
    have no such row yet. *)
Lemma role_step_unique (k n : nat) (role : pystr) (st : Store) :
  roles_unique st -> k < next_id st ->
  role_rows (Some k) role (Some n) st = [] ->
  roles_unique (write_inst n (inst_add_agent_role (AgentId k, role)) st).
Proof.
  intros [Hi Ha] Hk Hnil. split; [|exact Ha]. cbn.
  rewrite List.Forall_forall in Hi. apply List.Forall_forall.
  intros j Hj. apply in_map_iff in Hj as (i & <- & Hin).
  destruct (Hi i Hin) as [Hn Hb].
  unfold inst_has_id. destruct (bool_decide (inst_id i = Some n)) eqn:E.
  - apply bool_decide_eq_true_1 in E. cbn. split.
    + apply NoDup_snoc_key; [exact Hn|].
      exact (role_rows_nil k n role st i Hnil Hin E).
    + apply Forall_app. split; [exact Hb|].
      constructor; [|constructor]. exists k. split; [reflexivity | exact Hk].
  - split; assumption.
Qed.

(** A new agent-role row for a primary key that was never handed out. *)
Lemma role_step_fresh (n : nat) (role : pystr) (o : AgentObj) (st : Store) :
  roles_unique st ->
  roles_unique (write_inst n (inst_add_agent_role (AgentId (next_id st), role))
                  (persisted o st)).
Proof.
  intros H. pose proof (step_persist st o H) as [Hi Ha].
  split; [|exact Ha]. cbn in Hi |- *. destruct H as [Hi0 _].
  clear Ha Hi. induction Hi0 as [|i l [Hn Hb] _ IH]; cbn [map]; constructor;
    [|exact IH].
  assert (Hb' : Forall (keyed_below (S (next_id st))) (inst_agent_instances i)).
  { eapply Forall_impl; [exact Hb|]. intros row. apply keyed_below_mono. lia. }
  destruct (inst_has_id n i); [|split; assumption].
  cbn. split.
  - apply NoDup_snoc_key; [exact Hn|]. cbn. intros Hin.
    apply in_map_iff in Hin as (row & Hkey & Hrow).
    injection Hkey as Hk _.
    rewrite List.Forall_forall in Hb.
    destruct (Hb row Hrow) as (k & E & Hlt). rewrite E in Hk.
    injection Hk as ->. lia.
  - apply Forall_app. split; [exact Hb'|].
    constructor; [|constructor]. exists (next_id st). split; [reflexivity | lia].
Qed.

Lemma role_rows_no_key role recordID st : role_rows None role recordID st = [].
Proof.
  unfold role_rows. induction (instances st) as [|i l IH]; cbn [flat_map];
    [reflexivity|].
  rewrite IH, app_nil_r.
  destruct (_ && _); [|reflexivity].
  induction (inst_agent_instances i) as [|row rows IHr]; cbn [List.filter];
    [reflexivity|].
  rewrite andb_false_r. cbn [andb]. exact IHr.
Qed.

Lemma addAgentRole_unique (acc : AgentRef * InstRef) (role : pystr) (st : Store) :
  roles_unique st -> agent_ref_ok acc.1 st ->
  roles_unique (addAgentRole acc role st).1
  /\ forall acc', (addAgentRole acc role st).2 = Ok acc' ->
       agent_ref_ok acc'.1 (addAgentRole acc role st).1.
Proof.
  destruct acc as [agentRec instance]. cbn [fst]. intros H Hok.
  destruct (addAgentRole (agentRec, instance) role st) as [st' r] eqn:E.
  cbn [fst snd]. revert E.
  unfold addAgentRole, roleExists, bindM at 1 2, get_store.
  destruct (role_rows (agent_ref_id agentRec) role (ref_id instance) st)
    as [|x [|y rest]] eqn:Hrows; cbn [one_or_none].
  - unfold ret at 1. unfold new_AgentInstances.
    destruct instance as [n|i].
    + destruct agentRec as [k|o]; cbn [persist_agent].
      * cbn in Hrows, Hok.
        unfold bindM, ret, modify_inst, modify_store. intros [= <- <-].
        split; [now apply role_step_unique|].
        intros acc' [= <-]. exact Hok.
      * cbn in Hok.
        unfold bindM, ret, get_store, modify_inst, modify_store.
        intros [= <- <-].
        split; [exact (role_step_fresh n role o st H)|].
        intros acc' [= <-]. cbn. lia.
    + unfold bindM, ret, modify_inst. intros [= <- <-].
      split; [exact H|]. intros acc' [= <-]. exact Hok.
  - unfold ret. intros [= <- <-]. split; [exact H|].
    intros acc' [= <-]. exact Hok.
  - unfold raise. intros [= <- <-]. split; [exact H|]. discriminate.
Qed.

Lemma addAgentRoles_unique (roles : list pystr) :
  forall (acc : AgentRef * InstRef) (st : Store),
    roles_unique st -> agent_ref_ok acc.1 st ->
    roles_unique (fold_M addAgentRole acc roles st).1.
Proof.
  induction roles as [|role roles IH]; intros acc st H Hok; cbn [fold_M];
    [exact H|].
  unfold bindM.
  destruct (addAgentRole_unique acc role st H Hok) as [H1 Hok1].
  destruct (addAgentRole acc role st) as [st1 [acc1|e]]; cbn [fst snd] in *;
    [|exact H1].
  apply IH; [exact H1 | now apply Hok1].
Qed.

Lemma Agent_insert_fresh agentData aliases link dates :
  returns (fun r => match r with
                    | NewAgent o => agent_id o = None
                    | AgentId _ => False
                    end)
          (Agent_insert agentData aliases link dates).
Proof.
  unfold Agent_insert. apply returns_bindM. intros _.
  destruct (negb _); [apply returns_raise|].
  apply returns_bindM. intros links. apply returns_bindM. intros ds.
  now apply returns_ret.
Qed.

(** The agent [Agent.updateOrInsert] returns is a row of the session or an
    object without a primary key. *)
Lemma updateOrInsert_ref_ok agent st st' ref roles :
  roles_unique st ->
  Agent_updateOrInsert agent st = (st', Ok (ref, roles)) ->
  agent_ref_ok ref st'.
Proof.
  intros [_ Ha] Hrun.
  pose proof (stepwise_Agent_updateOrInsert (session_grows st) agent st
                (session_grows_refl st)) as (_ & _ & _ & _ & Hnext).
  rewrite Hrun in Hnext. cbn [fst] in Hnext.
  apply updateOrInsert_returns in Hrun
    as (name & nr & nd & _ & _ & _ & _ & Hpath).
  destruct Hpath as [(n & a & _ & Hget & -> & _) | (_ & Hins)].
  - cbn. unfold get_agent in Hget. apply find_some in Hget as [Hin Hid].
    unfold has_id in Hid. apply bool_decide_eq_true_1 in Hid.
    rewrite List.Forall_forall in Ha. specialize (Ha a Hin n Hid). lia.
  - apply Agent_insert_fresh in Hins. destruct ref as [k|o]; [contradiction|].
    exact Hins.
Qed.

Lemma addAgent_unique instance agent : keeps roles_unique (addAgent instance agent).
Proof.
  intros st H. unfold addAgent, except_DataError.
  unfold bindM at 1.
  pose proof (stepwise_Agent_updateOrInsert roles_unique agent st H) as H1.
  destruct (Agent_updateOrInsert agent st) as [st1 [[ref roles]|e]] eqn:Hrun;
    cbn [fst] in H1.
  - pose proof (updateOrInsert_ref_ok agent st st1 ref roles H Hrun) as Hok.
    set (rs := match roles with Some r => r | None => _ end).
    pose proof (addAgentRoles_unique rs (ref, instance) st1 H1 Hok) as H2.
    unfold bindM.
    destruct (fold_M addAgentRole (ref, instance) rs st1) as [st2 [out|e]];
      cbn [fst] in H2.
    + exact H2.
    + destruct e; exact H2.
  - destruct e; exact H1.
Qed.

Lemma addAgents_unique instance agents :
  keeps roles_unique (_addAgents instance agents).
Proof. unfold _addAgents. apply keeps_fold_M. intros s x. apply addAgent_unique. Qed.

(** X11. On an instance that is a row of the session, [Instance._addAgents]
    and [Instance.update] respect the primary key of [agent_instances],
    whether they return or raise: in a session where no instance row has
    two agent-role rows with the same agent and role (and the primary keys
    of agents in use are below the next one to hand out), they leave no
    instance row with two such rows, although a payload may name the same
    agent, or the same role, many times.  (On an instance that is not yet
    a row the role query compares its key with [None] and finds nothing:
    nothing is claimed of the rows collected on a new instance.) *)
Theorem reconciliation_keeps_roles_unique (st : Store) (n : nat) :
  roles_unique st ->
  (forall agents, roles_unique (_addAgents (InstId n) agents st).1)
  /\ (forall instance,
        roles_unique (Instance_update (InstId n) instance st).1).
Proof.
  intros H. split.
  - intros agents. exact (addAgents_unique (InstId n) agents st H).
  - intros instance.
    exact (stepwise_Instance_update roles_unique addAgents_unique
             (InstId n) instance st H).
Qed.

End RolesUnique.

(** ** The handlers of [DataError] *)

Section Handlers.
Context `{C : Collaborators}.

Lemma never_raises_except_DataError {A} (m h : M A) :
  never_raises DataError h -> never_raises DataError (except_DataError m h).
Proof.
  intros Hh st. unfold except_DataError.
  destruct (m st) as [st' [a|[]]]; try discriminate. apply Hh.
Qed.

Lemma never_raises_fold_M {A S} e (body : S -> A -> M S) (xs : list A) :
  (forall s x, never_raises e (body s x)) ->
  forall s, never_raises e (fold_M body s xs).
Proof.
  intros Hb. induction xs as [|x xs IH]; intros s; cbn [fold_M].
  - apply never_raises_ret.
  - apply never_raises_bindM; auto.
Qed.

Lemma handler_never_raises r (instance : InstRef) :
  never_raises DataError (modify_store (add_log r) ;; ret instance).
Proof.
  apply never_raises_bindM; [apply never_raises_modify_store|].
  intros _. apply never_raises_ret.
Qed.

(** X12. The three loops of [Instance] that have a handler of [DataError]
    ([_addAgents], [_addIdentifiers] and [_addLanguages]) never raise it,
    whatever the payloads, the session and the collaborators do: each
    iteration that raises it ends in the handler, which logs a warning. *)
Theorem child_loops_swallow_DataError (instance : InstRef) (st : Store) :
  (forall agents, (_addAgents instance agents st).2 <> Raise DataError)
  /\ (forall identifiers,
        (_addIdentifiers instance identifiers st).2 <> Raise DataError)
  /\ (forall languages,
        (_addLanguages instance languages st).2 <> Raise DataError).
Proof.
  split; [|split].
  - intros agents. revert st. change (never_raises DataError (_addAgents instance agents)).
    unfold _addAgents. apply never_raises_fold_M. intros s x.
    apply never_raises_except_DataError, handler_never_raises.
  - intros identifiers. revert st.
    change (never_raises DataError (_addIdentifiers instance identifiers)).
    unfold _addIdentifiers. apply never_raises_fold_M. intros s x.
    apply never_raises_except_DataError, handler_never_raises.
  - intros languages. revert st.
    change (never_raises DataError (_addLanguages instance languages)).
    unfold _addLanguages.
    destruct languages as [|s|l]; [apply never_raises_ret| |];
      apply never_raises_fold_M; intros s' x;
      apply never_raises_except_DataError, handler_never_raises.
Qed.

Lemma fold_M_app {A S} (body : S -> A -> M S) (xs ys : list A) (s : S) (st : Store) :
  fold_M body s (xs ++ ys) st
  = match fold_M body s xs st with
    | (st1, Ok s1) => fold_M body s1 ys st1
    | (st1, Raise e) => (st1, Raise e)
    end.
Proof.
  revert s st. induction xs as [|x xs IH]; intros s st; cbn [app fold_M].
  - reflexivity.
  - unfold bindM. destruct (body s x st) as [st1 [s1|e]]; [apply IH | reflexivity].
Qed.

(** X13. An exception other than [DataError] raised for an agent is not
    handled: when the agents before it were reconciled and
    [Agent.updateOrInsert] raises it, [_addAgents] raises it there, in the
    session as that call left it, and the agents after it are not looked
    at; [Instance.insert], once its constructor has accepted the scalar
    keys of the payload, starts with the agents and raises it as well. *)
Theorem agent_error_aborts (instance : InstRef)
    (before rest : list AgentPayload) (agent : AgentPayload)
    (st st1 st2 : Store) (i1 : InstRef) (e : exn) :
  _addAgents instance before st = (st1, Ok i1) ->
  Agent_updateOrInsert agent st1 = (st2, Raise e) ->
  e <> DataError ->
  _addAgents instance (before ++ agent :: rest) st = (st2, Raise e)
  /\ forall instanceData,
       constructor_accepts OwnerInstance (scalar_fields instanceData) = true ->
       instance = NewInst (fresh_instance instanceData) ->
       ip_agents instanceData = before ++ agent :: rest ->
       Instance_insert instanceData st = (st2, Raise e).
Proof.
  intros Hbefore Hrun He.
  assert (Hadd : _addAgents instance (before ++ agent :: rest) st
                 = (st2, Raise e)).
  { unfold _addAgents in *. rewrite fold_M_app, Hbefore. cbn [fold_M].
    unfold bindM at 1. unfold addAgent at 1. unfold except_DataError.
    unfold bindM at 1. rewrite Hrun. now destruct e. }
  split; [exact Hadd|].
  intros instanceData Hkeys -> Hagents. unfold Instance_insert.
  rewrite Hkeys. cbn [negb].
  fold (fresh_instance instanceData). rewrite Hagents.
  unfold bindM at 1. now rewrite Hadd.
Qed.

End Handlers.

(** ** The queries *)

Section Queries.
Context `{C : Collaborators}.

(** X14. The queries write nothing.  [Agent.lookupAgent] logs one error
    when it raises [MultipleResultsFound], and only then; otherwise, also
    when it raises another exception, the session is as it was.
    [Alias.insertOrSkip] and [AgentInstances.roleExists] leave the session
    as it was.  [Instance.lookupInstance] leaves the agents, the instances,
    the log, the calls on works and the next primary key as they were: the
    session differs by what the identifier collaborator did to its own
    tables.  (The log holds the warnings and the errors.) *)
Theorem queries_write_nothing (st : Store) :
  (forall agent,
      (lookupAgent agent st).1
      = match (lookupAgent agent st).2 with
        | Raise MultipleResultsFound => add_log LogMultipleAgents st
        | _ => st
        end)
  /\ (forall alias recordID, (Alias_insertOrSkip alias recordID st).1 = st)
  /\ (forall agent role recordID, (roleExists agent role recordID st).1 = st)
  /\ (forall identifiers volume,
        (lookupInstance identifiers volume st).1
        = set_ext (Identifier_getByIdentifier OwnerInstance identifiers st).1
                  st).
Proof.
  split; [|split; [|split]].
  - intros agent.
    assert (Hname : (lookupByName agent st).1 = st
                    /\ (lookupByName agent st).2 <> Raise MultipleResultsFound).
    { unfold lookupByName, getitem.
      destruct (agent !! "name") as [[name|]|]; [|now split..].
      unfold bindM, ret, raise, get_store. cbv beta iota zeta.
      destruct (text_needs_value (jaroWinklerQ (escape_quotes name)));
        [now split|].
      now destruct (one (List.filter (fuzzy_match name) (agents st))). }
    destruct (lookupAgent agent st) as [st' r] eqn:E. cbn [fst snd].
    revert E. unfold lookupAgent, getitem, lookupByAuthority.
    unfold bindM, ret, raise, get_store, modify_store.
    destruct (agent !! "viaf") as [viaf|]; [|now intros [= <- <-]].
    destruct (agent !! "lcnaf") as [lcnaf|]; [|now intros [= <- <-]].
    destruct (is_not_None viaf || is_not_None lcnaf);
      [destruct (one (List.filter (authority_match viaf lcnaf) (agents st)))|];
      cbv beta iota;
      try (destruct (lookupByName agent st) as [stn rn];
           cbn [fst snd] in Hname; destruct Hname as [-> Hrn]);
      intros [= <- <-]; try reflexivity;
      destruct rn as [x|[]]; try reflexivity; now destruct Hrn.
  - intros alias recordID. unfold Alias_insertOrSkip, bindM, get_store.
    now destruct (one (alias_rows (escape_quotes alias) recordID st)).
  - intros agent role recordID. unfold roleExists, bindM, get_store.
    now destruct (role_rows (agent_ref_id agent) role recordID st)
      as [|x [|y rest]].
  - intros identifiers volume. unfold lookupInstance, bindM, call.
    destruct (Identifier_getByIdentifier OwnerInstance identifiers st)
      as [e [[n|]|err]]; cbn [fst]; try reflexivity;
      destruct volume as [v|]; try reflexivity.
    unfold get_store.
    destruct (volume_rows n (set_ext e st)) as [|x [|y rest]];
      cbn [one_or_none]; try reflexivity.
    unfold ret at 1. destruct (bool_decide (x = Some v)); reflexivity.
Qed.

(** X15. What [Instance.lookupInstance] returns comes from the identifier
    collaborator and from the row of its candidate.  An id it returns is
    the candidate of the collaborator and, with an incoming volume, the
    session holds one row with that id, whose stored volume is the
    incoming one.  It returns [None] when the collaborator found nothing,
    or when the session holds one row of the candidate and its stored
    volume is not the incoming one. *)
Theorem lookupInstance_sound (identifiers : list IdenData)
    (volume : option pystr) (st st' : Store) (found : option nat) :
  lookupInstance identifiers volume st = (st', Ok found) ->
  exists e candidate,
    Identifier_getByIdentifier OwnerInstance identifiers st
      = (e, Ok candidate)
    /\ st' = set_ext e st
    /\ match found with
       | Some n =>
           candidate = Some n
           /\ forall v, volume = Some v ->
                exists before row after,
                  instances st = before ++ row :: after
                  /\ inst_id row = Some n
                  /\ Forall (fun i => inst_id i <> Some n) (before ++ after)
                  /\ attr (inst_attrs row) "volume" = Some v
       | None =>
           candidate = None
           \/ exists n v before row after,
                candidate = Some n /\ volume = Some v
                /\ instances st = before ++ row :: after
                /\ inst_id row = Some n
                /\ Forall (fun i => inst_id i <> Some n) (before ++ after)
                /\ attr (inst_attrs row) "volume" <> Some v
       end.
Proof.
  unfold lookupInstance, bindM, call.
  destruct (Identifier_getByIdentifier OwnerInstance identifiers st)
    as [e [[n|]|err]]; [| |discriminate].
  - destruct volume as [v|].
    + unfold get_store.
      change (volume_rows n (set_ext e st)) with (volume_rows n st).
      destruct (volume_rows n st) as [|x [|y rest]] eqn:Hrows;
        cbn [one_or_none]; try discriminate.
      apply volume_rows_single in Hrows
        as (before & row & after & Hst & Hrow & Hrest & Hx).
      unfold ret at 1. destruct (bool_decide (x = Some v)) eqn:E.
      * apply bool_decide_eq_true_1 in E. subst x.
        intros [= <- <-]. exists e, (Some n).
        split; [reflexivity|]. split; [reflexivity|].
        split; [reflexivity|]. intros v' [= <-].
        exists before, row, after. auto.
      * apply bool_decide_eq_false_1 in E.
        intros [= <- <-]. exists e, (Some n).
        split; [reflexivity|]. split; [reflexivity|].
        right. exists n, v, before, row, after.
        repeat split; auto. now rewrite Hx.
    + intros [= <- <-]. exists e, (Some n).
      split; [reflexivity|]. split; [reflexivity|].
      split; [reflexivity|]. discriminate.
  - destruct volume; intros [= <- <-]; exists e, None; auto.
Qed.

End Queries.

(** ** Names that need no parsing *)

Section PlainNames.

Lemma plain_quote c : plain_char c = true -> Ascii.eqb "'" c = false.
Proof.
  unfold plain_char. rewrite (Ascii.eqb_sym "'" c).
  destruct (Ascii.eqb c "'"); [discriminate | reflexivity].
Qed.

Lemma plain_bracket c : plain_char c = true -> Ascii.eqb c "[" = false.
Proof.
  unfold plain_char. destruct (Ascii.eqb c "["); [|reflexivity].
  rewrite andb_false_r. discriminate.
Qed.

Lemma plain_hyphen c : plain_char c = true -> Ascii.eqb c "-" = false.
Proof.
  unfold plain_char. destruct (Ascii.eqb c "-"); [|reflexivity].
  rewrite andb_false_r. discriminate.
Qed.

Lemma escape_quotes_plain (s : pystr) :
  forallb plain_char s = true -> escape_quotes s = s.
Proof.
  unfold escape_quotes, py_replace.
  induction s as [|c t IH]; cbn [forallb replace_from]; [reflexivity|].
  intros [Hc Ht]%andb_true_iff.
  change (starts_with (str "'") (c :: t)) with (Ascii.eqb "'" c && true).
  rewrite (plain_quote c Hc). cbn [andb]. now rewrite IH.
Qed.

Lemma match_whole_bracket_plain (s : pystr) :
  forallb plain_char s = true -> match_whole_bracket s = false.
Proof.
  destruct s as [|c t]; cbn [forallb match_whole_bracket]; [reflexivity|].
  intros [Hc _]%andb_true_iff. now rewrite (plain_bracket c Hc).
Qed.

Lemma lifespan_at_plain (s : pystr) :
  forallb plain_char s = true -> lifespan_at s = None.
Proof.
  destruct s as [|d1 [|d2 [|d3 [|d4 [|h t]]]]]; try reflexivity.
  cbn [forallb]. intros H.
  repeat (apply andb_true_iff in H as [? H]).
  unfold lifespan_at. rewrite (plain_hyphen h) by assumption.
  now rewrite andb_false_r.
Qed.

Lemma search_lifespan_plain (s : pystr) :
  forallb plain_char s = true -> search_lifespan s = None.
Proof.
  induction s as [|c t IH]; intros H.
  - reflexivity.
  - cbn [search_lifespan]. rewrite (lifespan_at_plain _ H).
    cbn [forallb] in H. apply andb_true_iff in H as [_ H]. now apply IH.
Qed.

Lemma search_role_plain (s : pystr) :
  forallb plain_char s = true -> search_role s = None.
Proof.
  induction s as [|c t IH]; intros H.
  - reflexivity.
  - cbn [forallb] in H. apply andb_true_iff in H as [Hc H].
    cbn [search_role role_at]. rewrite (plain_bracket c Hc). now apply IH.
Qed.

(** X16. A name that holds no single quote, no opening bracket and no
    hyphen is only stripped: [_cleanName] stores it, as [name] and as
    [sort_name], without the punctuation and spaces at its two ends, and
    adds no role and no date. *)
Theorem cleanName_plain (agent : fields) (roles : list pystr)
    (dates : list DateData) (name : pystr) :
  agent !! "name" = Some (Some name) ->
  forallb plain_char name = true ->
  _cleanName agent roles dates
  = Ok (<["sort_name" := Some (py_strip_chars name_punct name)]>
          (<["name" := Some (py_strip_chars name_punct name)]> agent),
        roles, dates).
Proof.
  intros Hn Hp. unfold _cleanName. rewrite Hn.
  unfold unwrapName. rewrite (escape_quotes_plain name Hp).
  rewrite (match_whole_bracket_plain name Hp).
  unfold parseLifespan. rewrite (search_lifespan_plain name Hp).
  unfold parseRoles. rewrite (search_role_plain name Hp).
  reflexivity.
Qed.

End PlainNames.

(** ** The aliases of a merged agent *)

Section Aliases.
Context `{C : Collaborators}.

Lemma agent_write_id f a : agent_write f -> agent_id (f a) = agent_id a.
Proof. now intros []. Qed.

Lemma agent_write_aliases f a x :
  agent_write f -> In x (agent_aliases a) -> In x (agent_aliases (f a)).
Proof. intros [] H; cbn; auto. apply in_or_app. now left. Qed.

Lemma In_map_if {A} (c : A -> bool) (f : A -> A) (a : A) (l : list A) :
  In a l -> In (if c a then f a else a) (map (fun x => if c x then f x else x) l).
Proof. intros H. now apply (in_map (fun x => if c x then f x else x)). Qed.

#[global] Instance has_row_steps (n : nat) : AgentSteps (has_row n).
Proof.
  split.
  - intros st e H. exact H.
  - intros st r H. exact H.
  - intros st m f Hf (a & Hin & Hid).
    exists (if has_id m a then f a else a). split.
    + cbn. now apply In_map_if.
    + destruct (has_id m a); [now rewrite agent_write_id | exact Hid].
  - intros st o (a & Hin & Hid). exists a. split; [|exact Hid].
    cbn. apply in_or_app. now left.
Qed.

#[global] Instance has_alias_steps (n : nat) (x : pystr) :
  AgentSteps (has_alias n x).
Proof.
  split.
  - intros st e H. exact H.
  - intros st r H. exact H.
  - intros st m f Hf (a & Hin & Hid & Hx).
    exists (if has_id m a then f a else a). split; [|split].
    + cbn. now apply In_map_if.
    + destruct (has_id m a); [now rewrite agent_write_id | exact Hid].
    + destruct (has_id m a); [now apply agent_write_aliases | exact Hx].
  - intros st o (a & Hin & Hid & Hx). exists a. split; [|split; assumption].
    cbn. apply in_or_app. now left.
Qed.

Lemma alias_step (n : nat) (x : pystr) (st : Store) :
  has_row n st -> has_alias n x (write_agent n (add_alias x) st).
Proof.
  intros (a & Hin & Hid). exists (add_alias x a). split; [|split].
  - cbn. replace (add_alias x a) with (if has_id n a then add_alias x a else a).
    + now apply In_map_if.
    + unfold has_id. now rewrite bool_decide_eq_true_2.
  - exact Hid.
  - cbn. apply in_or_app. right. now left.
Qed.

Lemma bindM_Ok {A B} (m : M A) (k : A -> M B) (st st' : Store) (b : B) :
  bindM m k st = (st', Ok b) ->
  exists st1 a, m st = (st1, Ok a) /\ k a st1 = (st', Ok b).
Proof.
  unfold bindM. destruct (m st) as [st1 [a|e]]; [|discriminate]. eauto.
Qed.

(** What [Alias.insertOrSkip] answers: the escaped alias when no row has
    it, nothing when one row has it. *)
Lemma insertOrSkip_Ok (alias : pystr) (n : nat) (st st' : Store)
    (rec : option pystr) :
  Alias_insertOrSkip alias (Some n) st = (st', Ok rec) ->
  st' = st
  /\ match rec with
     | Some x => x = escape_quotes alias
     | None => has_alias n (escape_quotes alias) st
     end.
Proof.
  unfold Alias_insertOrSkip, bindM, get_store.
  destruct (alias_rows (escape_quotes alias) (Some n) st) as [|y [|z rest]]
    eqn:Hrows; cbn [one]; [| |discriminate].
  - intros [= <- <-]. auto.
  - intros [= <- <-]. split; [reflexivity|].
    assert (Hy : In y (alias_rows (escape_quotes alias) (Some n) st))
      by (rewrite Hrows; now left).
    unfold alias_rows in Hy. apply in_flat_map in Hy as (a & Hin & Hy).
    destruct (bool_decide (agent_id a = Some n)) eqn:E; [|destruct Hy].
    apply bool_decide_eq_true_1 in E. cbn [is_not_None andb] in Hy.
    apply filter_In in Hy as [Hy Heq].
    unfold pystr_eqb in Heq. apply bool_decide_eq_true_1 in Heq. subst y.
    exists a. auto.
Qed.

Lemma map_insertOrSkip_Ok (n : nat) (aliases : list pystr) :
  forall (st st' : Store) (recs : list (option pystr)),
    map_M (fun a => Alias_insertOrSkip a (Some n)) aliases st = (st', Ok recs) ->
    st' = st
    /\ Forall (fun a => has_alias n (escape_quotes a) st
                        \/ In (escape_quotes a) (omap id recs))
              aliases.
Proof.
  induction aliases as [|a aliases IH]; intros st st' recs; cbn [map_M].
  - intros [= <- <-]. split; [reflexivity | constructor].
  - intros (st1 & y & Hy & Hrest)%bindM_Ok.
    apply bindM_Ok in Hrest as (st2 & ys & Hys & Hret).
    injection Hret as <- <-.
    apply insertOrSkip_Ok in Hy as [-> Hy].
    apply IH in Hys as [-> Hall]. split; [reflexivity|].
    constructor.
    + destruct y as [x|]; [|now left]. right. subst x. cbn. now left.
    + eapply Forall_impl; [exact Hall|]. intros b [Hb|Hb]; [now left|].
      right. destruct y as [x|]; cbn; [now right | exact Hb].
Qed.

Lemma append_aliases (n : nat) (xs : list pystr) :
  forall st, has_row n st ->
    Forall (fun x =>
              has_alias n x
                (for_each xs (fun alias => update_agent n (add_alias alias)) st).1)
           xs.
Proof.
  induction xs as [|x xs IH]; intros st Hrow; [constructor|].
  assert (E : (for_each (x :: xs)
                 (fun alias => update_agent n (add_alias alias)) st).1
              = (for_each xs (fun alias => update_agent n (add_alias alias))
                   (write_agent n (add_alias x) st)).1) by reflexivity.
  rewrite E. clear E.
  constructor.
  - apply (keeps_for_each (has_alias n x)).
    + intros y. apply stepwise_update_agent; [typeclasses eauto | constructor].
    + now apply alias_step.
  - apply IH. now apply (step_agent st n (add_alias x) (write_alias x)).
Qed.

Lemma keeps_merge_tail (P : Store -> Prop) `{!AgentSteps P} (n : nat)
    (link : LinkArg) (dates : list DateData) :
  keeps P
    (match link with
     | LinkDict link =>
         do updateLink <- call (Link_updateOrInsert link OwnerAgent (Some n));
         append_agent_link n updateLink
     | LinkList link =>
         for_each link (fun linkItem =>
           do updateLink <-
             call (Link_updateOrInsert linkItem OwnerAgent (Some n));
           append_agent_link n updateLink)
     | LinkOther => ret tt
     end ;;
     for_each dates (fun date =>
       do updateDate <-
         call (DateField_updateOrInsert date OwnerAgent (Some n));
       append_agent_date n updateDate) ;;
     ret (AgentId n)).
Proof.
  unfold append_agent_link, append_agent_date.
  repeat first
    [ apply stepwise_call; assumption
    | apply stepwise_update_agent; [assumption | constructor]
    | keeps_step ].
Qed.

(** X17. After [Agent.update] returned for an agent that is a row, every
    alias of the payload, its single quotes doubled, is an alias of that
    agent: the ones a row already had are kept, the others were appended;
    merging the links and dates afterwards takes none away. *)
Theorem Agent_update_records_aliases (n : nat) (agent : fields)
    (aliases : list pystr) (link : LinkArg) (dates : list DateData)
    (st st' : Store) (r : AgentRef) :
  has_row n st ->
  Agent_update n agent (Some aliases) link dates st = (st', Ok r) ->
  Forall (fun x => has_alias n (escape_quotes x) st') aliases.
Proof.
  intros Hrow Hrun. unfold Agent_update in Hrun.
  apply bindM_Ok in Hrun as (st0 & [] & Hattrs & Hrun).
  apply bindM_Ok in Hrun as (st2 & [] & Halias & Htail).
  apply bindM_Ok in Halias as (st1 & recs & Hmap & Happend).
  injection Hattrs as <-.
  fold (write_agent n (with_attrs (setFields agent_value_ok agent)) st) in *.
  set (st0 := write_agent n _ st) in *.
  assert (Hrow0 : has_row n st0)
    by now apply (step_agent st n _ (write_attrs _)).
  apply map_insertOrSkip_Ok in Hmap as [-> Hall].
  pose proof (append_aliases n (omap id recs) st0 Hrow0) as Hnew.
  rewrite Happend in Hnew. cbn [fst] in Hnew.
  assert (Hst' : st' = (bindM
            (match link with
             | LinkDict link =>
                 do updateLink <- call (Link_updateOrInsert link OwnerAgent (Some n));
                 append_agent_link n updateLink
             | LinkList link =>
                 for_each link (fun linkItem =>
                   do updateLink <-
                     call (Link_updateOrInsert linkItem OwnerAgent (Some n));
                   append_agent_link n updateLink)
             | LinkOther => ret tt
             end)
            (fun _ => bindM
               (for_each dates (fun date =>
                  do updateDate <-
                    call (DateField_updateOrInsert date OwnerAgent (Some n));
                  append_agent_date n updateDate))
               (fun _ => ret (AgentId n))) st2).1)
    by now rewrite Htail.
  rewrite Hst'. clear Hst' Htail.
  apply List.Forall_forall. intros x Hx.
  apply (keeps_merge_tail (has_alias n (escape_quotes x)) n link dates).
  rewrite List.Forall_forall in Hall, Hnew.
  destruct (Hall x Hx) as [Hold|Hin].
  - assert (Hk : keeps (has_alias n (escape_quotes x))
                   (for_each (omap id recs)
                      (fun alias => update_agent n (add_alias alias)))).
    { apply keeps_for_each. intros y.
      apply stepwise_update_agent; [typeclasses eauto | constructor]. }
    specialize (Hk st0 Hold). now rewrite Happend in Hk.
  - now apply Hnew.
Qed.

End Aliases.

(** ** What is built is not yet stored *)

Section NoNewRow.
Context `{C : Collaborators}.

Lemma keeps_rows_update_agent st0 n f :
  agent_write f -> keeps (rows_fixed st0) (update_agent n f).
Proof.
  intros Hf. apply keeps_modify_store. intros st (Hi & Hn & Ha).
  split; [exact Hi|]. split; [exact Hn|]. cbn. rewrite <- Ha.
  rewrite map_map. apply map_ext. intros a.
  destruct (has_id n a); [now apply agent_write_id | reflexivity].
Qed.

Ltac rows_step :=
  first
    [ apply keeps_call; intros ? ? ?; assumption
    | apply keeps_rows_update_agent; constructor
    | apply keeps_modify_store; intros ? ?; assumption
    | keeps_step ].

Lemma keeps_rows_Agent_updateOrInsert st0 agent :
  keeps (rows_fixed st0) (Agent_updateOrInsert agent).
Proof.
  unfold Agent_updateOrInsert, lookupAgent, lookupByAuthority, lookupByName,
    Agent_update, Agent_insert, Alias_insertOrSkip, append_agent_link,
    append_agent_date, getitem.
  repeat rows_step.
Qed.

Lemma keeps_rows_modify_new st0 (i0 : InstanceObj) (s : InstRef) f :
  same_instance (NewInst i0) s -> keeps (rows_fixed st0) (modify_inst s f).
Proof. destruct s as [n|i]; [contradiction|]. intros _. apply keeps_ret. Qed.

Lemma returns_addAgentRole r0 (acc : AgentRef * InstRef) role :
  same_instance r0 acc.2 ->
  returns (fun out => same_instance r0 out.2) (addAgentRole acc role).
Proof.
  destruct acc as [a inst]. cbn [snd]. intros Hs. unfold addAgentRole.
  apply returns_bindM. intros [found|]; [now apply returns_ret|].
  unfold new_AgentInstances. destruct inst as [n|i].
  - apply returns_bindM. intros a'.
    apply (returns_bindM_from (same_instance r0)).
    + apply returns_modify_inst; [|exact Hs].
      intros ?; repeat split; reflexivity.
    + intros r' Hr'. now apply returns_ret.
  - apply (returns_bindM_from (same_instance r0)).
    + apply returns_modify_inst; [|exact Hs].
      intros ?; repeat split; reflexivity.
    + intros r' Hr'. now apply returns_ret.
Qed.

Lemma keeps_rows_addAgents st0 (i0 : InstanceObj) agents :
  forall s, same_instance (NewInst i0) s ->
            keeps (rows_fixed st0) (_addAgents s agents).
Proof.
  unfold _addAgents.
  apply (keeps_fold_M_from _ (same_instance (NewInst i0)));
    [|intros s x Hs; now apply returns_addAgent].
  intros s agent Hs. unfold addAgent. apply keeps_except_DataError.
  - apply keeps_bindM; [apply keeps_rows_Agent_updateOrInsert|].
    intros [agentRec roles]. apply keeps_bindM; [|intros out; apply keeps_ret].
    apply (keeps_fold_M_from _ (fun out => same_instance (NewInst i0) out.2));
      [| intros acc role Hacc; now apply returns_addAgentRole | exact Hs].
    intros [a inst] role Hacc. cbn [snd] in Hacc.
    destruct inst as [n|i]; [contradiction|].
    unfold addAgentRole, roleExists, one_or_none, new_AgentInstances.
    cbn [modify_inst]. repeat rows_step.
  - repeat rows_step.
Qed.

Lemma returns_single {A S} (Q : S -> Prop) (body : S -> A -> M S) s x :
  returns Q (fold_M body s [x]) -> returns Q (body s x).
Proof.
  intros H st st' a E. apply (H st st' a). cbn [fold_M]. unfold bindM.
  now rewrite E.
Qed.

Lemma keeps_rows_addIdentifiers st0 (i0 : InstanceObj) identifiers :
  forall s, same_instance (NewInst i0) s ->
            keeps (rows_fixed st0) (_addIdentifiers s identifiers).
Proof.
  unfold _addIdentifiers.
  apply (keeps_fold_M_from _ (same_instance (NewInst i0))).
  - intros s x Hs. destruct s as [n|i]; [contradiction|].
    unfold addIdentifier. cbn [modify_inst]. repeat rows_step.
  - intros s x Hs.
    exact (returns_single _ _ _ _ (returns_addIdentifiers (NewInst i0) s [x] Hs)).
Qed.

Lemma keeps_rows_addLanguages st0 (i0 : InstanceObj) languages :
  forall s, same_instance (NewInst i0) s ->
            keeps (rows_fixed st0) (_addLanguages s languages).
Proof.
  intros s Hs.
  assert (Hloop : forall l, keeps (rows_fixed st0) (fold_M addLanguage s l)).
  { intros l. apply (keeps_fold_M_from _ (same_instance (NewInst i0)));
      [| |exact Hs].
    - intros s' x Hs'. destruct s' as [n|i]; [contradiction|].
      unfold addLanguage. cbn [modify_inst]. repeat rows_step.
    - intros s' x Hs'.
      exact (returns_single _ _ _ _
               (returns_addLanguages (NewInst i0) s' (LangList [x]) Hs')). }
  unfold _addLanguages. destruct languages; [apply keeps_ret | apply Hloop..].
Qed.

Lemma keeps_rows_addItems st0 (i0 : InstanceObj) items :
  forall s, same_instance (NewInst i0) s ->
            keeps (rows_fixed st0) (_addItems s items).
Proof.
  unfold _addItems. apply (keeps_fold_M_from _ (same_instance (NewInst i0))).
  - intros s x Hs. destruct s as [n|i]; [contradiction|].
    unfold addItem. cbn [modify_inst]. repeat rows_step.
  - intros s x Hs.
    exact (returns_single _ _ _ _ (returns_addItems (NewInst i0) s [x] Hs)).
Qed.

Lemma keeps_rows_addAltTitles st0 (i0 : InstanceObj) altTitles :
  forall s, same_instance (NewInst i0) s ->
            keeps (rows_fixed st0) (_addAltTitles s altTitles).
Proof.
  intros s Hs. unfold _addAltTitles.
  apply keeps_bindM; [repeat rows_step|]. intros kept.
  apply (keeps_fold_M_from _ (same_instance (NewInst i0))); [| |exact Hs].
  - intros s' x Hs'. now apply (keeps_rows_modify_new st0 i0).
  - intros s' x Hs'. apply returns_modify_inst; [|exact Hs'].
    intros ?; repeat split; reflexivity.
Qed.

Lemma keeps_rows_Instance_insert st0 instanceData :
  keeps (rows_fixed st0) (Instance_insert instanceData).
Proof.
  unfold Instance_insert. fold (fresh_instance instanceData).
  set (i0 := fresh_instance instanceData).
  destruct (negb _); [apply keeps_raise|].
  apply (keeps_bindM_from _ (same_instance (NewInst i0))).
  { apply (keeps_rows_addAgents st0 i0), same_instance_refl. }
  { apply returns_addAgents, same_instance_refl. }
  intros r1 H1.
  apply (keeps_bindM_from _ (same_instance (NewInst i0)));
    [now apply (keeps_rows_addIdentifiers st0 i0)
    | now apply returns_addIdentifiers |].
  intros r2 H2.
  apply (keeps_bindM_from _ (same_instance (NewInst i0)));
    [now apply (keeps_rows_addAltTitles st0 i0)
    | now apply returns_addAltTitles |].
  intros r3 H3.
  apply keeps_bindM; [apply keeps_lift|]. intros ms.
  apply keeps_bindM; [apply keeps_lift|]. intros ls.
  apply keeps_bindM; [apply keeps_lift|]. intros ds.
  apply keeps_bindM; [apply keeps_lift|]. intros rs.
  apply (keeps_bindM_from _ (same_instance (NewInst i0)));
    [now apply (keeps_rows_modify_new st0 i0) | |].
  { apply returns_modify_inst; [|exact H3].
    intros ?; repeat split; reflexivity. }
  intros r4 H4.
  apply (keeps_bindM_from _ (same_instance (NewInst i0)));
    [now apply (keeps_rows_addLanguages st0 i0)
    | now apply returns_addLanguages |].
  intros r5 H5.
  now apply (keeps_rows_addItems st0 i0).
Qed.

(** X18. What [Agent.updateOrInsert] and [Instance.insert] build is not
    yet stored: whether they return or raise, the session has the instance
    rows it had, unchanged, the agent rows it had (by their keys; a merge
    writes to the row it found), and the next primary key it had.  A new
    agent or instance becomes a row only through its caller. *)
Theorem insert_stores_no_row (st : Store) :
  (forall agent, rows_fixed st (Agent_updateOrInsert agent st).1)
  /\ (forall instanceData, rows_fixed st (Instance_insert instanceData st).1).
Proof.
  assert (H : rows_fixed st st) by (repeat split).
  split.
  - intros agent. exact (keeps_rows_Agent_updateOrInsert st agent st H).
  - intros instanceData.
    exact (keeps_rows_Instance_insert st instanceData st H).
Qed.

End NoNewRow.

(** ** The role query has one answer *)

Section RoleQuery.
Context `{C : Collaborators}.

Lemma role_test_key k role row :
  role_test k role row = true -> role_key row = (k, role).
Proof.
  unfold role_test, role_key, pystr_eqb.
  intros [[Hk _]%andb_true_iff Hr]%andb_true_iff.
  apply bool_decide_eq_true_1 in Hk, Hr. now rewrite Hk, Hr.
Qed.

Lemma filter_no_key k role (rows : list (AgentRef * pystr)) :
  ~ In (k, role) (map role_key rows) ->
  List.filter (role_test k role) rows = [].
Proof.
  induction rows as [|row rows IH]; cbn [map List.filter]; [reflexivity|].
  intros Hnot. destruct (role_test k role row) eqn:E.
  - exfalso. apply Hnot. left. now apply role_test_key.
  - apply IH. intros Hin. apply Hnot. now right.
Qed.

Lemma filter_unique_key k role (rows : list (AgentRef * pystr)) :
  NoDup (map role_key rows) ->
  length (List.filter (role_test k role) rows) <= 1.
Proof.
  induction rows as [|row rows IH]; cbn [map List.filter]; [cbn; lia|].
  intros Hnd. apply NoDup_cons in Hnd as [Hnot Hnd].
  destruct (role_test k role row) eqn:E; [|now apply IH].
  apply role_test_key in E. rewrite E in Hnot.
  rewrite filter_no_key; [cbn; lia|].
  intros Hin. apply Hnot. now apply list_elem_of_In.
Qed.

Lemma role_rows_elsewhere k role recordID (l : list InstanceObj) :
  ~ In recordID (map inst_id l) ->
  flat_map (fun i =>
      if bool_decide (inst_id i = recordID) && is_not_None recordID
      then List.filter (role_test k role) (inst_agent_instances i)
      else []) l = [].
Proof.
  induction l as [|j l IH]; cbn [flat_map map]; [reflexivity|].
  intros Hnot. rewrite bool_decide_eq_false_2.
  - cbn [andb app]. apply IH. intros Hin. apply Hnot. now right.
  - intros Hj. apply Hnot. now left.
Qed.

Lemma role_rows_unique k role recordID (l : list InstanceObj) :
  NoDup (map inst_id l) ->
  Forall (fun i => NoDup (map role_key (inst_agent_instances i))) l ->
  length (flat_map (fun i =>
            if bool_decide (inst_id i = recordID) && is_not_None recordID
            then List.filter (role_test k role) (inst_agent_instances i)
            else []) l) <= 1.
Proof.
  induction l as [|i l IH]; cbn [map flat_map]; [cbn; lia|].
  intros Hnd Hall. apply NoDup_cons in Hnd as [Hnot Hnd].
  inversion Hall as [|? ? Hi Hl]; subst.
  rewrite length_app.
  destruct (bool_decide (inst_id i = recordID)) eqn:E; cbn [andb].
  - apply bool_decide_eq_true_1 in E.
    rewrite role_rows_elsewhere.
    + cbn [length]. destruct (is_not_None recordID); [|cbn; lia].
      pose proof (filter_unique_key k role _ Hi). lia.
    + intros Hin. apply Hnot. apply list_elem_of_In. now rewrite E.
  - cbn [length]. now apply IH.
Qed.

Lemma role_test_true k role (row : AgentRef * pystr) :
  role_test k role row = true <->
  agent_ref_id row.1 = k /\ k <> None /\ row.2 = role.
Proof.
  unfold role_test, pystr_eqb. rewrite !andb_true_iff, !bool_decide_eq_true.
  destruct k; cbn [is_not_None]; intuition congruence.
Qed.

Lemma in_role_rows k role recordID st (row : AgentRef * pystr) :
  In row (role_rows k role recordID st) <->
  exists i, In i (instances st) /\ inst_id i = recordID /\ recordID <> None
            /\ In row (inst_agent_instances i)
            /\ agent_ref_id row.1 = k /\ k <> None /\ row.2 = role.
Proof.
  unfold role_rows. rewrite in_flat_map. split.
  - intros (i & Hi & Hrow).
    destruct (bool_decide (inst_id i = recordID)) eqn:E; [|destruct Hrow].
    apply bool_decide_eq_true_1 in E.
    destruct recordID as [rid|]; cbn [is_not_None andb] in Hrow;
      [|destruct Hrow].
    apply filter_In in Hrow as [Hin Htest].
    apply (role_test_true k role row) in Htest.
    exists i. repeat split; try tauto. discriminate.
  - intros (i & Hi & Hid & Hrid & Hin & Htest).
    exists i. split; [exact Hi|].
    rewrite bool_decide_eq_true_2 by exact Hid.
    destruct recordID as [rid|]; [|contradiction]. cbn [is_not_None andb].
    apply filter_In. split; [exact Hin|].
    now apply (role_test_true k role row).
Qed.

(** X19. In a session whose instance rows have distinct keys and where no
    instance row has two agent-role rows with the same agent and role,
    [AgentInstances.roleExists] never meets several rows: it leaves the
    session as it was and returns the row of the instance [recordID] that
    has the agent and the role, or [None] when that instance has no such
    row (or when the key of the instance or of the agent is [None], which
    no row equals). *)
Theorem roleExists_has_one_answer (st : Store) (agent : AgentRef)
    (role : pystr) (recordID : option nat) :
  NoDup (map inst_id (instances st)) ->
  roles_unique st ->
  exists found,
    roleExists agent role recordID st = (st, Ok found)
    /\ match found with
       | Some row =>
           agent_ref_id row.1 = agent_ref_id agent /\ row.2 = role
           /\ exists i, In i (instances st) /\ inst_id i = recordID
                        /\ In row (inst_agent_instances i)
       | None =>
           recordID = None \/ agent_ref_id agent = None
           \/ forall i row,
                In i (instances st) -> inst_id i = recordID ->
                In row (inst_agent_instances i) ->
                ~ (agent_ref_id row.1 = agent_ref_id agent /\ row.2 = role)
       end.
Proof.
  intros Hids [Hroles _].
  assert (Hlen : length (role_rows (agent_ref_id agent) role recordID st) <= 1).
  { apply (role_rows_unique (agent_ref_id agent) role recordID _ Hids).
    eapply Forall_impl; [exact Hroles|]. now intros i [Hn _]. }
  pose proof (in_role_rows (agent_ref_id agent) role recordID st) as Hin.
  unfold roleExists, bindM, get_store.
  destruct (role_rows (agent_ref_id agent) role recordID st) as [|x [|y rest]].
  - exists None. split; [reflexivity|].
    destruct recordID as [rid|]; [|now left].
    destruct (agent_ref_id agent) as [k|] eqn:Hk; [|now right; left].
    right. right. intros i row Hi Hid Hrow [Ha Hr].
    apply (Hin row). exists i. repeat split; auto; discriminate.
  - exists (Some x). split; [reflexivity|].
    destruct (proj1 (Hin x) (or_introl eq_refl))
      as (i & Hi & Hid & _ & Hrow & Ha & _ & Hr).
    split; [exact Ha|]. split; [exact Hr|]. exists i. auto.
  - cbn [length] in Hlen. lia.
Qed.

End RoleQuery.

(** ** The reconciliation on the scenario data *)

Section MoreScenarios.
#[local] Existing Instance unit_types.
#[local] Existing Instance exact_names.

Lemma updateOrInsert_roles_lowered_witness :
  let agent := john_smith [str "Editor"; str "AUTHOR"; str "editor"] [] in
  let roles := [str "author"; str "editor"] in
  Forall (fun r => py_lower r = r) roles
  /\ Forall (fun r => In (py_lower r) roles) (payload_roles agent).
Proof.
  intros agent roles.
  refine (updateOrInsert_roles_lowered (C := exact_names) agent session0
            (Agent_updateOrInsert agent session0).1
            (NewAgent (mkAgent None
                         {[ "name" := Some (str "Smith, John");
                            "sort_name" := Some (str "Smith, John");
                            "viaf" := Some (str "v1"); "lcnaf" := None ]}
                         [] [] []))
            roles _).
  vm_compute. reflexivity.
Defined.



Lemma session_author_unique : roles_unique session_author.
Proof.
  split.
  - constructor; [|constructor]. cbn. split.
    + constructor; [|constructor]. intros Hin. inversion Hin.
    + constructor; [|constructor]. exists 7. split; [reflexivity | lia].
  - constructor; [|constructor]. cbn. intros k Hk.
    injection Hk as <-. lia.
Qed.

Lemma reconciliation_keeps_roles_unique_witness :
  roles_unique session_author
  /\ (forall agents,
        roles_unique (_addAgents (InstId 1) agents session_author).1)
  /\ (forall instance,
        roles_unique (Instance_update (InstId 1) instance session_author).1).
Proof.
  split; [exact session_author_unique|].
  exact (reconciliation_keeps_roles_unique (C := exact_names) session_author 1
           session_author_unique).
Defined.

Lemma roleExists_has_one_answer_witness :
  exists found,
    roleExists (AgentId 7) (str "author") (Some 1) session_author
    = (session_author, Ok found)
    /\ match found with
       | Some row =>
           agent_ref_id row.1 = Some 7 /\ row.2 = str "author"
           /\ exists i, In i (instances session_author)
                        /\ inst_id i = Some 1
                        /\ In row (inst_agent_instances i)
       | None =>
           Some 1 = None \/ Some 7 = None
           \/ forall i row,
                In i (instances session_author) -> inst_id i = Some 1 ->
                In row (inst_agent_instances i) ->
                ~ (agent_ref_id row.1 = Some 7 /\ row.2 = str "author")
       end.
Proof.
  refine (roleExists_has_one_answer session_author
            (AgentId 7) (str "author") (Some 1) _ session_author_unique).
  constructor; [|constructor]. intros Hin. inversion Hin.
Defined.

Lemma agent_error_aborts_witness :
  let fresh := NewInst (fresh_instance (with_agents [])) in
  let st2 := add_log LogMultipleAgents session_twins in
  _addAgents fresh ([] ++ john_smith [] [] :: [nameless]) session_twins
  = (st2, Raise MultipleResultsFound)
  /\ forall instanceData,
       constructor_accepts OwnerInstance (scalar_fields instanceData) = true ->
       fresh = NewInst (fresh_instance instanceData) ->
       ip_agents instanceData = [] ++ john_smith [] [] :: [nameless] ->
       Instance_insert instanceData session_twins
       = (st2, Raise MultipleResultsFound).
Proof.
  intros fresh st2.
  refine (agent_error_aborts (C := exact_names) fresh [] [nameless]
            (john_smith [] []) session_twins session_twins st2 fresh
            MultipleResultsFound eq_refl _ _).
  - vm_compute. reflexivity.
  - discriminate.
Defined.

Lemma lookupInstance_sound_witness :
  let st' := (lookupInstance [tt] (Some (str "1")) session_work).1 in
  exists e candidate,
    Identifier_getByIdentifier OwnerInstance [tt] session_work
    = (e, Ok candidate)
    /\ st' = set_ext e session_work
    /\ candidate = Some 1
    /\ forall v, Some (str "1") = Some v ->
         exists before row after,
           instances session_work = before ++ row :: after
           /\ inst_id row = Some 1
           /\ Forall (fun i => inst_id i <> Some 1) (before ++ after)
           /\ attr (inst_attrs row) "volume" = Some v.
Proof.
  intros st'.
  refine (lookupInstance_sound (C := exact_names) [tt] (Some (str "1"))
            session_work st' (Some 1) _).
  vm_compute. reflexivity.
Defined.

Lemma cleanName_plain_witness :
  let name := str " Smith, John. " in
  let agent : fields := {[ "name" := Some name ]} in
  _cleanName agent [str "editor"] []
  = Ok (<["sort_name" := Some (py_strip_chars name_punct name)]>
          (<["name" := Some (py_strip_chars name_punct name)]> agent),
        [str "editor"], []).
Proof.
  intros name agent.
  exact (cleanName_plain agent [str "editor"] [] name eq_refl eq_refl).
Defined.

Lemma Agent_update_records_aliases_witness :
  let aliases := [str "J. Smith"; str "O'Neil"] in
  let st' := (Agent_update 7 ∅ (Some aliases) LinkOther [] session_smith).1 in
  has_row 7 session_smith
  /\ Forall (fun x => has_alias 7 (escape_quotes x) st') aliases.
Proof.
  intros aliases st'.
  assert (H : has_row 7 session_smith).
  { exists other_smith. split; [now left | reflexivity]. }
  split; [exact H|].
  refine (Agent_update_records_aliases (C := exact_names) 7 ∅ aliases
            LinkOther [] session_smith st' (AgentId 7) H _).
  vm_compute. reflexivity.
Defined.

(** The payload "Smith, John" reaches the two agents that share its VIAF
    identifier: the reconciliation of the instance stops there, the error
    is logged, no agent-role row is written. *)
Example twins_abort_the_instance :
  let out := Instance_update (InstId 1)
               (with_agents [john_smith [] []; nameless]) session_twins in
  out.2 = Raise MultipleResultsFound
  /\ log out.1 = [LogMultipleAgents]
  /\ all_agent_roles out.1 = [(Some 1, [])].
Proof. repeat split; vm_compute; reflexivity. Qed.

(** The author 7 of the instance 1 is named again, twice, with the roles
    author and editor: the instance gets the one row that was missing. *)
Example author_named_again :
  let smith := mkAgentPayload
                 {[ "name" := Some (str "Smith, John [Author; editor]");
                    "viaf" := Some (str "v2"); "lcnaf" := None ]}
                 (Some []) (Some [str "author"]) LinkOther (Some []) in
  let out := _addAgents (InstId 1) [smith; smith] session_author in
  out.2 = Ok (InstId 1)
  /\ all_agent_roles out.1
     = [(Some 1, [(Some 7, str "author"); (Some 7, str "editor")])].
Proof. repeat split; vm_compute; reflexivity. Qed.

(** A name with a colon before a word: the text of the fuzzy query has a
    bind parameter without a value, and the lookup raises. *)
Example colon_in_name_raises :
  let agent : fields :=
    {[ "name" := Some (str "Smith :ed"); "viaf" := None; "lcnaf" := None ]} in
  lookupAgent agent session_smith = (session_smith, Raise StatementError).
Proof. vm_compute. reflexivity. Qed.

(** A key that is no attribute of [Agent] stops the constructor of a new
    agent; the merge into a stored agent writes it. *)
Example unknown_key_stops_insert :
  let doe := mkAgentPayload
               {[ "name" := Some (str "Doe, Jane"); "viaf" := None;
                  "lcnaf" := None; "birth_place" := Some (str "Oslo") ]}
               (Some []) (Some []) LinkOther (Some []) in
  Agent_updateOrInsert doe session_smith = (session_smith, Raise TypeError).
Proof. vm_compute. reflexivity. Qed.

(** On an instance that is not yet a row the role query finds nothing:
    the stored agent 7, named twice as author, is collected twice. *)
Example new_instance_repeats_the_role :
  let smith := mkAgentPayload
                 {[ "name" := Some (str "Smith, John");
                    "viaf" := Some (str "v2"); "lcnaf" := None ]}
                 (Some []) (Some [str "author"]) LinkOther (Some []) in
  exists i,
    (Instance_insert (with_agents [smith; smith]) session_smith).2
    = Ok (NewInst i)
    /\ map (fun row => (agent_ref_id row.1, row.2)) (inst_agent_instances i)
       = [(Some 7, str "author"); (Some 7, str "author")].
Proof. eexists. split; vm_compute; reflexivity. Qed.

End MoreScenarios.
